(** * A shallow embedding of the PKIsensee YAML library (yaml.h, yaml.cpp)

    Two components are modelled after the C++ source:

    - the scalar encoder ([Yaml::GetSpecialChars], [Yaml::CreateSafeScalar],
      [Yaml::CreateKeyValue]) in module [Yaml];
    - the event driven scanner ([YamlParser]) in module [Parser].

    Conventions.  A [size_t] is a [Z] in the range [0, 2^64); arithmetic
    that can leave the range is wrapped with [wrap].  A [char] is an
    [ascii]; [static_cast<uint8_t>] is [nat_of_ascii].  A [std::string_view]
    is the [string] of its bytes.  An [assert] that fails aborts the
    program: functions that contain one return [option] or the [Abort]
    outcome. *)

From Stdlib Require Import ZArith Lia Bool List Ascii String.
From stdpp Require Import base list relations.
Import ListNotations.

#[local] Open Scope Z_scope.

(** ** Machine integers and characters *)

Definition wrap (z : Z) : Z := z mod 2 ^ 64.

Definition kInvalidPos : Z := wrap (-1).
Definition kNoLevel : Z := wrap (-1).

Definition chr (n : nat) : ascii := ascii_of_nat n.

Definition NUL : ascii := chr 0.
Definition TAB : ascii := chr 9.
Definition LF : ascii := chr 10.
Definition CR : ascii := chr 13.
Definition SPACE : ascii := chr 32.
Definition DQUOTE : ascii := chr 34.
Definition SQUOTE : ascii := chr 39.
Definition DASH : ascii := chr 45.

(** [CharIsIn c validSet]: [std::any_of] with equality. *)
Definition CharIsIn (c : ascii) (validSet : list ascii) : bool :=
  existsb (Ascii.eqb c) validSet.

Definition chars (s : string) : list ascii := list_ascii_of_string s.
Definition str (l : list ascii) : string := string_of_list_ascii l.

(** ** The scalar encoder *)

Module Yaml.

Record Special := mkSpecial {
  firstSpecialPos : Z;
  firstSingleQuote : Z;
  firstDoubleQuote : Z;
  hasSpecialChars : bool;
  specialChar : ascii
}.

(** [explicit Special( bool hasSpecial )]: the other members keep their
    default member initialisers. *)
Definition Special_of (hasSpecial : bool) : Special :=
  mkSpecial 0 0 0 hasSpecial NUL.

(** The local [struct Letter] of [GetSpecialChars]. *)
Record Letter := mkLetter { firstPos : Z; found : bool }.

#[global] Instance Letter_inhabited : Inhabited Letter :=
  populate (mkLetter 0 false).

Definition kAsciiTableSize : nat := 256.

(** [std::array<Letter, kAsciiTableSize> ascii;] every entry default
    initialised. *)
Definition ascii_init : list Letter :=
  replicate kAsciiTableSize (mkLetter 0 false).

(** The body of the first loop at index [i] with byte [ch]. *)
Definition record_char (tbl : list Letter) (i : Z) (ch : ascii) : list Letter :=
  let c := nat_of_ascii ch in
  if firstPos (tbl !!! c) =? 0
  then <[c := mkLetter i true]> tbl
  else tbl.

(** [for( size_t i = 0; i < scalar.size(); ++i )] over the bytes that are
    left, [i] being the index of the first of them. *)
Fixpoint build_table (rest : list ascii) (i : Z) (tbl : list Letter) : list Letter :=
  match rest with
  | [] => tbl
  | ch :: rest' => build_table rest' (i + 1) (record_char tbl i ch)
  end.

Definition kLowerBound : ascii := SPACE.
Definition kUpperBound : ascii := "z"%char.

Definition kSpecialChar : list ascii :=
  [ "!"; DQUOTE; "#"; "$"; "%"; "&"; SQUOTE; "*"; ","; "-";
    "/"; ":"; "<"; "="; ">"; "?"; "@"; "["; "\"; "]"; "`" ]%char.

(** The condition of the second loop: [c] is a [size_t], the bounds and the
    members of [kSpecialChar] are promoted to it. *)
Definition is_special (c : nat) : bool :=
  (c <? nat_of_ascii kLowerBound)%nat
  || (nat_of_ascii kUpperBound <? c)%nat
  || existsb (fun e => (c =? nat_of_ascii e)%nat) kSpecialChar.

(** The three variables the second loop updates. *)
Record Lowest := mkLowest {
  lowestPosition : Z;
  lowSingleQuote : Z;
  lowDoubleQuote : Z
}.

(** The body of the second loop for table index [c]. *)
Definition scan_letter (tbl : list Letter) (acc : Lowest) (c : nat) : Lowest :=
  let letter := tbl !!! c in
  if found letter then
    let acc1 :=
      if is_special c then
        if firstPos letter <? lowestPosition acc
        then mkLowest (firstPos letter) (lowSingleQuote acc) (lowDoubleQuote acc)
        else acc
      else acc in
    let acc2 :=
      if (c =? nat_of_ascii SQUOTE)%nat
      then mkLowest (lowestPosition acc1) (firstPos letter) (lowDoubleQuote acc1)
      else acc1 in
    if (c =? nat_of_ascii DQUOTE)%nat
    then mkLowest (lowestPosition acc2) (lowSingleQuote acc2) (firstPos letter)
    else acc2
  else acc.

(** [for( size_t c = 0; c < ascii.size(); ++c )]. *)
Definition scan_table (tbl : list Letter) : Lowest :=
  fold_left (scan_letter tbl) (seq 0 (length tbl))
            (mkLowest kInvalidPos kInvalidPos kInvalidPos).

(** The early return for a scalar that is already quoted. *)
Definition already_quoted (scalar : list ascii) : bool :=
  match scalar with
  | [] => false
  | front :: _ =>
      (2 <? length scalar)%nat
      && (Ascii.eqb front SQUOTE || Ascii.eqb front DQUOTE)
      && Ascii.eqb front (List.last scalar NUL)
  end.

Definition GetSpecialChars (scalar : string) : Special :=
  let s := chars scalar in
  match s with
  | [] => Special_of false
  | _ =>
    if already_quoted s then Special_of false
    else
      let tbl := build_table s 0 ascii_init in
      let low := scan_table tbl in
      if lowestPosition low =? kInvalidPos then Special_of false
      else mkSpecial (lowestPosition low) (lowSingleQuote low)
                     (lowDoubleQuote low) true
                     (nth (Z.to_nat (lowestPosition low)) s NUL)
  end.

(** [CreateSafeScalar]; [None] when the assertion on the two kinds of
    quotes fails. *)
Definition CreateSafeScalar (scalar : string) : option string :=
  let special := GetSpecialChars scalar in
  if hasSpecialChars special then
    if (firstDoubleQuote special <? kInvalidPos)
       && (firstSingleQuote special <? kInvalidPos)
    then None
    else
      let quote := if firstSingleQuote special <? kInvalidPos
                   then DQUOTE else SQUOTE in
      Some (String quote (scalar ++ String quote EmptyString))
  else Some scalar.

Definition CreateKeyValue (tag scalar : string) : option string :=
  match CreateSafeScalar scalar with
  | Some safe => Some (tag ++ ": " ++ safe ++ String LF EmptyString)%string
  | None => None
  end.

(** [CreateSequence] (yaml.h).  [item] is what the [if constexpr] selects for
    the elements of the container: [CreateSafeScalar] for text,
    [Util::ToString] for numbers. *)
Section Sequences.

Context {A : Type}.
Variable item : A -> option string.

(** The range [for] of [CreateSequence], on the elements that are left. *)
Fixpoint CreateSequence_loop (c : list A) (isFirstEntry : bool) (yaml : string)
    : option string :=
  match c with
  | [] => Some yaml
  | s :: rest =>
      let yaml := if isFirstEntry then yaml else (yaml ++ ", ")%string in
      match item s with
      | Some text => CreateSequence_loop rest false (yaml ++ text)%string
      | None => None
      end
  end.

Definition CreateSequence (c : list A) : option string :=
  match c with
  | [] => Some "[]"%string
  | [front] =>
      match item front with
      | Some text => Some ("[" ++ text ++ "]")%string
      | None => None
      end
  | _ =>
      match CreateSequence_loop c true "[" with
      | Some yaml => Some (yaml ++ "]")%string
      | None => None
      end
  end.

Definition CreateKeyValueSeq (tag : string) (c : list A) : option string :=
  match CreateSequence c with
  | Some seq => Some (tag ++ ": " ++ seq ++ String LF EmptyString)%string
  | None => None
  end.

End Sequences.

(** The two instances of the template: a container of text and a container
    of numbers, for which [Util::ToString] (Util.h) is a parameter. *)
Definition CreateSequence_text : list string -> option string :=
  CreateSequence CreateSafeScalar.

Definition CreateSequence_numeric {N : Type} (ToString : N -> string)
    : list N -> option string :=
  CreateSequence (fun n => Some (ToString n)).

End Yaml.

(** ** The event driven scanner *)

Module Parser.

(** One constructor per callback of [struct YamlHandler]; the scanner's
    calls are logged in the order they are made. *)
Inductive Event : Type :=
| StartDocument
| EndDocument
| StartSequence
| EndSequence
| StartMapping
| EndMapping
| Key (text : string)
| Scalar (text : string)
| ErrorAt (msg : string) (line col : Z).

(** [struct YamlHandler]: a handler is a state [H] with the nine virtual
    member functions; [onKey] and [onScalar] answer [true] to continue. *)
Class YamlHandler (H : Type) := {
  onStartDocument : H -> H;
  onEndDocument : H -> H;
  onStartSequence : H -> H;
  onEndSequence : H -> H;
  onStartMapping : H -> H;
  onEndMapping : H -> H;
  onKey : string -> H -> bool * H;
  onScalar : string -> H -> bool * H;
  onError : string -> Z -> Z -> H -> H
}.

(** The base class itself: every member function has an empty body. *)
#[global] Instance DefaultHandler : YamlHandler unit := {|
  onStartDocument h := h;
  onEndDocument h := h;
  onStartSequence h := h;
  onEndSequence h := h;
  onStartMapping h := h;
  onEndMapping h := h;
  onKey _ h := (true, h);
  onScalar _ h := (true, h);
  onError _ _ _ h := h
|}.

(** A handler that counts the keys and scalars it is given and stops the
    scan at the [n]-th of them. *)
#[global] Instance StopAfter : YamlHandler nat := {|
  onStartDocument h := h;
  onEndDocument h := h;
  onStartSequence h := h;
  onEndSequence h := h;
  onStartMapping h := h;
  onEndMapping h := h;
  onKey _ h := (negb (h =? 1)%nat, pred h);
  onScalar _ h := (negb (h =? 1)%nat, pred h);
  onError _ _ _ h := h
|}.

(** A handler that keeps the texts of the keys and scalars it is given, the
    last one first, and never stops the scan. *)
#[global] Instance Collect : YamlHandler (list string) := {|
  onStartDocument h := h;
  onEndDocument h := h;
  onStartSequence h := h;
  onEndSequence h := h;
  onStartMapping h := h;
  onEndMapping h := h;
  onKey s h := (true, s :: h);
  onScalar s h := (true, s :: h);
  onError _ _ _ h := h
|}.

(** [struct Indent]. *)
Record Indent := mkIndent { level : Z; isSequence : bool }.

(** [class YamlStack]: the list holds [mStack[mSize-1]], ..., [mStack[0]],
    the top first. *)
Definition kMaxStackSize : nat := 32.

Definition push (indent : Indent) (s : list Indent) : option (list Indent) :=
  if (length s <? kMaxStackSize - 1)%nat then Some (indent :: s) else None.

Definition pop (s : list Indent) : option (list Indent) :=
  match s with [] => None | _ :: s' => Some s' end.

Definition top (s : list Indent) : option Indent :=
  match s with [] => None | t :: _ => Some t end.

(** The data members of [class YamlParser], and the log of the calls made
    to the handler so far. *)
Record State (H : Type) := mkState {
  curr_ : nat;
  end_ : nat;
  line_ : Z;
  col_ : Z;
  yamlHandler_ : H;
  yamlStack_ : list Indent;
  completeKeyValuePair_ : bool;
  events : list Event
}.

Arguments mkState {H}.
Arguments curr_ {H}.
Arguments end_ {H}.
Arguments line_ {H}.
Arguments col_ {H}.
Arguments yamlHandler_ {H}.
Arguments yamlStack_ {H}.
Arguments completeKeyValuePair_ {H}.
Arguments events {H}.

(** What a member function hands back: [Ret b st] is a normal return (of
    [b] for a [bool] function, of [true] for a [void] one), [Abort] a failed
    assertion, [Fuel] a loop of the model that ran out of iterations. *)
Inductive Result (H : Type) : Type :=
| Ret (b : bool) (st : State H)
| Abort (st : State H)
| Fuel.

Arguments Ret {H}.
Arguments Abort {H}.
Arguments Fuel {H}.

Inductive TrimTrailingBlanks := No | Yes.

(** [for( ; p < e && cond(p, a); ++p, a = next(p, a) )]: every loop of the
    scanner over the text has this shape; [fuel] bounds the iterations. *)
Fixpoint for_ptr {A : Type} (e : nat) (cond : nat -> A -> bool)
    (next : nat -> A -> A) (fuel p : nat) (a : A) : nat * A :=
  match fuel with
  | O => (p, a)
  | S fuel' =>
      if (p <? e)%nat && cond p a
      then for_ptr e cond next fuel' (S p) (next p a)
      else (p, a)
  end.

(** The loop run from [p]: it makes at most [e - p] iterations. *)
Definition scan {A : Type} (e : nat) (cond : nat -> A -> bool)
    (next : nat -> A -> A) (p : nat) (a : A) : nat * A :=
  for_ptr e cond next (e - p) p a.

(** [str.find_last_not_of( ' ' ) + 1], which is [0] when there is none. *)
Fixpoint find_last_not_of_space (l : list ascii) : nat :=
  match l with
  | [] => O
  | c :: r =>
      match find_last_not_of_space r with
      | O => if Ascii.eqb c SPACE then O else 1%nat
      | S n => S (S n)
      end
  end.

Definition kIndentChars : list ascii := [SPACE; DASH].
Definition kIgnoreIndent : list ascii := [CR; LF; "#"%char].
Definition kEndLine : list ascii := [CR; LF].
Definition kIsWhite : list ascii := [SPACE; CR; LF; NUL].
Definition kEndScalar : list ascii :=
  [","%char; ":"%char; TAB; CR; LF; "]"%char; "}"%char; "#"%char].
Definition kImportantChar : list ascii :=
  [":"%char; TAB; CR; LF; ","%char; "]"%char; "}"%char; "#"%char].
Definition kMaxScalarStringPrefixForErrorMsg : nat := 12.
Definition kQuoteChars : Z := 2.

Section WithText.

Context {H : Type} {handler : YamlHandler H}.

(** The text the [string_view] covers, and the byte stored right after it
    (the terminating NUL when the view is taken of a [std::string] or of a
    literal): [*curr_] is evaluated in a few places when [curr_ == end_]. *)
Variable yaml : string.
Variable past : ascii.

Definition buf : list ascii := chars yaml.

(** [*p] *)
Definition deref (p : nat) : ascii := nth p buf past.

#[local] Abbreviation St := (State H).

Definition set_curr (p : nat) (st : St) : St :=
  mkState p (end_ st) (line_ st) (col_ st) (yamlHandler_ st) (yamlStack_ st)
          (completeKeyValuePair_ st) (events st).

Definition set_end (e : nat) (st : St) : St :=
  mkState (curr_ st) e (line_ st) (col_ st) (yamlHandler_ st) (yamlStack_ st)
          (completeKeyValuePair_ st) (events st).

Definition set_line (l : Z) (st : St) : St :=
  mkState (curr_ st) (end_ st) l (col_ st) (yamlHandler_ st) (yamlStack_ st)
          (completeKeyValuePair_ st) (events st).

Definition set_col (c : Z) (st : St) : St :=
  mkState (curr_ st) (end_ st) (line_ st) c (yamlHandler_ st) (yamlStack_ st)
          (completeKeyValuePair_ st) (events st).

Definition set_stack (s : list Indent) (st : St) : St :=
  mkState (curr_ st) (end_ st) (line_ st) (col_ st) (yamlHandler_ st) s
          (completeKeyValuePair_ st) (events st).

Definition set_complete (b : bool) (st : St) : St :=
  mkState (curr_ st) (end_ st) (line_ st) (col_ st) (yamlHandler_ st)
          (yamlStack_ st) b (events st).

(** A call of a [void] callback [f], logged as [e]. *)
Definition call (e : Event) (f : H -> H) (st : St) : St :=
  mkState (curr_ st) (end_ st) (line_ st) (col_ st) (f (yamlHandler_ st))
          (yamlStack_ st) (completeKeyValuePair_ st) (events st ++ [e]).

(** A call of a [bool] callback [f], logged as [e]. *)
Definition ask (e : Event) (f : H -> bool * H) (st : St) : bool * St :=
  let (b, h) := f (yamlHandler_ st) in
  (b, mkState (curr_ st) (end_ st) (line_ st) (col_ st) h
              (yamlStack_ st) (completeKeyValuePair_ st) (events st ++ [e])).

Definition call_onKey (s : string) (st : St) : Result H :=
  let (b, st') := ask (Key s) (onKey s) st in Ret b st'.

Definition call_onScalar (s : string) (st : St) : Result H :=
  let (b, st') := ask (Scalar s) (onScalar s) st in Ret b st'.

(** [ExtractStr( start, end, trimTrailingBlanks )]; its two assertions hold
    at each of its four calls ([start] is a valid pointer and
    [start <= end]). *)
Definition ExtractStr (start stop : nat) (trim : TrimTrailingBlanks) : string :=
  let s := map deref (seq start (stop - start)) in
  match trim with
  | Yes => str (take (find_last_not_of_space s) s)
  | No => str s
  end.

(** [YamlParser::YamlParser]: the sentinel frame is pushed on the empty
    stack. *)
Definition YamlParser (h : H) : St :=
  mkState O (length buf) 1 0 h [mkIndent 0 false] true [].

Definition Error (errMessage : string) (st : St) : Result H :=
  Ret false (call (ErrorAt errMessage (line_ st) (col_ st))
                  (onError errMessage (line_ st) (col_ st)) st).

Definition HandleMissingNull (st : St) : St :=
  if completeKeyValuePair_ st then st
  else set_complete true (snd (ask (Scalar "null") (onScalar "null") st)).

Definition Push (indent : Indent) (st : St) : Result H :=
  let st := set_complete true st in
  match push indent (yamlStack_ st) with
  | None => Abort st
  | Some s =>
      let st := set_stack s st in
      Ret true (if isSequence indent
                then call StartSequence onStartSequence st
                else call StartMapping onStartMapping st)
  end.

Definition Pop (st : St) : Result H :=
  if (length (yamlStack_ st) =? 1)%nat
  then Error "Too many closing braces or brackets" st
  else
    let st := HandleMissingNull st in
    match top (yamlStack_ st), pop (yamlStack_ st) with
    | Some t, Some s =>
        let st := if isSequence t
                  then call EndSequence onEndSequence st
                  else call EndMapping onEndMapping st in
        Ret true (set_stack s st)
    | _, _ => Abort st
    end.

Definition PeekNext_at (e p : nat) : ascii :=
  if (e <=? p + 1)%nat then NUL else deref (p + 1).

Definition PeekNext (st : St) : ascii := PeekNext_at (end_ st) (curr_ st).

Definition GetIndent (st : St) : St * Indent :=
  let '(p, indent) :=
    scan (end_ st)
         (fun p _ => CharIsIn (deref p) kIndentChars)
         (fun p ind => mkIndent (wrap (level ind + 1))
                                (if Ascii.eqb (deref p) DASH then true
                                 else isSequence ind))
         (curr_ st) (mkIndent 0 false) in
  let indent := if CharIsIn (deref p) kIgnoreIndent
                then mkIndent kNoLevel (isSequence indent)
                else indent in
  (set_curr p st, indent).

Definition SkipStartDocument (st : St) : bool * St :=
  let '(p, dashCount) :=
    scan (end_ st)
         (fun p dashCount => Ascii.eqb (deref p) DASH && (dashCount <? 3))
         (fun _ dashCount => dashCount + 1)
         (S (curr_ st)) 1 in
  (dashCount =? 3, set_col (wrap (col_ st + dashCount)) (set_curr p st)).

Definition SkipSpaces (st : St) : St :=
  let '(p, col) :=
    scan (end_ st)
         (fun p _ => Ascii.eqb (deref p) SPACE)
         (fun _ col => wrap (col + 1))
         (S (curr_ st)) (col_ st) in
  set_col (wrap (col - 1)) (set_curr (pred p) st).

(** The loop of [SkipLine] leaves through its [break] exactly when it stops
    before [end_]. *)
Definition SkipLine (st : St) : St :=
  let '(p, _) :=
    scan (end_ st)
         (fun p _ => negb (CharIsIn (deref p) kEndLine))
         (fun _ u => u)
         (curr_ st) tt in
  if (p <? end_ st)%nat then set_curr (pred p) st else set_curr p st.

Definition IsNormalChar_at (e p : nat) : bool :=
  if Ascii.eqb (deref p) ":" || Ascii.eqb (deref p) ","
  then negb (CharIsIn (PeekNext_at e p) kIsWhite)
  else false.

Definition IsNormalChar (st : St) : bool :=
  IsNormalChar_at (end_ st) (curr_ st).

Definition OutputScalar (s : string) (st : St) : Result H :=
  let c := deref (curr_ st) in
  let st := set_curr (pred (curr_ st)) st in
  if Ascii.eqb c ":" then
    let st := HandleMissingNull st in
    let st := set_complete false st in
    call_onKey s st
  else
    let st := set_complete true st in
    call_onScalar s st.

(** The loop of [ParsePlain] goes on while the byte is no end of scalar, or
    is one that [IsNormalChar] lets through. *)
Definition ParsePlain (st : St) : Result H :=
  let startStr := curr_ st in
  let '(p, _) :=
    scan (end_ st)
         (fun p _ => negb (CharIsIn (deref p) kEndScalar)
                     || IsNormalChar_at (end_ st) p)
         (fun _ u => u)
         startStr tt in
  if (p <? end_ st)%nat then
    let s := ExtractStr startStr p Yes in
    let st := set_curr p st in
    let st := set_col (wrap (col_ st + Z.of_nat (p - startStr))) st in
    OutputScalar s st
  else
    let st := set_curr p st in
    let st := set_complete true st in
    call_onScalar (ExtractStr startStr p Yes) st.

Definition ParseQuoted (quote : ascii) (st : St) : Result H :=
  let startStr := S (curr_ st) in
  let '(p, _) :=
    scan (end_ st)
         (fun p _ => negb (Ascii.eqb (deref p) quote))
         (fun _ u => u)
         startStr tt in
  if (p <? end_ st)%nat then
    let s := ExtractStr startStr p No in
    let '(q, _) :=
      scan (end_ st)
           (fun q _ => negb (CharIsIn (deref q) kImportantChar))
           (fun _ u => u)
           (S p) tt in
    let st := set_curr q st in
    let st := set_col (wrap (col_ st + Z.of_nat (q - startStr) + kQuoteChars)) st in
    OutputScalar s st
  else
    let st := set_curr p st in
    let endStr := Nat.min p (startStr + kMaxScalarStringPrefixForErrorMsg) in
    let s := ExtractStr (pred startStr) endStr No in
    Error ("Unterminated quoted scalar <" ++ s ++ "...>") st.

Definition ParseNode (st : St) : Result H :=
  let c := deref (curr_ st) in
  if Ascii.eqb c SQUOTE then ParseQuoted SQUOTE st
  else if Ascii.eqb c DQUOTE then ParseQuoted DQUOTE st
  else ParsePlain st.

(** The characters of the [switch] that this implementation refuses. *)
Definition kUnsupported : list ascii :=
  ["|"; ">"; "?"; "&"; "*"; "!"; "@"; "`"]%char.

(** The [switch( *curr_ )] of [Parse]: [Ret true] stands for [break],
    [Ret false] for [return false]. *)
Definition dispatch (st : St) : Result H :=
  let c := deref (curr_ st) in
  if Ascii.eqb c "-" then
    let n := PeekNext st in
    if Ascii.eqb n " " then
      Ret true (SkipSpaces (call StartMapping onStartMapping st))
    else if Ascii.eqb n "-" then
      Ret true (snd (SkipStartDocument st))
    else ParseNode st
  else if Ascii.eqb c ":" || Ascii.eqb c "," then
    Ret true (SkipSpaces st)
  else if Ascii.eqb c "[" then
    Ret true (SkipSpaces (call StartSequence onStartSequence (set_complete true st)))
  else if Ascii.eqb c "]" then
    Ret true (SkipSpaces (call EndSequence onEndSequence (HandleMissingNull st)))
  else if Ascii.eqb c "{" then
    Ret true (SkipSpaces (call StartMapping onStartMapping (set_complete true st)))
  else if Ascii.eqb c "}" then
    Ret true (SkipSpaces (call EndMapping onEndMapping (HandleMissingNull st)))
  else if Ascii.eqb c "#" || Ascii.eqb c "%" then
    Ret true (SkipLine st)
  else if Ascii.eqb c LF then
    Ret true (set_col 0 (set_line (wrap (line_ st + 1)) st))
  else if Ascii.eqb c CR || Ascii.eqb c " " then
    Ret true st
  else if Ascii.eqb c NUL then
    Ret true (set_end (curr_ st) st)
  else if Ascii.eqb c TAB then
    Error "Avoid tabs in YAML files" st
  else if CharIsIn c kUnsupported then
    Error (String c " directive not supported") st
  else ParseNode st.

(** [while( indent.level < yamlStack_.top().level ) if( !Pop() ) return false;] *)
Fixpoint Pop_while (fuel : nat) (indent : Indent) (st : St) : Result H :=
  match fuel with
  | O => Fuel
  | S fuel' =>
      match top (yamlStack_ st) with
      | None => Abort st
      | Some t =>
          if level indent <? level t then
            match Pop st with
            | Ret true st' => Pop_while fuel' indent st'
            | r => r
            end
          else Ret true st
      end
  end.

(** The [if( col_ == 1 )] block of [Parse]. *)
Definition indentation (st : St) : Result H :=
  if col_ st =? 1 then
    let '(st, indent) := GetIndent st in
    if level indent =? kNoLevel then Ret true st
    else
      match top (yamlStack_ st) with
      | None => Abort st
      | Some t =>
          if level t <? level indent then Push indent st
          else Pop_while (S (length (yamlStack_ st))) indent st
      end
  else Ret true st.

(** The body of the [for] loop of [Parse]. *)
Definition body (st : St) : Result H :=
  match indentation st with
  | Ret true st' => dispatch st'
  | r => r
  end.

(** [for( ; curr_ < end_; ++curr_, ++col_ )] *)
Fixpoint Parse_loop (fuel : nat) (st : St) : Result H :=
  match fuel with
  | O => Fuel
  | S fuel' =>
      if (curr_ st <? end_ st)%nat then
        match body st with
        | Ret true st' =>
            Parse_loop fuel' (set_col (wrap (col_ st' + 1))
                                      (set_curr (S (curr_ st')) st'))
        | r => r
        end
      else Ret true st
  end.

(** [while( yamlStack_.size() > 1 ) Pop();] *)
Fixpoint unwind (fuel : nat) (st : St) : Result H :=
  match fuel with
  | O => Fuel
  | S fuel' =>
      if (1 <? length (yamlStack_ st))%nat then
        match Pop st with
        | Ret _ st' => unwind fuel' st'
        | r => r
        end
      else Ret true st
  end.

Definition Parse (st : St) : Result H :=
  let st := call StartDocument onStartDocument st in
  match Parse_loop (S (end_ st - curr_ st)) st with
  | Ret true st =>
      match unwind (S (length (yamlStack_ st))) st with
      | Ret _ st => Ret true (call EndDocument onEndDocument st)
      | r => r
      end
  | r => r
  end.

(** Construct a parser on the text and parse it. *)
Definition run (h : H) : Result H := Parse (YamlParser h).

End WithText.

(** What the caller of [Parse] observes. *)
Definition returned {H : Type} (r : Result H) : option bool :=
  match r with Ret b _ => Some b | _ => None end.

Definition trace {H : Type} (r : Result H) : list Event :=
  match r with Ret _ st => events st | Abort st => events st | Fuel => [] end.

End Parser.

Import Parser.

(** * Predicates of the specification *)

(** The events other than the two that bracket a document. *)
Definition inner (e : Event) : bool :=
  match e with
  | StartDocument | EndDocument => false
  | _ => true
  end.

Definition isStartDocument (e : Event) : bool :=
  match e with StartDocument => true | _ => false end.

Definition isEndDocument (e : Event) : bool :=
  match e with EndDocument => true | _ => false end.

Definition isErrorAt (e : Event) : bool :=
  match e with ErrorAt _ _ _ => true | _ => false end.

(** How many events of a log satisfy [p]. *)
Definition count (p : Event -> bool) (l : list Event) : nat :=
  length (List.filter p l).

(** The levels grow strictly from the bottom of the stack to its top (the
    head of the list). *)
Fixpoint increasing (s : list Indent) : Prop :=
  match s with
  | [] => True
  | t :: below =>
      match below with
      | [] => True
      | u :: _ => level u < level t
      end /\ increasing below
  end.

(** The sentinel frame [Indent{}] is at the bottom and the levels grow. *)
Definition stack_ok (s : list Indent) : Prop :=
  last s = Some (mkIndent 0 false) /\ increasing s.

Definition state_of {H : Type} (r : Result H) : option (State H) :=
  match r with
  | Ret _ st => Some st
  | Abort st => Some st
  | Fuel => None
  end.

(** The bytes that call for quotes, in the words of the specification:
    below 0x20, above 0x7A, or one of the special punctuation set. *)
Definition special_punctuation : list ascii :=
  [ "!"; DQUOTE; "#"; "$"; "%"; "&"; SQUOTE; "*"; ","; "-"; "/"; ":";
    "<"; "="; ">"; "?"; "@"; "["; "\"; "]"; "`" ]%char.

Definition special_byte (ch : ascii) : bool :=
  (nat_of_ascii ch <? 32)%nat
  || (122 <? nat_of_ascii ch)%nat
  || CharIsIn ch special_punctuation.

(** A scalar wrapped in matching quote characters, of length above 2. *)
Definition wrapped_in_quotes (l : list ascii) : Prop :=
  exists q body,
    (q = SQUOTE \/ q = DQUOTE) /\ body <> [] /\ l = q :: body ++ [q].

(** [S] wrapped on both ends in [q]. *)
Definition wrap_in (q : ascii) (S : string) : string :=
  String q (S ++ String q EmptyString).

(** The position of the first byte of [l] that satisfies [p], counted from
    [i]. *)
Fixpoint first_position (p : ascii -> bool) (l : list ascii) (i : Z) : option Z :=
  match l with
  | [] => None
  | ch :: rest => if p ch then Some i else first_position p rest (i + 1)
  end.

(** The last call made was the error callback. *)
Definition errored (l : list Event) : Prop :=
  exists evs msg line col, l = evs ++ [ErrorAt msg line col].

(** An iteration, or a whole loop, on the way to a tab at [t]: it either
    goes on with the cursor still before or on [t], or returns [false]
    after an error, or stops on an assertion. *)
Definition towards {H : Type} (t : nat) (bound : nat -> nat) (st : State H)
    (r : Result H) : Prop :=
  match r with
  | Ret true st' =>
      (curr_ st <= curr_ st')%nat /\ (bound (curr_ st') <= t)%nat
      /\ end_ st' = end_ st
  | Ret false st' => errored (events st')
  | Abort _ => True
  | Fuel => False
  end.

(** The texts of [ts] with [sep] between them. *)
Fixpoint join (sep : string) (ts : list string) : string :=
  match ts with
  | [] => EmptyString
  | [t] => t
  | t :: rest => (t ++ sep ++ join sep rest)%string
  end.

(** The texts of all the elements, when each of them has one. *)
Fixpoint render_all {A : Type} (item : A -> option string) (c : list A)
    : option (list string) :=
  match c with
  | [] => Some []
  | s :: rest =>
      match item s, render_all item rest with
      | Some t, Some ts => Some (t :: ts)
      | _, _ => None
      end
  end.

(** The position [first_position] gives, or [kInvalidPos]. *)
Definition position_or_invalid (p : ascii -> bool) (l : list ascii) : Z :=
  match first_position p l 0 with
  | Some r => r
  | None => kInvalidPos
  end.

(** What the scanner keeps of a key that waits for its value: the flag and
    the log. *)
Definition view {H : Type} (st : State H) : bool * list Event :=
  (completeKeyValuePair_ st, events st).

(** The ways the scanner changes the flag and the log, the error callback
    apart: the null of a missing value, a key, a value, the start of a
    collection, the start of a ["- "] entry (which leaves the flag alone)
    and the end of a collection. *)
Inductive act : bool * list Event -> bool * list Event -> Prop :=
| act_null l : act (false, l) (true, l ++ [Scalar "null"])
| act_key l s : act (true, l) (false, l ++ [Key s])
| act_scalar c l s : act (c, l) (true, l ++ [Scalar s])
| act_open c l e :
    e = StartSequence \/ e = StartMapping -> act (c, l) (true, l ++ [e])
| act_entry c l : act (c, l) (c, l ++ [StartMapping])
| act_close l e :
    e = EndSequence \/ e = EndMapping -> act (true, l) (true, l ++ [e]).

(** What a member function does in these terms: it returns [true] after
    some of these, returns [false] after some of these and at most one call
    of the error callback, its last, or stops on an assertion. *)
Definition acts_of {H : Type} (st : State H) (r : Result H) : Prop :=
  match r with
  | Ret true st' => rtc act (view st) (view st')
  | Ret false st' =>
      rtc act (view st) (view st')
      \/ exists l msg line col,
           rtc act (view st) (completeKeyValuePair_ st', l)
           /\ events st' = l ++ [ErrorAt msg line col]
  | Abort st' => exists c, rtc act (view st) (c, events st')
  | Fuel => True
  end.

(** The events that must not come right after a key: another key, or the
    end of a collection. *)
Definition leaves_key_open (e : Event) : bool :=
  match e with
  | Key _ | EndSequence | EndMapping => true
  | _ => false
  end.

Definition isKey (e : Event) : bool :=
  match e with Key _ => true | _ => false end.

(** No key of the log is directly followed by an event that leaves it
    without a value. *)
Fixpoint keys_answered (l : list Event) : bool :=
  match l with
  | [] => true
  | e :: rest =>
      match rest with
      | e' :: _ => negb (isKey e && leaves_key_open e')
      | [] => true
      end && keys_answered rest
  end.

(** The texts the statements below are about. *)
Definition nl : string := String LF EmptyString.

Definition text_nested : string := "a:" ++ nl ++ "  b: 1" ++ nl ++ "  c: 2" ++ nl.

Definition text_key_only : string := "key:" ++ nl.

Definition text_comment_tab : string := "# a" ++ String TAB "b" ++ nl.

Definition text_tab_value : string := "a: 1" ++ nl ++ "b:" ++ String TAB "2" ++ nl.

(** The byte at [k] may come before the first tab of a text that
    [Parse] is sure to refuse: it starts no comment, directive or quoted
    scalar, is no NUL and no tab, and is not the first of two dashes. *)
Definition plain_at (l : list ascii) (k : nat) : bool :=
  let c := nth k l NUL in
  negb (CharIsIn c ["#"%char; "%"%char; SQUOTE; DQUOTE; NUL; TAB])
  && negb (Ascii.eqb c DASH && Ascii.eqb (nth (S k) l NUL) DASH).

(** [t] is the position of a tab of [yaml], and every byte before it is
    [plain_at]. *)
Definition first_tab_at (yaml : string) (t : nat) : Prop :=
  (t < length (chars yaml))%nat
  /\ nth t (chars yaml) NUL = TAB
  /\ forallb (plain_at (chars yaml)) (seq 0 t) = true.

(** A handler whose [onKey] and [onScalar] always answer [true]. *)
Definition never_stops {H : Type} (handler : YamlHandler H) : Prop :=
  forall s h, fst (onKey s h) = true /\ fst (onScalar s h) = true.

(** The state of the scanner without the state of its handler. *)
Definition erase {H : Type} (st : State H) : State unit :=
  mkState (curr_ st) (end_ st) (line_ st) (col_ st) tt (yamlStack_ st)
          (completeKeyValuePair_ st) (events st).

Definition erase_result {H : Type} (r : Result H) : Result unit :=
  match r with
  | Ret b st => Ret b (erase st)
  | Abort st => Abort (erase st)
  | Fuel => Fuel
  end.

Section Predicates.

Context {H : Type} {handler : YamlHandler H}.
Variable yaml : string.
Variable past : ascii.

#[local] Abbreviation St := (State H).

(** [st'] has the log of [st] followed by inner events. *)
Definition extends (st st' : St) : Prop :=
  exists evs, events st' = events st ++ evs /\ forallb inner evs = true.

(** The same, and the stack was left alone. *)
Definition quiet (st st' : St) : Prop :=
  yamlStack_ st' = yamlStack_ st /\ extends st st'.

Definition lift (R : St -> St -> Prop) (st : St) (r : Result H) : Prop :=
  match r with
  | Ret _ st' => R st st'
  | Abort st' => R st st'
  | Fuel => True
  end.

(** [++curr_, ++col_] of the loop of [Parse]. *)
Definition advance (st : St) : St :=
  set_col (wrap (col_ st + 1)) (set_curr (S (curr_ st)) st).

(** The actions of [Parse] that a state can go through: each push happens
    under the guard of its only call, a pop may happen anywhere. *)
Inductive step : St -> St -> Prop :=
| step_StartDocument st :
    step st (call StartDocument onStartDocument st)
| step_GetIndent st :
    step st (fst (GetIndent yaml past st))
| step_Push st indent t st' :
    top (yamlStack_ st) = Some t ->
    level t < level indent ->
    state_of (Push indent st) = Some st' ->
    step st st'
| step_Pop st st' :
    state_of (Pop st) = Some st' ->
    step st st'
| step_dispatch st st' :
    state_of (dispatch yaml past st) = Some st' ->
    step st st'
| step_advance st :
    step st (advance st)
| step_EndDocument st :
    step st (call EndDocument onEndDocument st).

(** The states a parse of [yaml] with a handler in state [h] goes
    through. *)
Definition reachable (h : H) (st : St) : Prop :=
  rtc step (YamlParser yaml h) st.

End Predicates.

(** The loop of [Parse] as a relation: from [st] the loop ends with [r]. *)
Inductive loops {H : Type} {handler : YamlHandler H} (yaml : string) (past : ascii)
    : State H -> Result H -> Prop :=
| loops_done st :
    (end_ st <= curr_ st)%nat -> loops yaml past st (Ret true st)
| loops_next st st' r :
    (curr_ st < end_ st)%nat ->
    body yaml past st = Ret true st' ->
    loops yaml past (advance st') r ->
    loops yaml past st r
| loops_stop st r :
    (curr_ st < end_ st)%nat ->
    body yaml past st = r ->
    (forall st', r <> Ret true st') ->
    loops yaml past st r.

(** The scanner with an empty stack of frames above the sentinel: where its
    cursor and its end are, the flag and the log. *)
Definition is_at (st : State unit) (p e : nat) (c : bool) (evs : list Event) : Prop :=
  curr_ st = p /\ end_ st = e /\ yamlStack_ st = [mkIndent 0 false]
  /\ completeKeyValuePair_ st = c /\ events st = evs.

(** The text holds the bytes [l] from position [k] on. *)
Definition reads (yaml : string) (k : nat) (l : list ascii) : Prop :=
  forall j x, l !! j = Some x -> chars yaml !! (k + j)%nat = Some x.

(** A scalar that [CreateSafeScalar] leaves without quotes and that a scan
    gives back as it is: it is not empty, has no special byte, and neither
    starts nor ends with a space. *)
Definition plain_scalar (l : list ascii) : Prop :=
  l <> [] /\ (forall x, In x l -> special_byte x = false)
  /\ head l <> Some SPACE /\ last l <> Some SPACE.

(** [Y] is a text for the scalar [S] that a scan gives back as [S]: [S]
    itself when it is a plain scalar, or [S] between two quotes of a kind it
    does not hold. *)
Definition encodes (S Y : string) : Prop :=
  (plain_scalar (chars S) /\ Y = S)
  \/ exists q, (q = SQUOTE \/ q = DQUOTE) /\ ~ In q (chars S) /\ Y = wrap_in q S.

(** The scalars that go through [CreateSafeScalar] and a scan unchanged:
    not empty, not wrapped in quotes already, without both kinds of quote,
    and without a space at either end when no byte calls for quotes. *)
Definition encodable (S : string) : Prop :=
  Z.of_nat (length (chars S)) < 2 ^ 64
  /\ chars S <> []
  /\ ~ wrapped_in_quotes (chars S)
  /\ ~ (In SQUOTE (chars S) /\ In DQUOTE (chars S))
  /\ ((forall x, In x (chars S) -> special_byte x = false) ->
      head (chars S) <> Some SPACE /\ last (chars S) <> Some SPACE).

(** One iteration of the loop of [Parse] that goes on. *)
Definition iteration (yaml : string) (past : ascii) (st st'' : State unit) : Prop :=
  (curr_ st < end_ st)%nat
  /\ exists st', body yaml past st = Ret true st' /\ st'' = advance st'.

(** A stack in order that [YamlStack] has room for. *)
Definition fits (s : list Indent) : Prop :=
  stack_ok s /\ (length s <= kMaxStackSize - 1)%nat.

(** What a call leaves behind: a stack in order, or, when an assertion
    stopped the call, a stack that is full. *)
Definition guarded {H : Type} (r : Result H) : Prop :=
  match r with
  | Ret _ st => fits (yamlStack_ st)
  | Abort st => length (yamlStack_ st) = (kMaxStackSize - 1)%nat
  | Fuel => True
  end.

(** * Facts about the scanner *)

Section ScanLoops.

#[local] Open Scope nat_scope.

Context {A : Type}.
Variable e : nat.
Variable cond : nat -> A -> bool.
Variable next : nat -> A -> A.

(** A loop never moves the pointer back, and never beyond [e] if it started
    before [e]. *)
Lemma for_ptr_range fuel p a :
  p <= fst (for_ptr e cond next fuel p a)
  /\ fst (for_ptr e cond next fuel p a) <= Nat.max p e.
Proof.
  revert p a. induction fuel as [|fuel IH]; intros p a; simpl; [lia|].
  destruct (p <? e) eqn:Hlt; simpl; [|lia].
  destruct (cond p a); simpl; [|lia].
  apply Nat.ltb_lt in Hlt. specialize (IH (S p) (next p a)). lia.
Qed.

(** With [e - p] iterations allowed the loop stops because its condition
    fails, never for lack of fuel. *)
Lemma for_ptr_stops fuel p a :
  e - p <= fuel ->
  let r := for_ptr e cond next fuel p a in
  fst r < e -> cond (fst r) (snd r) = false.
Proof.
  revert p a. induction fuel as [|fuel IH]; intros p a Hfuel; simpl.
  - intros Hlt. lia.
  - destruct (p <? e) eqn:Hlt; simpl.
    + destruct (cond p a) eqn:Hc; simpl; [|auto].
      apply Nat.ltb_lt in Hlt. apply IH. lia.
    + apply Nat.ltb_ge in Hlt. intros Hlt'. lia.
Qed.

End ScanLoops.

Section ScanPure.

#[local] Open Scope nat_scope.

Context {A : Type}.
Variable e : nat.
Variable c : nat -> bool.
Variable next : nat -> A -> A.

(** For a condition that only looks at the text, every position the loop
    went over satisfies it. *)
Lemma for_ptr_passed fuel p a k :
  p <= k < fst (for_ptr e (fun q _ => c q) next fuel p a) ->
  c k = true /\ k < e.
Proof.
  revert p a. induction fuel as [|fuel IH]; intros p a; simpl; [lia|].
  destruct (p <? e) eqn:Hlt; simpl; [|lia].
  destruct (c p) eqn:Hc; simpl; [|lia].
  apply Nat.ltb_lt in Hlt. intros Hk.
  destruct (Nat.eq_dec k p) as [->|Hne]; [auto|].
  apply (IH (S p) (next p a)). lia.
Qed.

Lemma scan_ge p a : p <= fst (scan e (fun q _ => c q) next p a).
Proof. apply for_ptr_range. Qed.

Lemma scan_le p a : p <= e -> fst (scan e (fun q _ => c q) next p a) <= e.
Proof.
  intros Hp. pose proof (for_ptr_range e (fun q _ => c q) next (e - p) p a) as [_ Hr].
  unfold scan. lia.
Qed.

Lemma scan_stops p a :
  fst (scan e (fun q _ => c q) next p a) < e ->
  c (fst (scan e (fun q _ => c q) next p a)) = false.
Proof.
  intros Hlt. unfold scan in *.
  apply (for_ptr_stops e (fun q _ => c q) next (e - p) p a); [lia|exact Hlt].
Qed.

Lemma scan_passed p a k :
  p <= k < fst (scan e (fun q _ => c q) next p a) -> c k = true /\ k < e.
Proof. apply for_ptr_passed. Qed.

(** The loop does not go past a position where the condition fails. *)
Lemma scan_upto p a t :
  p <= t -> c t = false -> fst (scan e (fun q _ => c q) next p a) <= t.
Proof.
  intros Hp Hc.
  destruct (le_lt_dec (fst (scan e (fun q _ => c q) next p a)) t) as [|Hgt]; [assumption|].
  destruct (scan_passed p a t) as [Ht _]; [lia|congruence].
Qed.

(** It makes at least one step when the condition holds at the start. *)
Lemma scan_first p a :
  p < e -> c p = true -> S p <= fst (scan e (fun q _ => c q) next p a).
Proof.
  intros Hp Hc. unfold scan. destruct (e - p) as [|n] eqn:Hn; [lia|].
  simpl. apply Nat.ltb_lt in Hp. rewrite Hp, Hc. simpl.
  apply for_ptr_range.
Qed.

End ScanPure.

(** ** What every member function does to the log and to the stack *)

Section Frames.

#[local] Open Scope nat_scope.

Context {H : Type} {handler : YamlHandler H}.
Variable yaml : string.
Variable past : ascii.

#[local] Abbreviation St := (State H).

Implicit Types st : State H.

Lemma extends_refl st : extends st st.
Proof. exists []. split; [symmetry; apply app_nil_r|reflexivity]. Qed.

Lemma extends_trans st1 st2 st3 :
  extends st1 st2 -> extends st2 st3 -> extends st1 st3.
Proof.
  intros [e1 [E1 F1]] [e2 [E2 F2]]. exists (e1 ++ e2). split.
  - rewrite E2, E1. symmetry. apply app_assoc.
  - rewrite forallb_app, F1, F2. reflexivity.
Qed.

Lemma quiet_refl st : quiet st st.
Proof. split; [reflexivity|apply extends_refl]. Qed.

Lemma quiet_trans st1 st2 st3 : quiet st1 st2 -> quiet st2 st3 -> quiet st1 st3.
Proof.
  intros [S1 E1] [S2 E2]. split; [congruence|eapply extends_trans; eassumption].
Qed.

Lemma quiet_extends st st' : quiet st st' -> extends st st'.
Proof. intros [_ E]. exact E. Qed.

Lemma quiet_same st st' :
  yamlStack_ st' = yamlStack_ st -> events st' = events st -> quiet st st'.
Proof.
  intros S E. split; [exact S|]. exists []. rewrite E. split; [symmetry; apply app_nil_r|reflexivity].
Qed.

Lemma quiet_call e f st : inner e = true -> quiet st (call e f st).
Proof.
  intros I. split; [reflexivity|]. exists [e]. split; [reflexivity|].
  simpl. rewrite I. reflexivity.
Qed.

Lemma quiet_ask e f st : inner e = true -> quiet st (snd (ask e f st)).
Proof.
  intros I. unfold ask. destruct (f (yamlHandler_ st)) as [b h]. simpl.
  split; [reflexivity|]. exists [e]. split; [reflexivity|].
  simpl. rewrite I. reflexivity.
Qed.

Lemma lift_quiet_extends st r : lift quiet st r -> lift extends st r.
Proof. destruct r; simpl; auto using quiet_extends. Qed.

Lemma lift_trans (R : St -> St -> Prop) st1 st2 r :
  (forall a b c, R a b -> R b c -> R a c) ->
  R st1 st2 -> lift R st2 r -> lift R st1 r.
Proof. intros T R12. destruct r; simpl; eauto. Qed.

Lemma quiet_call_onKey s st : lift quiet st (call_onKey s st).
Proof.
  unfold call_onKey. pose proof (quiet_ask (Key s) (onKey s) st eq_refl) as Q.
  destruct (ask (Key s) (onKey s) st). exact Q.
Qed.

Lemma quiet_call_onScalar s st : lift quiet st (call_onScalar s st).
Proof.
  unfold call_onScalar. pose proof (quiet_ask (Scalar s) (onScalar s) st eq_refl) as Q.
  destruct (ask (Scalar s) (onScalar s) st). exact Q.
Qed.

Lemma quiet_Error msg st : lift quiet st (Error msg st).
Proof. apply quiet_call. reflexivity. Qed.

Lemma quiet_HandleMissingNull st : quiet st (HandleMissingNull st).
Proof.
  unfold HandleMissingNull. destruct (completeKeyValuePair_ st); [apply quiet_refl|].
  eapply quiet_trans; [apply (quiet_ask (Scalar "null") (onScalar "null") st eq_refl)|].
  apply quiet_same; reflexivity.
Qed.

Lemma quiet_GetIndent st : quiet st (fst (GetIndent yaml past st)).
Proof.
  unfold GetIndent. destruct (scan _ _ _ _ _) as [p ind]. apply quiet_same; reflexivity.
Qed.

Lemma quiet_SkipStartDocument st : quiet st (snd (SkipStartDocument yaml past st)).
Proof.
  unfold SkipStartDocument. destruct (scan _ _ _ _ _) as [p n]. apply quiet_same; reflexivity.
Qed.

Lemma quiet_SkipSpaces st : quiet st (SkipSpaces yaml past st).
Proof.
  unfold SkipSpaces. destruct (scan _ _ _ _ _) as [p n]. apply quiet_same; reflexivity.
Qed.

Lemma quiet_SkipLine st : quiet st (SkipLine yaml past st).
Proof.
  unfold SkipLine. destruct (scan _ _ _ _ _) as [p n].
  destruct (p <? end_ st); apply quiet_same; reflexivity.
Qed.

Lemma quiet_OutputScalar s st : lift quiet st (OutputScalar yaml past s st).
Proof.
  unfold OutputScalar. destruct (Ascii.eqb _ _).
  - eapply lift_trans; [apply quiet_trans| |apply quiet_call_onKey].
    eapply quiet_trans; [|apply quiet_same; reflexivity].
    eapply quiet_trans; [|apply quiet_HandleMissingNull].
    apply quiet_same; reflexivity.
  - eapply lift_trans; [apply quiet_trans| |apply quiet_call_onScalar].
    apply quiet_same; reflexivity.
Qed.

Lemma quiet_ParsePlain st : lift quiet st (ParsePlain yaml past st).
Proof.
  unfold ParsePlain. destruct (scan _ _ _ _ _) as [p u].
  destruct (p <? end_ st).
  - eapply lift_trans; [apply quiet_trans| |apply quiet_OutputScalar].
    apply quiet_same; reflexivity.
  - eapply lift_trans; [apply quiet_trans| |apply quiet_call_onScalar].
    apply quiet_same; reflexivity.
Qed.

Lemma quiet_ParseQuoted quote st : lift quiet st (ParseQuoted yaml past quote st).
Proof.
  unfold ParseQuoted. destruct (scan _ _ _ _ _) as [p u].
  destruct (p <? end_ st).
  - destruct (scan _ _ _ _ _) as [q u'].
    eapply lift_trans; [apply quiet_trans| |apply quiet_OutputScalar].
    apply quiet_same; reflexivity.
  - eapply lift_trans; [apply quiet_trans| |apply quiet_Error].
    apply quiet_same; reflexivity.
Qed.

Lemma quiet_ParseNode st : lift quiet st (ParseNode yaml past st).
Proof.
  unfold ParseNode.
  destruct (Ascii.eqb _ _); [apply quiet_ParseQuoted|].
  destruct (Ascii.eqb _ _); [apply quiet_ParseQuoted|apply quiet_ParsePlain].
Qed.

Lemma quiet_dispatch st : lift quiet st (dispatch yaml past st).
Proof.
  unfold dispatch.
  repeat match goal with
  | |- context [if ?b then _ else _] => destruct b
  end; simpl;
  try apply quiet_ParseNode; try apply quiet_Error;
  try apply quiet_SkipStartDocument; try apply quiet_SkipLine;
  try (apply quiet_same; reflexivity);
  try (eapply quiet_trans; [|apply quiet_SkipSpaces]);
  try apply quiet_SkipSpaces;
  try (apply quiet_call; reflexivity);
  try (eapply quiet_trans; [|apply quiet_call; reflexivity]);
  try apply quiet_HandleMissingNull;
  try (apply quiet_same; reflexivity).
Qed.

Lemma extends_Push indent st : lift extends st (Push indent st).
Proof.
  unfold Push. destruct (push _ _) as [s|]; simpl.
  - destruct (isSequence indent);
      [exists [StartSequence]|exists [StartMapping]]; split; reflexivity.
  - exists []. split; [symmetry; apply app_nil_r|reflexivity].
Qed.

Lemma extends_Pop st : lift extends st (Pop st).
Proof.
  unfold Pop. destruct (length (yamlStack_ st) =? 1).
  - apply lift_quiet_extends, quiet_Error.
  - pose proof (quiet_extends _ _ (quiet_HandleMissingNull st)) as E.
    destruct (yamlStack_ (HandleMissingNull st)) as [|t s]; simpl; [exact E|].
    eapply extends_trans; [exact E|].
    destruct (isSequence t);
      [exists [EndSequence]|exists [EndMapping]]; split; reflexivity.
Qed.

Lemma extends_Pop_while fuel indent st : lift extends st (Pop_while fuel indent st).
Proof.
  revert st. induction fuel as [|fuel IH]; intros st; simpl; [exact I|].
  destruct (top _) as [t|]; [|apply extends_refl].
  destruct (level indent <? level t)%Z; [|apply extends_refl].
  pose proof (extends_Pop st) as E.
  destruct (Pop st) as [[|] st'| |]; simpl in *; try exact E.
  eapply lift_trans; [apply extends_trans|exact E|apply IH].
Qed.

Lemma extends_indentation st : lift extends st (indentation yaml past st).
Proof.
  unfold indentation. destruct (col_ st =? 1)%Z; [|apply extends_refl].
  pose proof (quiet_extends _ _ (quiet_GetIndent st)) as E.
  destruct (GetIndent yaml past st) as [st1 indent]. simpl in E.
  destruct (level indent =? kNoLevel)%Z; [exact E|].
  destruct (top _) as [t|]; [|exact E].
  destruct (level t <? level indent)%Z.
  - eapply lift_trans; [apply extends_trans|exact E|apply extends_Push].
  - eapply lift_trans; [apply extends_trans|exact E|apply extends_Pop_while].
Qed.

Lemma extends_body st : lift extends st (body yaml past st).
Proof.
  unfold body. pose proof (extends_indentation st) as E.
  destruct (indentation yaml past st) as [[|] st'| |]; simpl in *; try exact E.
  eapply lift_trans; [apply extends_trans|exact E|].
  apply lift_quiet_extends, quiet_dispatch.
Qed.

Lemma extends_Parse_loop fuel st : lift extends st (Parse_loop yaml past fuel st).
Proof.
  revert st. induction fuel as [|fuel IH]; intros st; simpl; [exact I|].
  destruct (curr_ st <? end_ st); [|apply extends_refl].
  pose proof (extends_body st) as E.
  destruct (body yaml past st) as [[|] st'| |]; simpl in *; try exact E.
  eapply lift_trans; [apply extends_trans|exact E|].
  eapply lift_trans; [apply extends_trans| |apply IH].
  exists []. split; [symmetry; apply app_nil_r|reflexivity].
Qed.

Lemma extends_unwind fuel st : lift extends st (unwind fuel st).
Proof.
  revert st. induction fuel as [|fuel IH]; intros st; simpl; [exact I|].
  destruct (1 <? length (yamlStack_ st)); [|apply extends_refl].
  pose proof (extends_Pop st) as E.
  destruct (Pop st) as [b st'| |]; simpl in *; try exact E.
  eapply lift_trans; [apply extends_trans|exact E|apply IH].
Qed.

(** *** The stack *)

Lemma stack_ok_tail t u s : stack_ok (t :: u :: s) -> stack_ok (u :: s).
Proof. intros [L [_ I]]. split; assumption. Qed.

Lemma stack_ok_push t s indent :
  stack_ok s -> top s = Some t -> (level t < level indent)%Z ->
  stack_ok (indent :: s).
Proof.
  intros [L I] T Hlt. destruct s as [|t' s]; [discriminate|].
  injection T as ->. split; [exact L|]. split; [exact Hlt|exact I].
Qed.

Lemma stack_Push indent t st :
  stack_ok (yamlStack_ st) -> top (yamlStack_ st) = Some t ->
  (level t < level indent)%Z ->
  lift (fun _ st' => stack_ok (yamlStack_ st')) st (Push indent st).
Proof.
  intros Ok T Hlt. unfold Push, push. simpl.
  destruct (length (yamlStack_ st) <? _); simpl; [|exact Ok].
  destruct (isSequence indent); simpl; eapply stack_ok_push; eassumption.
Qed.

Lemma stack_Pop st :
  stack_ok (yamlStack_ st) ->
  lift (fun _ st' => stack_ok (yamlStack_ st')) st (Pop st).
Proof.
  intros Ok. unfold Pop. destruct (length (yamlStack_ st) =? 1) eqn:L1.
  - exact Ok.
  - destruct (quiet_HandleMissingNull st) as [S _].
    rewrite S. destruct (yamlStack_ st) as [|t [|u s]] eqn:Stk; simpl.
    + destruct Ok as [L _]. discriminate L.
    + discriminate.
    + destruct (isSequence t); simpl; eapply stack_ok_tail; exact Ok.

Qed.

(** A pop that returns [true] took one frame off. *)
Lemma Pop_length st st' :
  Pop st = Ret true st' -> S (length (yamlStack_ st')) = length (yamlStack_ st).
Proof.
  unfold Pop. destruct (length (yamlStack_ st) =? 1); [discriminate|].
  destruct (quiet_HandleMissingNull st) as [S _]. rewrite S.
  destruct (yamlStack_ st) as [|t s]; simpl; [discriminate|].
  intros E. injection E as <-. destruct (isSequence t); reflexivity.
Qed.

Lemma Pop_no_Fuel st : Pop st <> Fuel.
Proof.
  unfold Pop. destruct (length (yamlStack_ st) =? 1); [discriminate|].
  destruct (yamlStack_ (HandleMissingNull st)); discriminate.
Qed.

(** In [while( yamlStack_.size() > 1 ) Pop();] the pop always returns
    [true]. *)
Lemma Pop_true st b st' :
  1 < length (yamlStack_ st) -> Pop st = Ret b st' -> b = true.
Proof.
  unfold Pop. intros L. destruct (length (yamlStack_ st) =? 1) eqn:L1.
  - apply Nat.eqb_eq in L1. lia.
  - destruct (yamlStack_ (HandleMissingNull st)); simpl; intros E; try discriminate.
    injection E as <- _. reflexivity.
Qed.

End Frames.

(** ** Where the member functions leave the cursor *)

Section Positions.

#[local] Open Scope nat_scope.

Context {H : Type} {handler : YamlHandler H}.
Variable yaml : string.
Variable past : ascii.

Implicit Types st : State H.

Lemma pos_HandleMissingNull st :
  curr_ (HandleMissingNull st) = curr_ st /\ end_ (HandleMissingNull st) = end_ st.
Proof.
  unfold HandleMissingNull, ask. destruct (completeKeyValuePair_ st); [auto|].
  destruct (onScalar _ _); auto.
Qed.

Lemma pos_call_onKey s st r st' :
  call_onKey s st = r -> state_of r = Some st' ->
  curr_ st' = curr_ st /\ end_ st' = end_ st.
Proof.
  unfold call_onKey, ask. destruct (onKey _ _). intros <- E. injection E as <-. auto.
Qed.

Lemma pos_call_onScalar s st r st' :
  call_onScalar s st = r -> state_of r = Some st' ->
  curr_ st' = curr_ st /\ end_ st' = end_ st.
Proof.
  unfold call_onScalar, ask. destruct (onScalar _ _). intros <- E. injection E as <-. auto.
Qed.

Lemma pos_OutputScalar s st st' :
  state_of (OutputScalar yaml past s st) = Some st' ->
  curr_ st' = pred (curr_ st) /\ end_ st' = end_ st.
Proof.
  unfold OutputScalar. destruct (Ascii.eqb _ _); intros E.
  - eapply pos_call_onKey in E; [|reflexivity]. simpl in E.
    destruct (pos_HandleMissingNull (set_curr (pred (curr_ st)) st)) as [C N].
    simpl in C, N. destruct E as [-> ->]. auto.
  - eapply pos_call_onScalar in E; [|reflexivity]. exact E.
Qed.

(** [SkipSpaces] stops on the last space of the run that follows the
    cursor. *)
Lemma pos_SkipSpaces st :
  curr_ st <= curr_ (SkipSpaces yaml past st)
  /\ end_ (SkipSpaces yaml past st) = end_ st
  /\ (forall k, curr_ st < k <= curr_ (SkipSpaces yaml past st) ->
        deref yaml past k = SPACE /\ k < end_ st)
  /\ (S (curr_ (SkipSpaces yaml past st)) < end_ st ->
        deref yaml past (S (curr_ (SkipSpaces yaml past st))) <> SPACE).
Proof.
  unfold SkipSpaces.
  pose proof (scan_ge (end_ st) (fun p => Ascii.eqb (deref yaml past p) SPACE)
                (fun _ col => wrap (col + 1)) (S (curr_ st)) (col_ st)) as Hge.
  pose proof (scan_stops (end_ st) (fun p => Ascii.eqb (deref yaml past p) SPACE)
                (fun _ col => wrap (col + 1)) (S (curr_ st)) (col_ st)) as Hstop.
  pose proof (scan_passed (end_ st) (fun p => Ascii.eqb (deref yaml past p) SPACE)
                (fun _ col => wrap (col + 1)) (S (curr_ st)) (col_ st)) as Hpass.
  destruct (scan _ _ _ _ _) as [p col]. simpl in *.
  repeat split.
  - lia.
  - apply Ascii.eqb_eq. apply Hpass. lia.
  - apply Hpass. lia.
  - intros Hlt. replace (S (pred p)) with p in * by lia.
    intros Heq. apply Ascii.eqb_eq in Heq. rewrite (Hstop Hlt) in Heq. discriminate.
Qed.

Lemma pos_SkipStartDocument st :
  S (curr_ st) <= curr_ (snd (SkipStartDocument yaml past st))
  /\ end_ (snd (SkipStartDocument yaml past st)) = end_ st.
Proof.
  unfold SkipStartDocument.
  pose proof (for_ptr_range (end_ st)
                (fun p dashCount => Ascii.eqb (deref yaml past p) DASH && (dashCount <? 3)%Z)
                (fun _ dashCount => (dashCount + 1)%Z)
                (end_ st - S (curr_ st)) (S (curr_ st)) 1%Z) as [Hge _].
  unfold scan. destruct (for_ptr _ _ _ _ _ _) as [p n]. simpl in *. auto.
Qed.

Lemma pos_SkipLine st :
  CharIsIn (deref yaml past (curr_ st)) kEndLine = false ->
  curr_ st <= curr_ (SkipLine yaml past st)
  /\ end_ (SkipLine yaml past st) = end_ st.
Proof.
  intros Hc. unfold SkipLine.
  pose proof (scan_ge (end_ st) (fun p => negb (CharIsIn (deref yaml past p) kEndLine))
                (fun _ (u : unit) => u) (curr_ st) tt) as Hge.
  pose proof (scan_first (end_ st) (fun p => negb (CharIsIn (deref yaml past p) kEndLine))
                (fun _ (u : unit) => u) (curr_ st) tt) as Hfirst.
  destruct (scan _ _ _ _ _) as [p u]. simpl in *.
  destruct (p <? end_ st) eqn:Hlt; simpl; [|auto].
  apply Nat.ltb_lt in Hlt. split; [|reflexivity].
  assert (S (curr_ st) <= p); [|lia].
  apply Hfirst; [lia|]. rewrite Hc. reflexivity.
Qed.

Lemma pos_GetIndent st :
  curr_ st <= curr_ (fst (GetIndent yaml past st))
  /\ end_ (fst (GetIndent yaml past st)) = end_ st
  /\ col_ (fst (GetIndent yaml past st)) = col_ st
  /\ (curr_ st <= end_ st -> curr_ (fst (GetIndent yaml past st)) <= end_ st)
  /\ (forall t, curr_ st <= t -> CharIsIn (deref yaml past t) kIndentChars = false ->
        curr_ (fst (GetIndent yaml past st)) <= t).
Proof.
  unfold GetIndent.
  pose proof (scan_ge (end_ st) (fun p => CharIsIn (deref yaml past p) kIndentChars)
     (fun p ind => mkIndent (wrap (level ind + 1))
                     (if Ascii.eqb (deref yaml past p) DASH then true else isSequence ind))
     (curr_ st) (mkIndent 0 false)) as Hge.
  pose proof (scan_le (end_ st) (fun p => CharIsIn (deref yaml past p) kIndentChars)
     (fun p ind => mkIndent (wrap (level ind + 1))
                     (if Ascii.eqb (deref yaml past p) DASH then true else isSequence ind))
     (curr_ st) (mkIndent 0 false)) as Hle.
  pose proof (scan_upto (end_ st) (fun p => CharIsIn (deref yaml past p) kIndentChars)
     (fun p ind => mkIndent (wrap (level ind + 1))
                     (if Ascii.eqb (deref yaml past p) DASH then true else isSequence ind))
     (curr_ st) (mkIndent 0 false)) as Hupto.
  destruct (scan _ _ _ _ _) as [p ind]. simpl in *. auto.
Qed.

(** [ParsePlain] started on a byte that is no end of scalar. *)
Lemma pos_ParsePlain st st' :
  CharIsIn (deref yaml past (curr_ st)) kEndScalar = false ->
  state_of (ParsePlain yaml past st) = Some st' ->
  curr_ st <= curr_ st' /\ end_ st' = end_ st.
Proof.
  intros Hc. unfold ParsePlain.
  pose proof (scan_ge (end_ st)
     (fun p => negb (CharIsIn (deref yaml past p) kEndScalar)
               || IsNormalChar_at yaml past (end_ st) p)
     (fun _ (u : unit) => u) (curr_ st) tt) as Hge.
  pose proof (scan_first (end_ st)
     (fun p => negb (CharIsIn (deref yaml past p) kEndScalar)
               || IsNormalChar_at yaml past (end_ st) p)
     (fun _ (u : unit) => u) (curr_ st) tt) as Hfirst.
  destruct (scan _ _ _ _ _) as [p u]. simpl in *.
  destruct (p <? end_ st) eqn:Hlt; intros E.
  - apply Nat.ltb_lt in Hlt. apply pos_OutputScalar in E. simpl in E.
    destruct E as [-> ->]. split; [|reflexivity].
    assert (S (curr_ st) <= p); [|lia].
    apply Hfirst; [lia|]. rewrite Hc. reflexivity.
  - eapply pos_call_onScalar in E; [|reflexivity]. simpl in E.
    destruct E as [-> ->]. auto.
Qed.

Lemma pos_ParseQuoted quote st st' :
  state_of (ParseQuoted yaml past quote st) = Some st' ->
  curr_ st <= curr_ st' /\ end_ st' = end_ st.
Proof.
  unfold ParseQuoted.
  pose proof (scan_ge (end_ st)
     (fun p => negb (Ascii.eqb (deref yaml past p) quote))
     (fun _ (u : unit) => u) (S (curr_ st)) tt) as Hge.
  destruct (scan _ _ _ _ _) as [p u]. simpl in *.
  destruct (p <? end_ st) eqn:Hlt.
  - pose proof (scan_ge (end_ st)
       (fun q => negb (CharIsIn (deref yaml past q) kImportantChar))
       (fun _ (u : unit) => u) (S p) tt) as Hge'.
    destruct (scan _ _ _ _ _) as [q u']. simpl in *.
    intros E. apply pos_OutputScalar in E. simpl in E.
    destruct E as [-> ->]. split; [lia|reflexivity].
  - unfold Error. simpl. intros E. injection E as <-. simpl. split; [lia|reflexivity].
Qed.

Lemma pos_ParseNode st st' :
  CharIsIn (deref yaml past (curr_ st)) kEndScalar = false ->
  state_of (ParseNode yaml past st) = Some st' ->
  curr_ st <= curr_ st' /\ end_ st' = end_ st.
Proof.
  intros Hc. unfold ParseNode.
  destruct (Ascii.eqb _ _); [apply pos_ParseQuoted|].
  destruct (Ascii.eqb _ _); [apply pos_ParseQuoted|apply pos_ParsePlain; exact Hc].
Qed.

(** The [default] label of the [switch] is reached on no end of scalar. *)
Lemma default_not_EndScalar (c : ascii) :
  Ascii.eqb c ":" || Ascii.eqb c "," = false ->
  Ascii.eqb c "]" = false ->
  Ascii.eqb c "}" = false ->
  Ascii.eqb c "#" || Ascii.eqb c "%" = false ->
  Ascii.eqb c LF = false ->
  Ascii.eqb c CR || Ascii.eqb c " " = false ->
  Ascii.eqb c TAB = false ->
  CharIsIn c kEndScalar = false.
Proof.
  intros H1 H2 H3 H4 H5 H6 H7.
  apply orb_false_elim in H1 as [H1 H1'].
  apply orb_false_elim in H4 as [H4 H4'].
  apply orb_false_elim in H6 as [H6 H6'].
  unfold CharIsIn, kEndScalar. cbn [existsb].
  rewrite H1, H1', H2, H3, H4, H5, H6, H7. reflexivity.
Qed.

Lemma pos_dispatch st st' :
  state_of (dispatch yaml past st) = Some st' ->
  (curr_ st <= curr_ st' /\ end_ st' = end_ st) \/ end_ st' <= curr_ st'.
Proof.
  unfold dispatch. intros E.
  destruct (Ascii.eqb (deref yaml past (curr_ st)) "-") eqn:Hdash.
  { apply Ascii.eqb_eq in Hdash. left.
    destruct (Ascii.eqb (PeekNext yaml past st) " ").
    - injection E as <-.
      destruct (pos_SkipSpaces (call StartMapping onStartMapping st)) as (Hc & He & _).
      simpl in *. auto.
    - destruct (Ascii.eqb (PeekNext yaml past st) "-").
      + injection E as <-. destruct (pos_SkipStartDocument st). split; [lia|auto].
      + apply pos_ParseNode in E; [exact E|]. rewrite Hdash. reflexivity. }
  destruct (Ascii.eqb (deref yaml past (curr_ st)) ":" || _) eqn:Hsep.
  { injection E as <-. left.
    destruct (pos_SkipSpaces st) as (Hc & He & _). auto. }
  destruct (Ascii.eqb (deref yaml past (curr_ st)) "[") eqn:Hlb.
  { injection E as <-. left.
    destruct (pos_SkipSpaces
                (call StartSequence onStartSequence (set_complete true st))) as (Hc & He & _).
    simpl in *. auto. }
  destruct (Ascii.eqb (deref yaml past (curr_ st)) "]") eqn:Hrb.
  { injection E as <-. left.
    destruct (pos_SkipSpaces
                (call EndSequence onEndSequence (HandleMissingNull st))) as (Hc & He & _).
    destruct (pos_HandleMissingNull st) as [C N]. simpl in *. rewrite He, N. split; [lia|auto]. }
  destruct (Ascii.eqb (deref yaml past (curr_ st)) "{") eqn:Hlc.
  { injection E as <-. left.
    destruct (pos_SkipSpaces
                (call StartMapping onStartMapping (set_complete true st))) as (Hc & He & _).
    simpl in *. auto. }
  destruct (Ascii.eqb (deref yaml past (curr_ st)) "}") eqn:Hrc.
  { injection E as <-. left.
    destruct (pos_SkipSpaces
                (call EndMapping onEndMapping (HandleMissingNull st))) as (Hc & He & _).
    destruct (pos_HandleMissingNull st) as [C N]. simpl in *. rewrite He, N. split; [lia|auto]. }
  destruct (Ascii.eqb (deref yaml past (curr_ st)) "#" || _) eqn:Hcomment.
  { injection E as <-. left. apply pos_SkipLine.
    apply orb_prop in Hcomment as [Hc|Hc]; apply Ascii.eqb_eq in Hc; rewrite Hc; reflexivity. }
  destruct (Ascii.eqb (deref yaml past (curr_ st)) LF) eqn:Hlf.
  { injection E as <-. left. simpl. auto. }
  destruct (Ascii.eqb (deref yaml past (curr_ st)) CR || _) eqn:Hcr.
  { injection E as <-. left. auto. }
  destruct (Ascii.eqb (deref yaml past (curr_ st)) NUL) eqn:Hnul.
  { injection E as <-. right. simpl. auto. }
  destruct (Ascii.eqb (deref yaml past (curr_ st)) TAB) eqn:Htab.
  { injection E as <-. left. simpl. auto. }
  destruct (CharIsIn (deref yaml past (curr_ st)) kUnsupported) eqn:Huns.
  { injection E as <-. left. simpl. auto. }
  left. apply pos_ParseNode in E; [exact E|].
  apply default_not_EndScalar; assumption.
Qed.

(** *** The loops of the model have fuel enough *)

Lemma no_Fuel_OutputScalar s st : OutputScalar yaml past s st <> Fuel.
Proof.
  unfold OutputScalar, call_onKey, call_onScalar, ask.
  destruct (Ascii.eqb _ _); [destruct (onKey _ _)|destruct (onScalar _ _)]; discriminate.
Qed.

Lemma no_Fuel_ParseNode st : ParseNode yaml past st <> Fuel.
Proof.
  unfold ParseNode, ParseQuoted, ParsePlain.
  repeat match goal with
  | |- context [let '(_, _) := ?x in _] => destruct x
  | |- context [if ?b then _ else _] => destruct b
  end; try apply no_Fuel_OutputScalar; try discriminate;
  unfold call_onScalar, ask; destruct (onScalar _ _); discriminate.
Qed.

Lemma no_Fuel_dispatch st : dispatch yaml past st <> Fuel.
Proof.
  unfold dispatch.
  repeat match goal with
  | |- context [if ?b then _ else _] => destruct b
  end; try apply no_Fuel_ParseNode; discriminate.
Qed.

Lemma no_Fuel_Push indent st : Push indent st <> Fuel.
Proof. unfold Push. destruct (push _ _); discriminate. Qed.

Lemma no_Fuel_Pop_while fuel indent st :
  length (yamlStack_ st) < fuel -> Pop_while fuel indent st <> Fuel.
Proof.
  revert st. induction fuel as [|fuel IH]; intros st L; [lia|]. simpl.
  destruct (top _); [|discriminate].
  destruct (_ <? _)%Z; [|discriminate].
  destruct (Pop st) as [[|] st'| |] eqn:P; try discriminate.
  - apply IH. apply Pop_length in P. lia.
  - exfalso. exact (Pop_no_Fuel st P).
Qed.

Lemma no_Fuel_unwind fuel st :
  length (yamlStack_ st) < fuel -> unwind fuel st <> Fuel.
Proof.
  revert st. induction fuel as [|fuel IH]; intros st L; [lia|]. simpl.
  destruct (1 <? length (yamlStack_ st)) eqn:L1; [|discriminate].
  apply Nat.ltb_lt in L1.
  destruct (Pop st) as [b st'| |] eqn:P; try discriminate.
  - pose proof (Pop_true st b st' L1 P) as ->.
    apply IH. apply Pop_length in P. lia.
  - exfalso. exact (Pop_no_Fuel st P).
Qed.

Lemma no_Fuel_indentation st : indentation yaml past st <> Fuel.
Proof.
  unfold indentation. destruct (col_ st =? 1)%Z; [|discriminate].
  destruct (GetIndent yaml past st) as [st1 indent].
  destruct (_ =? _)%Z; [discriminate|].
  destruct (top _); [|discriminate].
  destruct (_ <? _)%Z; [apply no_Fuel_Push|apply no_Fuel_Pop_while; lia].
Qed.

Lemma no_Fuel_body st : body yaml past st <> Fuel.
Proof.
  unfold body. pose proof (no_Fuel_indentation st).
  destruct (indentation yaml past st) as [[|] st'| |]; try discriminate; try congruence.
  apply no_Fuel_dispatch.
Qed.

Lemma pos_Push indent st st' :
  state_of (Push indent st) = Some st' ->
  curr_ st' = curr_ st /\ end_ st' = end_ st.
Proof.
  unfold Push. destruct (push _ _); simpl; intros E; injection E as <-; [|auto].
  destruct (isSequence indent); auto.
Qed.

Lemma pos_Pop st st' :
  state_of (Pop st) = Some st' ->
  curr_ st' = curr_ st /\ end_ st' = end_ st.
Proof.
  unfold Pop. destruct (_ =? _).
  - simpl. intros E. injection E as <-. auto.
  - destruct (pos_HandleMissingNull st) as [C N].
    destruct (yamlStack_ (HandleMissingNull st)) as [|t s]; simpl;
      intros E; injection E as <-; [auto|].
    destruct (isSequence t); auto.
Qed.

Lemma pos_Pop_while fuel indent st st' :
  state_of (Pop_while fuel indent st) = Some st' ->
  curr_ st' = curr_ st /\ end_ st' = end_ st.
Proof.
  revert st. induction fuel as [|fuel IH]; intros st; simpl; [discriminate|].
  destruct (top _); [|intros E; injection E as <-; auto].
  destruct (_ <? _)%Z; [|intros E; injection E as <-; auto].
  destruct (Pop st) as [[|] st1| |] eqn:P; intros E.
  - apply IH in E. destruct (pos_Pop st st1) as [C N]; [rewrite P; reflexivity|].
    destruct E as [-> ->]. auto.
  - apply (pos_Pop st). rewrite P. exact E.
  - apply (pos_Pop st). rewrite P. exact E.
  - discriminate.
Qed.

Lemma pos_indentation st st' :
  state_of (indentation yaml past st) = Some st' ->
  curr_ st <= curr_ st' /\ end_ st' = end_ st
  /\ (curr_ st <= end_ st -> curr_ st' <= end_ st).
Proof.
  unfold indentation. destruct (col_ st =? 1)%Z;
    [|intros E; injection E as <-; auto].
  destruct (pos_GetIndent st) as (Hc & He & _ & Hle & _).
  destruct (GetIndent yaml past st) as [st1 indent]. cbn [fst] in *.
  destruct (_ =? _)%Z; [intros E; injection E as <-; auto|].
  destruct (top _); [|intros E; injection E as <-; auto].
  destruct (_ <? _)%Z; intros E.
  - apply pos_Push in E. destruct E as [-> ->]. auto.
  - apply pos_Pop_while in E. destruct E as [-> ->]. auto.
Qed.

(** An iteration of the loop of [Parse] brings the cursor nearer to the
    end. *)
Lemma body_progress st st' :
  curr_ st < end_ st ->
  body yaml past st = Ret true st' ->
  end_ st' - S (curr_ st') < end_ st - curr_ st.
Proof.
  intros Hlt. unfold body.
  destruct (indentation yaml past st) as [[|] st1| |] eqn:Hi; try discriminate.
  destruct (pos_indentation st st1) as (Hc & He & Hle); [rewrite Hi; reflexivity|].
  intros Hd. destruct (pos_dispatch st1 st') as [[Hc' He']|Hn]; [rewrite Hd; reflexivity| |]; lia.
Qed.

Lemma no_Fuel_Parse_loop fuel st :
  end_ st - curr_ st < fuel -> Parse_loop yaml past fuel st <> Fuel.
Proof.
  revert st. induction fuel as [|fuel IH]; intros st L; [lia|]. simpl.
  destruct (curr_ st <? end_ st) eqn:Hlt; [|discriminate].
  apply Nat.ltb_lt in Hlt.
  destruct (body yaml past st) as [[|] st'| |] eqn:B; try discriminate.
  - apply IH. simpl. apply body_progress in B; [lia|exact Hlt].
  - exfalso. exact (no_Fuel_body st B).
Qed.

(** [Parse] returns or stops on an assertion: the model's loops never run
    out of fuel. *)
Lemma no_Fuel_Parse st : Parse yaml past st <> Fuel.
Proof.
  unfold Parse.
  pose proof (no_Fuel_Parse_loop
                (S (end_ (call StartDocument onStartDocument st)
                    - curr_ (call StartDocument onStartDocument st)))
                (call StartDocument onStartDocument st)) as NL.
  destruct (Parse_loop _ _ _ _) as [[|] st1| |]; try discriminate.
  - pose proof (no_Fuel_unwind (S (length (yamlStack_ st1))) st1) as NU.
    destruct (unwind _ _) as [b st2| |]; try discriminate. apply NU. lia.
  - apply NL. lia.
Qed.

End Positions.

(** ** The states of a parse *)

Section Reachability.

#[local] Open Scope nat_scope.

Context {H : Type} {handler : YamlHandler H}.
Variable yaml : string.
Variable past : ascii.

Implicit Types st : State H.

#[local] Abbreviation steps := (rtc (step yaml past)).

Lemma steps_Pop st : lift steps st (Pop st).
Proof.
  destruct (Pop st) as [b st'| st'|] eqn:P; simpl; [| |exact I];
    apply rtc_once, step_Pop; rewrite P; reflexivity.
Qed.

Lemma steps_dispatch st : lift steps st (dispatch yaml past st).
Proof.
  destruct (dispatch yaml past st) as [b st'| st'|] eqn:P; simpl; [| |exact I];
    apply rtc_once, step_dispatch; rewrite P; reflexivity.
Qed.

Lemma steps_Pop_while fuel indent st : lift steps st (Pop_while fuel indent st).
Proof.
  revert st. induction fuel as [|fuel IH]; intros st; simpl; [exact I|].
  destruct (top _); [|apply rtc_refl].
  destruct (_ <? _)%Z; [|apply rtc_refl].
  pose proof (steps_Pop st) as P.
  destruct (Pop st) as [[|] st'| |]; simpl in *; try exact P.
  eapply lift_trans; [intros ? ? ?; apply rtc_trans|exact P|apply IH].
Qed.

Lemma steps_indentation st : lift steps st (indentation yaml past st).
Proof.
  unfold indentation. destruct (col_ st =? 1)%Z; [|apply rtc_refl].
  pose proof (step_GetIndent yaml past st) as G.
  destruct (GetIndent yaml past st) as [st1 indent]. cbn [fst] in G.
  destruct (_ =? _)%Z; [apply rtc_once, G|].
  destruct (top _) as [t|] eqn:T; [|apply rtc_once, G].
  destruct (level t <? level indent)%Z eqn:Hlt.
  - apply Z.ltb_lt in Hlt.
    destruct (Push indent st1) as [b st'| st'|] eqn:P; simpl; [| |exact I];
      (eapply rtc_l; [exact G|]); apply rtc_once;
      eapply step_Push; try eassumption; rewrite P; reflexivity.
  - eapply lift_trans; [intros ? ? ?; apply rtc_trans|apply rtc_once, G|].
    apply steps_Pop_while.
Qed.

Lemma steps_body st : lift steps st (body yaml past st).
Proof.
  unfold body. pose proof (steps_indentation st) as E.
  destruct (indentation yaml past st) as [[|] st'| |]; simpl in *; try exact E.
  eapply lift_trans; [intros ? ? ?; apply rtc_trans|exact E|apply steps_dispatch].
Qed.

Lemma steps_Parse_loop fuel st : lift steps st (Parse_loop yaml past fuel st).
Proof.
  revert st. induction fuel as [|fuel IH]; intros st; simpl; [exact I|].
  destruct (curr_ st <? end_ st); [|apply rtc_refl].
  pose proof (steps_body st) as E.
  destruct (body yaml past st) as [[|] st'| |]; simpl in *; try exact E.
  eapply lift_trans; [intros ? ? ?; apply rtc_trans|exact E|].
  eapply lift_trans; [intros ? ? ?; apply rtc_trans| |apply IH].
  apply rtc_once, (step_advance yaml past st').
Qed.

Lemma steps_unwind fuel st : lift steps st (unwind fuel st).
Proof.
  revert st. induction fuel as [|fuel IH]; intros st; simpl; [exact I|].
  destruct (1 <? length (yamlStack_ st)); [|apply rtc_refl].
  pose proof (steps_Pop st) as E.
  destruct (Pop st) as [b st'| |]; simpl in *; try exact E.
  eapply lift_trans; [intros ? ? ?; apply rtc_trans|exact E|apply IH].
Qed.

Lemma steps_Parse st : lift steps st (Parse yaml past st).
Proof.
  unfold Parse.
  pose proof (steps_Parse_loop
                (S (end_ (call StartDocument onStartDocument st)
                    - curr_ (call StartDocument onStartDocument st)))
                (call StartDocument onStartDocument st)) as L.
  assert (steps st (call StartDocument onStartDocument st)) as S0
    by apply rtc_once, step_StartDocument.
  destruct (Parse_loop _ _ _ _) as [[|] st1| |]; cbn [lift] in *;
    try (eapply rtc_trans; [exact S0|exact L]); [|exact I].
  pose proof (steps_unwind (S (length (yamlStack_ st1))) st1) as U.
  destruct (unwind _ _) as [b st2| st2|]; cbn [lift] in *; [| |exact I].
  - eapply rtc_trans; [exact S0|]. eapply rtc_trans; [exact L|].
    eapply rtc_trans; [exact U|]. apply rtc_once, step_EndDocument.
  - eapply rtc_trans; [exact S0|]. eapply rtc_trans; [exact L|exact U].
Qed.

(** The state [Parse] ends in is one of the states of the parse. *)
Lemma run_reachable (h : H) st :
  state_of (run yaml past h) = Some st -> reachable yaml past h st.
Proof.
  unfold run, reachable. pose proof (steps_Parse (YamlParser yaml h)) as S.
  destruct (Parse _ _ _) as [b st'| st'|]; simpl in *; intros E;
    try discriminate; injection E as <-; exact S.
Qed.

Lemma step_stack_ok st st' :
  step yaml past st st' -> stack_ok (yamlStack_ st) -> stack_ok (yamlStack_ st').
Proof.
  intros S Ok. destruct S as [st|st|st indent t st' T Hlt P|st st' P|st st' P|st|st].
  - exact Ok.
  - destruct (quiet_GetIndent yaml past st) as [-> _]. exact Ok.
  - pose proof (stack_Push indent t st Ok T Hlt) as L.
    destruct (Push indent st) as [b s| s|]; simpl in *; try discriminate;
      injection P as <-; exact L.
  - pose proof (stack_Pop st Ok) as L.
    destruct (Pop st) as [b s| s|]; simpl in *; try discriminate;
      injection P as <-; exact L.
  - pose proof (quiet_dispatch yaml past st) as L.
    destruct (dispatch yaml past st) as [b s| s|]; simpl in *; try discriminate;
      injection P as <-; destruct L as [-> _]; exact Ok.
  - exact Ok.
  - exact Ok.
Qed.

End Reachability.

(** ** The log of a parse *)

Section Logs.

#[local] Open Scope nat_scope.

Lemma count_app p l l' : count p (l ++ l') = count p l + count p l'.
Proof. unfold count. rewrite List.filter_app, length_app. reflexivity. Qed.

Lemma count_inner_start evs :
  forallb inner evs = true -> count isStartDocument evs = 0.
Proof.
  induction evs as [|e evs IH]; [reflexivity|]. simpl.
  intros F. apply andb_prop in F as [I F]. unfold count in *. simpl.
  destruct e; try discriminate; simpl; auto.
Qed.

Lemma count_inner_end evs :
  forallb inner evs = true -> count isEndDocument evs = 0.
Proof.
  induction evs as [|e evs IH]; [reflexivity|]. simpl.
  intros F. apply andb_prop in F as [I F]. unfold count in *. simpl.
  destruct e; try discriminate; simpl; auto.
Qed.

Context {H : Type} {handler : YamlHandler H}.
Variable yaml : string.
Variable past : ascii.

Implicit Types st : State H.

(** The shape of the log of [Parse]. *)
Lemma Parse_log st :
  exists evs, forallb inner evs = true /\
  match Parse yaml past st with
  | Ret true st' => events st' = events st ++ StartDocument :: evs ++ [EndDocument]
  | Ret false st' => events st' = events st ++ StartDocument :: evs
  | Abort st' => events st' = events st ++ StartDocument :: evs
  | Fuel => False
  end.
Proof.
  pose proof (no_Fuel_Parse yaml past st) as NF. revert NF. unfold Parse.
  pose proof (extends_Parse_loop yaml past
                (S (end_ (call StartDocument onStartDocument st)
                    - curr_ (call StartDocument onStartDocument st)))
                (call StartDocument onStartDocument st)) as L.
  destruct (Parse_loop _ _ _ _) as [[|] st1| st1|]; simpl in L.
  - pose proof (extends_unwind (S (length (yamlStack_ st1))) st1) as U.
    destruct L as [e1 [E1 F1]].
    destruct (unwind _ _) as [b st2| st2|]; simpl in U; intros NF.
    + destruct U as [e2 [E2 F2]]. exists (e1 ++ e2). split.
      * rewrite forallb_app, F1, F2. reflexivity.
      * cbn [events call]. rewrite E2, E1. cbn [events call].
        repeat rewrite <- List.app_assoc. reflexivity.
    + destruct U as [e2 [E2 F2]]. exists (e1 ++ e2). split.
      * rewrite forallb_app, F1, F2. reflexivity.
      * rewrite E2, E1. cbn [events call].
        repeat rewrite <- List.app_assoc. reflexivity.
    + congruence.
  - intros _. destruct L as [e1 [E1 F1]]. exists e1. split; [exact F1|].
    rewrite E1. cbn [events call]. repeat rewrite <- List.app_assoc. reflexivity.
  - intros _. destruct L as [e1 [E1 F1]]. exists e1. split; [exact F1|].
    rewrite E1. cbn [events call]. repeat rewrite <- List.app_assoc. reflexivity.
  - congruence.
Qed.

End Logs.

(** ** A handler that never stops sees what the base class sees *)

Section Erasure.

Context {H : Type} {handler : YamlHandler H}.
Hypothesis continue : never_stops handler.
Variable yaml : string.
Variable past : ascii.

Implicit Types st : State H.

Lemma erase_call_onKey s st :
  erase_result (call_onKey s st) = call_onKey s (erase st).
Proof.
  unfold call_onKey, ask. destruct (continue s (yamlHandler_ st)) as [K _].
  destruct (onKey s (yamlHandler_ st)) as [b h]. simpl in K. subst b. reflexivity.
Qed.

Lemma erase_call_onScalar s st :
  erase_result (call_onScalar s st) = call_onScalar s (erase st).
Proof.
  unfold call_onScalar, ask. destruct (continue s (yamlHandler_ st)) as [_ K].
  destruct (onScalar s (yamlHandler_ st)) as [b h]. simpl in K. subst b. reflexivity.
Qed.

Lemma erase_HandleMissingNull st :
  erase (HandleMissingNull st) = HandleMissingNull (erase st).
Proof.
  unfold HandleMissingNull, ask. simpl.
  destruct (completeKeyValuePair_ st); [reflexivity|].
  destruct (onScalar _ _). reflexivity.
Qed.

Lemma erase_Error msg st : erase_result (Error msg st) = Error msg (erase st).
Proof. reflexivity. Qed.

Lemma erase_Push indent st : erase_result (Push indent st) = Push indent (erase st).
Proof.
  unfold Push. simpl. destruct (push _ _); [|reflexivity].
  destruct (isSequence indent); reflexivity.
Qed.

Lemma erase_Pop st : erase_result (Pop st) = Pop (erase st).
Proof.
  unfold Pop. simpl. destruct (_ =? _)%nat; [reflexivity|].
  rewrite <- erase_HandleMissingNull.
  destruct (yamlStack_ (HandleMissingNull st)) as [|t s] eqn:E; simpl; rewrite E; simpl;
    [reflexivity|].
  destruct (isSequence t); reflexivity.
Qed.

Lemma erase_GetIndent st :
  erase (fst (GetIndent yaml past st)) = fst (GetIndent yaml past (erase st))
  /\ snd (GetIndent yaml past st) = snd (GetIndent yaml past (erase st)).
Proof. unfold GetIndent. simpl. destruct (scan _ _ _ _ _). split; reflexivity. Qed.

Lemma erase_SkipStartDocument st :
  erase (snd (SkipStartDocument yaml past st)) = snd (SkipStartDocument yaml past (erase st)).
Proof. unfold SkipStartDocument. simpl. destruct (scan _ _ _ _ _). reflexivity. Qed.

Lemma erase_SkipSpaces st :
  erase (SkipSpaces yaml past st) = SkipSpaces yaml past (erase st).
Proof. unfold SkipSpaces. simpl. destruct (scan _ _ _ _ _). reflexivity. Qed.

Lemma erase_SkipLine st :
  erase (SkipLine yaml past st) = SkipLine yaml past (erase st).
Proof.
  unfold SkipLine. simpl. destruct (scan _ _ _ _ _). destruct (_ <? _)%nat; reflexivity.
Qed.

Lemma erase_OutputScalar s st :
  erase_result (OutputScalar yaml past s st) = OutputScalar yaml past s (erase st).
Proof.
  unfold OutputScalar. simpl. destruct (Ascii.eqb _ _).
  - rewrite erase_call_onKey. f_equal.
    change (set_complete false (erase (HandleMissingNull (set_curr (pred (curr_ st)) st)))
            = set_complete false (HandleMissingNull (erase (set_curr (pred (curr_ st)) st)))).
    rewrite erase_HandleMissingNull. reflexivity.
  - rewrite erase_call_onScalar. reflexivity.
Qed.

Lemma erase_ParsePlain st :
  erase_result (ParsePlain yaml past st) = ParsePlain yaml past (erase st).
Proof.
  unfold ParsePlain. simpl. destruct (scan _ _ _ _ _). destruct (_ <? _)%nat.
  - rewrite erase_OutputScalar. reflexivity.
  - rewrite erase_call_onScalar. reflexivity.
Qed.

Lemma erase_ParseQuoted quote st :
  erase_result (ParseQuoted yaml past quote st) = ParseQuoted yaml past quote (erase st).
Proof.
  unfold ParseQuoted. simpl. destruct (scan _ _ _ _ _). destruct (_ <? _)%nat.
  - destruct (scan _ _ _ _ _). rewrite erase_OutputScalar. reflexivity.
  - reflexivity.
Qed.

Lemma erase_ParseNode st :
  erase_result (ParseNode yaml past st) = ParseNode yaml past (erase st).
Proof.
  unfold ParseNode. simpl.
  destruct (Ascii.eqb _ _); [apply erase_ParseQuoted|].
  destruct (Ascii.eqb _ _); [apply erase_ParseQuoted|apply erase_ParsePlain].
Qed.

Lemma erase_dispatch st :
  erase_result (dispatch yaml past st) = dispatch yaml past (erase st).
Proof.
  unfold dispatch. change (deref yaml past (curr_ (erase st))) with (deref yaml past (curr_ st)).
  change (PeekNext yaml past (erase st)) with (PeekNext yaml past st).
  repeat match goal with
  | |- context [if ?b then _ else _] => destruct b
  end; try apply erase_ParseNode; try reflexivity; cbn [erase_result]; f_equal;
  rewrite ?erase_SkipSpaces, ?erase_SkipStartDocument, ?erase_SkipLine; try reflexivity;
  f_equal;
  match goal with
  | |- erase (call ?e ?f ?s) = _ =>
      change (erase (call e f s)) with (call (H:=unit) e (fun h => h) (erase s))
  end;
  rewrite erase_HandleMissingNull; reflexivity.
Qed.

Lemma erase_Pop_while fuel indent st :
  erase_result (Pop_while fuel indent st) = Pop_while fuel indent (erase st).
Proof.
  revert st. induction fuel as [|fuel IH]; intros st; [reflexivity|]. simpl.
  destruct (top _); [|reflexivity].
  destruct (_ <? _)%Z; [|reflexivity].
  rewrite <- erase_Pop. destruct (Pop st) as [[|] st'| |]; simpl; auto.
Qed.

Lemma erase_indentation st :
  erase_result (indentation yaml past st) = indentation yaml past (erase st).
Proof.
  unfold indentation. cbn [erase col_]. destruct (_ =? _)%Z; [|reflexivity].
  destruct (erase_GetIndent st) as [E1 E2].
  destruct (GetIndent yaml past st) as [st1 indent].
  destruct (GetIndent yaml past (erase st)) as [st1' indent'].
  cbn [fst snd] in E1, E2. subst st1' indent'.
  destruct (_ =? _)%Z; [reflexivity|]. cbn [erase yamlStack_].
  destruct (top _); [|reflexivity].
  destruct (_ <? _)%Z; [apply erase_Push|apply erase_Pop_while].
Qed.

Lemma erase_body st : erase_result (body yaml past st) = body yaml past (erase st).
Proof.
  unfold body. rewrite <- erase_indentation.
  destruct (indentation yaml past st) as [[|] st'| |]; simpl; try reflexivity.
  apply erase_dispatch.
Qed.

Lemma erase_Parse_loop fuel st :
  erase_result (Parse_loop yaml past fuel st) = Parse_loop yaml past fuel (erase st).
Proof.
  revert st. induction fuel as [|fuel IH]; intros st; [reflexivity|]. simpl.
  destruct (_ <? _)%nat; [|reflexivity].
  rewrite <- erase_body. destruct (body yaml past st) as [[|] st'| |]; simpl; try reflexivity.
  rewrite IH. reflexivity.
Qed.

Lemma erase_unwind fuel st : erase_result (unwind fuel st) = unwind fuel (erase st).
Proof.
  revert st. induction fuel as [|fuel IH]; intros st; [reflexivity|]. simpl.
  destruct (_ <? _)%nat; [|reflexivity].
  rewrite <- erase_Pop. destruct (Pop st) as [b st'| |]; simpl; auto.
Qed.

Lemma erase_Parse st : erase_result (Parse yaml past st) = Parse yaml past (erase st).
Proof.
  unfold Parse.
  change (call StartDocument onStartDocument (erase st))
    with (erase (call StartDocument onStartDocument st)).
  change (end_ (erase (call StartDocument onStartDocument st)))
    with (end_ (call StartDocument onStartDocument st)).
  change (curr_ (erase (call StartDocument onStartDocument st)))
    with (curr_ (call StartDocument onStartDocument st)).
  rewrite <- erase_Parse_loop.
  destruct (Parse_loop _ _ _ _) as [[|] st1| |]; cbn [erase_result]; try reflexivity.
  change (yamlStack_ (erase st1)) with (yamlStack_ st1).
  rewrite <- erase_unwind.
  destruct (unwind _ _) as [b st2| |]; reflexivity.
Qed.

(** The log and the returned value of a parse are those of the parse with
    the base class for a handler. *)
Lemma run_erase (h : H) :
  trace (run yaml past h) = trace (run yaml past tt)
  /\ returned (run yaml past h) = returned (run yaml past tt).
Proof.
  unfold run. change (YamlParser yaml tt) with (erase (YamlParser yaml h)).
  rewrite <- erase_Parse. destruct (Parse _ _ _); split; reflexivity.
Qed.

End Erasure.

(** ** A tab that the scan runs into *)

Section Tabs.

#[local] Open Scope nat_scope.

Variable yaml : string.
Variable past : ascii.
Variable t : nat.
Hypothesis tab : first_tab_at yaml t.

Implicit Types st : State unit.

#[local] Abbreviation at_ := (deref yaml past).

Lemma tab_in_text k : k <= t -> at_ k = nth k (chars yaml) NUL.
Proof.
  intros Hk. destruct tab as (Hlen & _ & _). unfold deref, buf.
  apply nth_indep. lia.
Qed.

Lemma tab_at_t : at_ t = TAB.
Proof. rewrite tab_in_text by lia. destruct tab as (_ & Ht & _). exact Ht. Qed.

Lemma plain_before k : k < t -> plain_at (chars yaml) k = true.
Proof.
  intros Hk. destruct tab as (_ & _ & Hall).
  rewrite forallb_forall in Hall. apply Hall. apply in_seq. lia.
Qed.

Lemma errored_Error msg st : towards t S st (Error msg st).
Proof. unfold Error. simpl. eexists _, _, _, _. reflexivity. Qed.

Lemma tab_Pop st st' : Pop st = Ret false st' -> errored (events st').
Proof.
  unfold Pop. destruct (_ =? _).
  - intros E. injection E as <-. eexists _, _, _, _. reflexivity.
  - destruct (yamlStack_ (HandleMissingNull st)); discriminate.
Qed.

Lemma tab_Pop_while fuel indent st st' :
  Pop_while fuel indent st = Ret false st' -> errored (events st').
Proof.
  revert st. induction fuel as [|fuel IH]; intros st; simpl; [discriminate|].
  destruct (top _); [|discriminate].
  destruct (_ <? _)%Z; [|discriminate].
  destruct (Pop st) as [[|] st1| |] eqn:P; try discriminate.
  - apply IH.
  - intros E. injection E as <-. eapply tab_Pop. exact P.
Qed.

Lemma tab_Push indent st st' : Push indent st <> Ret false st'.
Proof. unfold Push. destruct (push _ _); discriminate. Qed.

(** The indentation check does not take the cursor past the tab. *)
Lemma tab_indentation st :
  curr_ st <= t ->
  towards t (fun p => p) st (indentation yaml past st).
Proof.
  intros Hc.
  pose proof (no_Fuel_indentation yaml past st) as NF.
  destruct (indentation yaml past st) as [[|] st'| st'|] eqn:E; simpl; auto.
  - destruct (pos_indentation yaml past st st') as (C1 & C2 & _); [rewrite E; reflexivity|].
    split; [exact C1|]. split; [|exact C2].
    revert E. unfold indentation. destruct (col_ st =? 1)%Z;
      [|intros E; injection E as <-; exact Hc].
    destruct (pos_GetIndent yaml past st) as (_ & _ & _ & _ & Hupto).
    specialize (Hupto t Hc). rewrite tab_at_t in Hupto. specialize (Hupto eq_refl).
    destruct (GetIndent yaml past st) as [st1 indent]. cbn [fst] in Hupto.
    destruct (_ =? _)%Z; [intros E; injection E as <-; exact Hupto|].
    destruct (top _); [|discriminate].
    destruct (_ <? _)%Z; intros E.
    + destruct (pos_Push indent st1 st') as [-> _]; [rewrite E; reflexivity|exact Hupto].
    + destruct (pos_Pop_while (S (length (yamlStack_ st1))) indent st1 st') as [-> _];
        [rewrite E; reflexivity|exact Hupto].
  - revert E. unfold indentation. destruct (col_ st =? 1)%Z; [|discriminate].
    destruct (GetIndent yaml past st) as [st1 indent].
    destruct (_ =? _)%Z; [discriminate|].
    destruct (top _); [|discriminate].
    destruct (_ <? _)%Z; intros E.
    + exfalso. exact (tab_Push _ _ _ E).
    + eapply tab_Pop_while. exact E.
Qed.

Lemma tab_SkipSpaces st :
  curr_ st < t -> S (curr_ (SkipSpaces yaml past st)) <= t.
Proof.
  intros Hc. destruct (pos_SkipSpaces yaml past st) as (_ & _ & Hs & _).
  destruct (le_lt_dec t (curr_ (SkipSpaces yaml past st))) as [Hge|]; [|lia].
  destruct (Hs t) as [Hsp _]; [lia|]. rewrite tab_at_t in Hsp. discriminate Hsp.
Qed.

Lemma towards_SkipSpaces st0 st :
  curr_ st = curr_ st0 -> end_ st = end_ st0 -> curr_ st0 < t ->
  towards t S st0 (Ret true (SkipSpaces yaml past st)).
Proof.
  intros C E Hc. simpl. destruct (pos_SkipSpaces yaml past st) as (C1 & E1 & _).
  split; [lia|]. split; [apply tab_SkipSpaces; lia|congruence].
Qed.

(** With the base class for a handler [OutputScalar] returns [true]. *)
Lemma OutputScalar_continues s st :
  exists st', OutputScalar yaml past s st = Ret true st'.
Proof.
  unfold OutputScalar. destruct (Ascii.eqb _ _); eexists; reflexivity.
Qed.

(** A plain scalar that starts before the tab ends on it at the latest. *)
Lemma towards_ParsePlain st :
  curr_ st < t -> t < end_ st ->
  CharIsIn (at_ (curr_ st)) kEndScalar = false ->
  towards t S st (ParsePlain yaml past st).
Proof.
  intros Hc He Hstart.
  pose proof (pos_ParsePlain yaml past st) as Hpos.
  unfold ParsePlain in *.
  pose proof (scan_upto (end_ st)
     (fun p => negb (CharIsIn (at_ p) kEndScalar) || IsNormalChar_at yaml past (end_ st) p)
     (fun _ (u : unit) => u) (curr_ st) tt t ltac:(lia)) as Hupto.
  destruct (scan _ _ _ _ _) as [p u]. cbn [fst] in Hupto.
  assert (p <= t) as Hp.
  { apply Hupto. unfold IsNormalChar_at. rewrite tab_at_t. reflexivity. }
  assert ((p <? end_ st) = true) as Hlt by (apply Nat.ltb_lt; lia).
  rewrite Hlt in *.
  destruct (OutputScalar_continues (ExtractStr yaml past (curr_ st) p Yes)
              (set_col (wrap (col_ (set_curr p st) + Z.of_nat (p - curr_ st)))
                       (set_curr p st))) as [st' E].
  rewrite E in *. specialize (Hpos st' Hstart eq_refl). destruct Hpos as [C1 E1].
  pose proof E as E'. apply (f_equal state_of) in E'. apply pos_OutputScalar in E'.
  cbn [curr_ end_ set_col set_curr] in E'. destruct E' as [C2 _].
  simpl. split; [exact C1|]. split; [lia|exact E1].
Qed.

Lemma towards_ParseNode st :
  curr_ st < t -> t < end_ st ->
  CharIsIn (at_ (curr_ st)) kEndScalar = false ->
  Ascii.eqb (at_ (curr_ st)) SQUOTE = false ->
  Ascii.eqb (at_ (curr_ st)) DQUOTE = false ->
  towards t S st (ParseNode yaml past st).
Proof.
  intros Hc He Hstart Q1 Q2. unfold ParseNode. rewrite Q1, Q2.
  apply towards_ParsePlain; assumption.
Qed.

(** What [plain_at] says of the byte under the cursor. *)
Lemma plain_cases k :
  k < t ->
  Ascii.eqb (at_ k) "#" = false /\ Ascii.eqb (at_ k) "%" = false
  /\ Ascii.eqb (at_ k) SQUOTE = false /\ Ascii.eqb (at_ k) DQUOTE = false
  /\ Ascii.eqb (at_ k) NUL = false /\ Ascii.eqb (at_ k) TAB = false
  /\ (Ascii.eqb (at_ k) DASH = true -> Ascii.eqb (at_ (S k)) DASH = false).
Proof.
  intros Hk. pose proof (plain_before k Hk) as P. unfold plain_at in P.
  rewrite <- !tab_in_text in P by lia.
  apply andb_prop in P as [P1 P2]. apply negb_true_iff in P1, P2.
  unfold CharIsIn in P1. cbn [existsb] in P1.
  repeat (apply orb_false_elim in P1 as [? P1]).
  repeat split; try assumption.
  intros D. rewrite D in P2. exact P2.
Qed.

(** The [switch] entered on or before the tab. *)
Lemma tab_dispatch st :
  curr_ st <= t -> t < end_ st ->
  towards t S st (dispatch yaml past st).
Proof.
  intros Hc He. destruct (Nat.eq_dec (curr_ st) t) as [Heq|Hne].
  { unfold dispatch. rewrite Heq, tab_at_t. apply errored_Error. }
  assert (curr_ st < t) as Hlt by lia.
  destruct (plain_cases (curr_ st) Hlt) as (P1 & P2 & P3 & P4 & P5 & P6 & P7).
  unfold dispatch.
  destruct (Ascii.eqb (at_ (curr_ st)) "-") eqn:Hdash.
  { assert (PeekNext yaml past st = at_ (S (curr_ st))) as Hpeek.
    { unfold PeekNext, PeekNext_at.
      destruct (end_ st <=? curr_ st + 1) eqn:Hle; [apply Nat.leb_le in Hle; lia|].
      f_equal. lia. }
    rewrite Hpeek.
    destruct (Ascii.eqb (at_ (S (curr_ st))) " ").
    - apply towards_SkipSpaces; auto.
    - pose proof (P7 Hdash) as P8. change DASH with "-"%char in P8. rewrite P8.
      apply towards_ParseNode; auto.
      apply Ascii.eqb_eq in Hdash. rewrite Hdash. reflexivity. }
  destruct (Ascii.eqb (at_ (curr_ st)) ":" || _) eqn:Hsep.
  { apply towards_SkipSpaces; auto. }
  destruct (Ascii.eqb (at_ (curr_ st)) "[") eqn:Hlb.
  { apply towards_SkipSpaces; auto. }
  destruct (Ascii.eqb (at_ (curr_ st)) "]") eqn:Hrb.
  { destruct (pos_HandleMissingNull st). apply towards_SkipSpaces; auto. }
  destruct (Ascii.eqb (at_ (curr_ st)) "{") eqn:Hlc.
  { apply towards_SkipSpaces; auto. }
  destruct (Ascii.eqb (at_ (curr_ st)) "}") eqn:Hrc.
  { destruct (pos_HandleMissingNull st). apply towards_SkipSpaces; auto. }
  rewrite P1, P2. cbn [orb].
  destruct (Ascii.eqb (at_ (curr_ st)) LF) eqn:Hlf.
  { simpl. auto. }
  destruct (Ascii.eqb (at_ (curr_ st)) CR || _) eqn:Hcr.
  { simpl. auto. }
  rewrite P5, P6.
  destruct (CharIsIn (at_ (curr_ st)) kUnsupported).
  { apply errored_Error. }
  apply towards_ParseNode; auto.
  apply default_not_EndScalar; auto. rewrite P1, P2. reflexivity.
Qed.

(** An iteration of the loop of [Parse] entered on or before the tab. *)
Lemma tab_body st :
  curr_ st <= t -> t < end_ st ->
  towards t S st (body yaml past st).
Proof.
  intros Hc He. unfold body. pose proof (tab_indentation st Hc) as I.
  destruct (indentation yaml past st) as [[|] st1| st1|]; simpl in I; simpl; auto.
  destruct I as (C1 & C2 & E1).
  pose proof (tab_dispatch st1 C2 ltac:(lia)) as D.
  destruct (dispatch yaml past st1) as [[|] st2| st2|]; simpl in *; auto.
  destruct D as (D1 & D2 & D3). split; [lia|]. split; [exact D2|congruence].
Qed.

(** The loop of [Parse] entered on or before the tab does not go through. *)
Lemma tab_Parse_loop fuel st :
  curr_ st <= t -> t < end_ st -> end_ st - curr_ st < fuel ->
  match Parse_loop yaml past fuel st with
  | Ret true _ => False
  | Ret false st' => errored (events st')
  | Abort _ => True
  | Fuel => False
  end.
Proof.
  revert st. induction fuel as [|fuel IH]; intros st Hc He Hf; [lia|]. simpl.
  assert ((curr_ st <? end_ st) = true) as Hlt by (apply Nat.ltb_lt; lia).
  rewrite Hlt. pose proof (tab_body st Hc He) as B.
  destruct (body yaml past st) as [[|] st1| st1|]; simpl in B; auto.
  destruct B as (B1 & B2 & B3). apply IH; simpl; lia.
Qed.

(** [Parse] of a text with such a tab, with the base class for a handler. *)
Lemma tab_run :
  returned (run yaml past tt) <> Some true
  /\ (returned (run yaml past tt) = Some false -> errored (trace (run yaml past tt))).
Proof.
  unfold run, Parse.
  pose proof (tab_Parse_loop
     (S (end_ (call StartDocument onStartDocument (YamlParser yaml tt))
         - curr_ (call StartDocument onStartDocument (YamlParser yaml tt))))
     (call StartDocument onStartDocument (YamlParser yaml tt))) as L.
  destruct tab as (Hlen & _ & _).
  specialize (L ltac:(simpl; lia) ltac:(simpl; unfold buf; lia) ltac:(lia)).
  destruct (Parse_loop _ _ _ _) as [[|] st1| st1|]; simpl; try contradiction.
  - split; [discriminate|]. intros _. exact L.
  - split; discriminate.
Qed.

End Tabs.

(** * Facts about the encoder *)

Section Encoder.

Import Yaml.

Lemma is_special_special_byte (ch : ascii) :
  is_special (nat_of_ascii ch) = special_byte ch.
Proof. destruct ch as [[] [] [] [] [] [] [] []]; vm_compute; reflexivity. Qed.

Lemma nat_of_ascii_lt (ch : ascii) : (nat_of_ascii ch < 256)%nat.
Proof. apply nat_ascii_bounded. Qed.

Lemma nat_of_ascii_inj (a b : ascii) : nat_of_ascii a = nat_of_ascii b -> a = b.
Proof.
  intros E. rewrite <- (ascii_nat_embedding a), <- (ascii_nat_embedding b), E. reflexivity.
Qed.

(** One iteration of the first loop. *)
Lemma record_char_spec (tbl : list Letter) (i : Z) (ch : ascii) (seen : list ascii) :
  length tbl = kAsciiTableSize ->
  0 <= i ->
  (forall c, (c < 256)%nat ->
     (found (tbl !!! c) = true <-> exists x, In x seen /\ nat_of_ascii x = c)
     /\ (found (tbl !!! c) = false -> firstPos (tbl !!! c) = 0)
     /\ 0 <= firstPos (tbl !!! c) < Z.max 1 i) ->
  length (record_char tbl i ch) = kAsciiTableSize
  /\ forall c, (c < 256)%nat ->
     (found (record_char tbl i ch !!! c) = true
        <-> exists x, In x (seen ++ [ch]) /\ nat_of_ascii x = c)
     /\ (found (record_char tbl i ch !!! c) = false ->
           firstPos (record_char tbl i ch !!! c) = 0)
     /\ 0 <= firstPos (record_char tbl i ch !!! c) < Z.max 1 (i + 1).
Proof.
  intros L Hi Inv. unfold record_char.
  pose proof (nat_of_ascii_lt ch) as Hch.
  destruct (firstPos (tbl !!! nat_of_ascii ch) =? 0) eqn:Hz.
  - split; [rewrite length_insert; exact L|]. intros c Hc.
    destruct (Nat.eq_dec (nat_of_ascii ch) c) as [<-|Hne].
    + rewrite list_lookup_total_insert_eq by (rewrite L; exact Hch). simpl.
      split; [|split; [discriminate|lia]].
      split; [|reflexivity]. intros _. exists ch. split; [|reflexivity].
      apply in_or_app. right. left. reflexivity.
    + rewrite list_lookup_total_insert_ne by exact Hne.
      destruct (Inv c Hc) as (F & Z0 & B). split; [|split; [exact Z0|lia]].
      rewrite F. split; intros [x [Hx E]]; exists x; (split; [|exact E]).
      * apply in_or_app. left. exact Hx.
      * apply in_app_or in Hx as [Hx|[<-|[]]]; [exact Hx|congruence].
  - split; [exact L|]. intros c Hc.
    destruct (Inv c Hc) as (F & Z0 & B). split; [|split; [exact Z0|lia]].
    rewrite F. split; intros [x [Hx E]].
    + exists x. split; [apply in_or_app; left; exact Hx|exact E].
    + apply in_app_or in Hx as [Hx|[<-|[]]]; [exists x; auto|].
      subst c. apply F. apply Z.eqb_neq in Hz.
      destruct (found (tbl !!! nat_of_ascii ch)) eqn:Hf; [reflexivity|].
      exfalso. apply Hz, Z0. reflexivity.
Qed.

(** The table after the first loop: an entry is found exactly when its byte
    occurs, and its position is below the size of the scalar. *)
Lemma build_table_spec (rest : list ascii) :
  forall (i : Z) (tbl : list Letter) (seen : list ascii),
  length tbl = kAsciiTableSize ->
  0 <= i ->
  (forall c, (c < 256)%nat ->
     (found (tbl !!! c) = true <-> exists x, In x seen /\ nat_of_ascii x = c)
     /\ (found (tbl !!! c) = false -> firstPos (tbl !!! c) = 0)
     /\ 0 <= firstPos (tbl !!! c) < Z.max 1 i) ->
  length (build_table rest i tbl) = kAsciiTableSize
  /\ forall c, (c < 256)%nat ->
     (found (build_table rest i tbl !!! c) = true
        <-> exists x, In x (seen ++ rest) /\ nat_of_ascii x = c)
     /\ 0 <= firstPos (build_table rest i tbl !!! c)
          < Z.max 1 (i + Z.of_nat (length rest)).
Proof.
  induction rest as [|ch rest IH]; intros i tbl seen L Hi Inv; simpl.
  - split; [exact L|]. intros c Hc. destruct (Inv c Hc) as (F & _ & B).
    rewrite app_nil_r. split; [exact F|lia].
  - destruct (record_char_spec tbl i ch seen L Hi Inv) as [L' Inv'].
    destruct (IH (i + 1) (record_char tbl i ch) (seen ++ [ch]) L' ltac:(lia) Inv')
      as [L'' Inv''].
    split; [exact L''|]. intros c Hc. destruct (Inv'' c Hc) as [F B].
    rewrite <- List.app_assoc in F. simpl in F. split; [exact F|lia].
Qed.

Lemma build_table_init (scalar : list ascii) :
  length (build_table scalar 0 ascii_init) = kAsciiTableSize
  /\ forall c, (c < 256)%nat ->
     (found (build_table scalar 0 ascii_init !!! c) = true
        <-> exists x, In x scalar /\ nat_of_ascii x = c)
     /\ 0 <= firstPos (build_table scalar 0 ascii_init !!! c)
          < Z.max 1 (Z.of_nat (length scalar)).
Proof.
  apply (build_table_spec scalar 0 ascii_init []).
  - apply length_replicate.
  - lia.
  - intros c Hc. unfold ascii_init. rewrite lookup_total_replicate_2 by exact Hc.
    simpl. split; [|split; [reflexivity|lia]].
    split; [discriminate|]. intros [x [[] _]].
Qed.

(** One iteration of the second loop. *)
Lemma scan_letter_spec (tbl : list Letter) (acc : Lowest) (c : nat) :
  lowestPosition (scan_letter tbl acc c)
  = (if found (tbl !!! c) && is_special c
        && (firstPos (tbl !!! c) <? lowestPosition acc)
     then firstPos (tbl !!! c) else lowestPosition acc)
  /\ lowSingleQuote (scan_letter tbl acc c)
     = (if found (tbl !!! c) && (c =? nat_of_ascii SQUOTE)%nat
        then firstPos (tbl !!! c) else lowSingleQuote acc)
  /\ lowDoubleQuote (scan_letter tbl acc c)
     = (if found (tbl !!! c) && (c =? nat_of_ascii DQUOTE)%nat
        then firstPos (tbl !!! c) else lowDoubleQuote acc).
Proof.
  unfold scan_letter.
  destruct (found (tbl !!! c)), (is_special c),
    (firstPos (tbl !!! c) <? lowestPosition acc),
    (c =? nat_of_ascii SQUOTE)%nat, (c =? nat_of_ascii DQUOTE)%nat;
    simpl; auto.
Qed.

Section SecondLoop.

Variable tbl : list Letter.
Hypothesis positions :
  forall c, found (tbl !!! c) = true -> firstPos (tbl !!! c) < kInvalidPos.

Lemma fold_lowest (cs : list nat) :
  forall acc, lowestPosition acc <= kInvalidPos ->
  lowestPosition (fold_left (scan_letter tbl) cs acc) <= kInvalidPos
  /\ (lowestPosition (fold_left (scan_letter tbl) cs acc) < kInvalidPos
      <-> lowestPosition acc < kInvalidPos
          \/ exists c, In c cs /\ found (tbl !!! c) = true /\ is_special c = true).
Proof.
  induction cs as [|c cs IH]; intros acc B; simpl.
  - split; [exact B|]. split; [auto|]. intros [?|[c [[] _]]]; assumption.
  - destruct (scan_letter_spec tbl acc c) as (E & _ & _).
    assert (lowestPosition (scan_letter tbl acc c) <= kInvalidPos) as B'.
    { rewrite E. destruct (found (tbl !!! c)) eqn:F; simpl; [|exact B].
      destruct (is_special c); simpl; [|exact B].
      destruct (_ <? _) eqn:Hlt; [|exact B]. apply Z.ltb_lt in Hlt. lia. }
    destruct (IH _ B') as [B'' I]. split; [exact B''|]. rewrite I, E. clear I IH.
    destruct (found (tbl !!! c)) eqn:F; simpl.
    + destruct (is_special c) eqn:Sp; simpl.
      * pose proof (positions c F) as P.
        destruct (_ <? _) eqn:Hlt.
        -- split; [|auto]. intros _. right. exists c. auto.
        -- apply Z.ltb_ge in Hlt. split.
           ++ intros [?|[c' [? ?]]]; [auto|]. right. exists c'. auto.
           ++ intros [?|[c' [[<-|?] ?]]]; [auto|left; lia|]. right. exists c'. auto.
      * split.
        -- intros [?|[c' [? ?]]]; [auto|]. right. exists c'. auto.
        -- intros [?|[c' [[<-|?] [? ?]]]]; [auto|congruence|]. right. exists c'. auto.
    + split.
      * intros [?|[c' [? ?]]]; [auto|]. right. exists c'. auto.
      * intros [?|[c' [[<-|?] [? ?]]]]; [auto|congruence|]. right. exists c'. auto.
Qed.

Lemma fold_quotes (cs : list nat) :
  forall acc,
  (lowSingleQuote (fold_left (scan_letter tbl) cs acc) < kInvalidPos
   <-> lowSingleQuote acc < kInvalidPos
       \/ (In (nat_of_ascii SQUOTE) cs /\ found (tbl !!! nat_of_ascii SQUOTE) = true))
  /\ (lowDoubleQuote (fold_left (scan_letter tbl) cs acc) < kInvalidPos
      <-> lowDoubleQuote acc < kInvalidPos
          \/ (In (nat_of_ascii DQUOTE) cs /\ found (tbl !!! nat_of_ascii DQUOTE) = true)).
Proof.
  induction cs as [|c cs IH]; intros acc; simpl fold_left.
  - split; (split; [auto|]); intros [?|[[] _]]; assumption.
  - destruct (scan_letter_spec tbl acc c) as (_ & E1 & E2).
    destruct (IH (scan_letter tbl acc c)) as [I1 I2]. rewrite I1, I2, E1, E2. clear I1 I2 IH.
    split.
    + destruct (found (tbl !!! c)) eqn:F; simpl.
      * destruct (c =? nat_of_ascii SQUOTE)%nat eqn:Q.
        -- apply Nat.eqb_eq in Q. subst c. pose proof (positions _ F).
           split; [|auto]. intros _. right. split; [left; reflexivity|exact F].
        -- apply Nat.eqb_neq in Q. split.
           ++ intros [?|[? ?]]; [auto|]. right. split; [right|]; assumption.
           ++ intros [?|[[?|?] ?]]; [auto|congruence|]. right. auto.
      * split.
        -- intros [?|[? ?]]; [auto|]. right. split; [right|]; assumption.
        -- intros [?|[[?|?] ?]]; [auto|congruence|]. right. auto.
    + destruct (found (tbl !!! c)) eqn:F; simpl.
      * destruct (c =? nat_of_ascii DQUOTE)%nat eqn:Q.
        -- apply Nat.eqb_eq in Q. subst c. pose proof (positions _ F).
           split; [|auto]. intros _. right. split; [left; reflexivity|exact F].
        -- apply Nat.eqb_neq in Q. split.
           ++ intros [?|[? ?]]; [auto|]. right. split; [right|]; assumption.
           ++ intros [?|[[?|?] ?]]; [auto|congruence|]. right. auto.
      * split.
        -- intros [?|[? ?]]; [auto|]. right. split; [right|]; assumption.
        -- intros [?|[[?|?] ?]]; [auto|congruence|]. right. auto.
Qed.

End SecondLoop.

Lemma kInvalidPos_eq : kInvalidPos = 2 ^ 64 - 1.
Proof. reflexivity. Qed.

(** The early return of [GetSpecialChars] is taken on the scalars that are
    wrapped in quotes. *)
Lemma already_quoted_spec (l : list ascii) :
  already_quoted l = true <-> wrapped_in_quotes l.
Proof.
  split.
  - destruct l as [|front rest]; [discriminate|]. unfold already_quoted.
    intros Hq. apply andb_prop in Hq as [Hq Hlast]. apply andb_prop in Hq as [Hlen Hquote].
    apply Nat.ltb_lt in Hlen. apply Ascii.eqb_eq in Hlast.
    destruct rest as [|z body _] using rev_ind; [simpl in Hlen; lia|].
    change (front :: body ++ [z]) with ((front :: body) ++ [z]) in Hlast.
    rewrite List.last_last in Hlast. subst z.
    exists front, body. split; [|split; [|reflexivity]].
    + apply orb_prop in Hquote as [Hq|Hq]; apply Ascii.eqb_eq in Hq; auto.
    + intros ->. simpl in Hlen. lia.
  - intros (q & body & Hq & Hne & ->). unfold already_quoted.
    change (q :: body ++ [q]) with ((q :: body) ++ [q]) at 2.
    rewrite List.last_last, Ascii.eqb_refl, andb_true_r.
    apply andb_true_intro. split.
    + apply Nat.ltb_lt. simpl. rewrite length_app. simpl.
      destruct body; [congruence|simpl; lia].
    + destruct Hq as [->| ->]; reflexivity.
Qed.

(** What [GetSpecialChars] reports on a scalar that is not empty and not
    wrapped in quotes. *)
Lemma GetSpecialChars_spec (S : string) :
  Z.of_nat (length (chars S)) < 2 ^ 64 ->
  chars S <> [] ->
  already_quoted (chars S) = false ->
  (hasSpecialChars (GetSpecialChars S) = true
     <-> exists x, In x (chars S) /\ special_byte x = true)
  /\ (hasSpecialChars (GetSpecialChars S) = true ->
        (firstSingleQuote (GetSpecialChars S) < kInvalidPos <-> In SQUOTE (chars S))
        /\ (firstDoubleQuote (GetSpecialChars S) < kInvalidPos <-> In DQUOTE (chars S))).
Proof.
  intros Hsize Hne Hq. unfold GetSpecialChars.
  destruct (chars S) as [|ch0 rest] eqn:Hs; [congruence|]. rewrite Hq.
  destruct (build_table_init (ch0 :: rest)) as [L Inv].
  set (tbl := build_table (ch0 :: rest) 0 ascii_init) in *.
  assert (forall c, found (tbl !!! c) = true -> (c < 256)%nat) as Hrange.
  { intros c F. destruct (le_lt_dec 256 c) as [Hge|]; [|assumption].
    rewrite list_lookup_total_alt, lookup_ge_None_2 in F by (rewrite L; exact Hge).
    discriminate F. }
  assert (forall c, found (tbl !!! c) = true -> firstPos (tbl !!! c) < kInvalidPos) as Hpos.
  { intros c F. destruct (Inv c (Hrange c F)) as [_ B].
    rewrite kInvalidPos_eq. simpl length in *. lia. }
  unfold scan_table. rewrite L.
  destruct (fold_lowest tbl Hpos (seq 0 kAsciiTableSize)
              (mkLowest kInvalidPos kInvalidPos kInvalidPos) ltac:(simpl; lia)) as [B I].
  destruct (fold_quotes tbl Hpos (seq 0 kAsciiTableSize)
              (mkLowest kInvalidPos kInvalidPos kInvalidPos)) as [I1 I2].
  set (low := fold_left (scan_letter tbl) (seq 0 kAsciiTableSize)
                (mkLowest kInvalidPos kInvalidPos kInvalidPos)) in *.
  simpl lowestPosition in I. simpl lowSingleQuote in I1. simpl lowDoubleQuote in I2.
  assert (forall q, (In (nat_of_ascii q) (seq 0 kAsciiTableSize)
                     /\ found (tbl !!! nat_of_ascii q) = true) <-> In q (ch0 :: rest)) as Hin.
  { intros q. pose proof (nat_of_ascii_lt q) as Hlt.
    destruct (Inv _ Hlt) as [F _]. rewrite F. split.
    - intros [_ [x [Hx E]]]. apply nat_of_ascii_inj in E. subst x. exact Hx.
    - intros Hx. split; [apply in_seq; unfold kAsciiTableSize; lia|]. exists q. auto. }
  assert (lowestPosition low < kInvalidPos
          <-> exists x, In x (ch0 :: rest) /\ special_byte x = true) as Hlow.
  { rewrite I. split.
    - intros [Hlt|[c (Hc & F & Sp)]]; [lia|].
      destruct (Inv c (Hrange c F)) as [Fi _]. apply Fi in F as [x [Hx E]].
      exists x. split; [exact Hx|]. rewrite <- is_special_special_byte, E. exact Sp.
    - intros [x [Hx Sp]]. right. exists (nat_of_ascii x).
      pose proof (nat_of_ascii_lt x) as Hlt. destruct (Inv _ Hlt) as [Fi _].
      split; [apply in_seq; unfold kAsciiTableSize; lia|]. split.
      + apply Fi. exists x. auto.
      + rewrite is_special_special_byte. exact Sp. }
  destruct (lowestPosition low =? kInvalidPos) eqn:Heq.
  - apply Z.eqb_eq in Heq.
    cbn [hasSpecialChars firstSingleQuote firstDoubleQuote Special_of].
    split; [|discriminate].
    split; [discriminate|]. intros Hx. apply Hlow in Hx. lia.
  - apply Z.eqb_neq in Heq.
    cbn [hasSpecialChars firstSingleQuote firstDoubleQuote]. split.
    + split; [|reflexivity]. intros _. apply Hlow. lia.
    + intros _. rewrite I1, I2, <- !Hin.
      split; (split; [intros [?|?]; [lia|assumption]|auto]).
Qed.

End Encoder.

(** ** The positions the table holds *)

Section EncoderPositions.

Import Yaml.

Lemma first_position_app (p : ascii -> bool) (l l' : list ascii) (i : Z) :
  first_position p (l ++ l') i
  = match first_position p l i with
    | Some r => Some r
    | None => first_position p l' (i + Z.of_nat (length l))
    end.
Proof.
  revert i. induction l as [|x l IH]; intros i; simpl.
  - f_equal. lia.
  - destruct (p x); [reflexivity|]. rewrite IH.
    destruct (first_position p l (i + 1)); [reflexivity|]. f_equal. lia.
Qed.

Lemma first_position_None (p : ascii -> bool) (l : list ascii) (i : Z) :
  first_position p l i = None <-> forall x, In x l -> p x = false.
Proof.
  revert i. induction l as [|x l IH]; intros i; simpl.
  - split; [intros _ x []|reflexivity].
  - destruct (p x) eqn:Px.
    + split; [discriminate|]. intros Hall. rewrite (Hall x) in Px by auto. discriminate.
    + rewrite IH. split.
      * intros Hall y [<-|Hy]; auto.
      * intros Hall y Hy. apply Hall. auto.
Qed.

(** The position [first_position] gives is the one of a byte that satisfies
    [p], and no byte before it does. *)
Lemma first_position_Some (p : ascii -> bool) (l : list ascii) (i r : Z) :
  first_position p l i = Some r ->
  exists k x, r = i + Z.of_nat k /\ l !! k = Some x /\ p x = true
              /\ forall j y, (j < k)%nat -> l !! j = Some y -> p y = false.
Proof.
  revert i. induction l as [|x l IH]; intros i; simpl; [discriminate|].
  destruct (p x) eqn:Px.
  - intros E. injection E as <-. exists O, x. repeat split; [lia|exact Px|].
    intros j y Hj. lia.
  - intros E. destruct (IH _ E) as (k & y & -> & Hk & Py & Hmin).
    exists (S k), y. repeat split; [lia|exact Hk|exact Py|].
    intros [|j] z Hj Hz; simpl in Hz; [congruence|].
    eapply Hmin; [|exact Hz]. lia.
Qed.

(** A byte that satisfies [p] is not before the first position. *)
Lemma first_position_le (p : ascii -> bool) (l : list ascii) (i : Z) k x :
  l !! k = Some x -> p x = true ->
  exists r, first_position p l i = Some r /\ r <= i + Z.of_nat k.
Proof.
  revert i k. induction l as [|y l IH]; intros i k Hk Px; [discriminate|]. simpl.
  destruct (p y) eqn:Py; [exists i; split; [reflexivity|lia]|].
  destruct k as [|k]; simpl in Hk; [congruence|].
  destruct (IH (i + 1) k Hk Px) as (r & E & Hr). exists r. split; [exact E|lia].
Qed.

(** The byte an entry stands for is at the position the entry holds. *)
Lemma build_table_holds (rest : list ascii) :
  forall (tbl : list Letter) (seen : list ascii),
  length tbl = kAsciiTableSize ->
  (forall c, (c < 256)%nat ->
     (found (tbl !!! c) = true <-> exists x, In x seen /\ nat_of_ascii x = c)
     /\ (found (tbl !!! c) = false -> firstPos (tbl !!! c) = 0)
     /\ 0 <= firstPos (tbl !!! c) < Z.max 1 (Z.of_nat (length seen))) ->
  (forall c, (c < 256)%nat -> found (tbl !!! c) = true ->
     exists x, seen !! Z.to_nat (firstPos (tbl !!! c)) = Some x /\ nat_of_ascii x = c) ->
  forall c, (c < 256)%nat ->
    found (build_table rest (Z.of_nat (length seen)) tbl !!! c) = true ->
    exists x, (seen ++ rest) !! Z.to_nat (firstPos (build_table rest (Z.of_nat (length seen)) tbl !!! c))
              = Some x /\ nat_of_ascii x = c.
Proof.
  induction rest as [|ch rest IH]; intros tbl seen L Inv Holds c Hc; simpl.
  - rewrite app_nil_r. apply Holds. exact Hc.
  - destruct (record_char_spec tbl (Z.of_nat (length seen)) ch seen L ltac:(lia) Inv)
      as [L' Inv'].
    replace (Z.of_nat (length seen) + 1) with (Z.of_nat (length (seen ++ [ch])))
      in * by (rewrite length_app; simpl; lia).
    replace (seen ++ ch :: rest) with ((seen ++ [ch]) ++ rest)
      by (rewrite <- List.app_assoc; reflexivity).
    apply IH; [exact L'|exact Inv'| |exact Hc].
    clear IH c Hc. intros c Hc. unfold record_char in *.
    pose proof (nat_of_ascii_lt ch) as Hch.
    destruct (firstPos (tbl !!! nat_of_ascii ch) =? 0) eqn:Hz.
    + destruct (Nat.eq_dec (nat_of_ascii ch) c) as [<-|Hne].
      * rewrite list_lookup_total_insert_eq by (rewrite L; exact Hch). simpl.
        intros _. exists ch. split; [|reflexivity].
        rewrite Nat2Z.id. rewrite lookup_app_r by lia.
        replace (length seen - length seen)%nat with O by lia. reflexivity.
      * rewrite list_lookup_total_insert_ne by exact Hne. intros F.
        destruct (Holds c Hc F) as (x & Hx & Ex). exists x. split; [|exact Ex].
        apply lookup_app_l_Some. exact Hx.
    + intros F. destruct (Holds c Hc F) as (x & Hx & Ex). exists x. split; [|exact Ex].
      apply lookup_app_l_Some. exact Hx.
Qed.

Lemma build_table_holds_init (scalar : list ascii) c :
  (c < 256)%nat ->
  found (build_table scalar 0 ascii_init !!! c) = true ->
  exists x, scalar !! Z.to_nat (firstPos (build_table scalar 0 ascii_init !!! c)) = Some x
            /\ nat_of_ascii x = c.
Proof.
  intros Hc. apply (build_table_holds scalar ascii_init []); [apply length_replicate| | |exact Hc].
  - intros c' Hc'. unfold ascii_init. rewrite lookup_total_replicate_2 by exact Hc'.
    simpl. split; [|split; [reflexivity|lia]].
    split; [discriminate|]. intros [x [[] _]].
  - intros c' Hc'. unfold ascii_init. rewrite lookup_total_replicate_2 by exact Hc'.
    discriminate.
Qed.

(** When the first byte of the scalar does not come again, an entry holds
    the first position of its byte. *)
Lemma build_table_first (ch0 : ascii) (rest : list ascii) :
  forall (tbl : list Letter) (seen : list ascii),
  ~ In ch0 rest ->
  head seen = Some ch0 ->
  length tbl = kAsciiTableSize ->
  (forall c, (c < 256)%nat ->
     (found (tbl !!! c) = true <-> exists x, In x seen /\ nat_of_ascii x = c)
     /\ (found (tbl !!! c) = false -> firstPos (tbl !!! c) = 0)
     /\ 0 <= firstPos (tbl !!! c) < Z.max 1 (Z.of_nat (length seen))) ->
  (forall c, (c < 256)%nat -> found (tbl !!! c) = true ->
     first_position (fun x => (nat_of_ascii x =? c)%nat) seen 0
     = Some (firstPos (tbl !!! c))) ->
  forall c, (c < 256)%nat ->
    found (build_table rest (Z.of_nat (length seen)) tbl !!! c) = true ->
    first_position (fun x => (nat_of_ascii x =? c)%nat) (seen ++ rest) 0
    = Some (firstPos (build_table rest (Z.of_nat (length seen)) tbl !!! c)).
Proof.
  induction rest as [|ch rest IH]; intros tbl seen Hnot Hhead L Inv First c Hc; simpl.
  - rewrite app_nil_r. apply First. exact Hc.
  - destruct (record_char_spec tbl (Z.of_nat (length seen)) ch seen L ltac:(lia) Inv)
      as [L' Inv'].
    replace (Z.of_nat (length seen) + 1) with (Z.of_nat (length (seen ++ [ch])))
      in * by (rewrite length_app; simpl; lia).
    replace (seen ++ ch :: rest) with ((seen ++ [ch]) ++ rest)
      by (rewrite <- List.app_assoc; reflexivity).
    apply IH; [intros Hin; apply Hnot; right; exact Hin| |exact L'|exact Inv'| |exact Hc].
    { destruct seen; [discriminate|exact Hhead]. }
    clear IH c Hc. intros c Hc. unfold record_char in *.
    pose proof (nat_of_ascii_lt ch) as Hch.
    assert (ch <> ch0) as Hne0 by (intros ->; apply Hnot; left; reflexivity).
    rewrite first_position_app.
    destruct (firstPos (tbl !!! nat_of_ascii ch) =? 0) eqn:Hz.
    + destruct (Nat.eq_dec (nat_of_ascii ch) c) as [<-|Hne].
      * rewrite list_lookup_total_insert_eq by (rewrite L; exact Hch). simpl. intros _.
        destruct (found (tbl !!! nat_of_ascii ch)) eqn:F.
        -- exfalso. pose proof (First _ Hch F) as E. apply Z.eqb_eq in Hz. rewrite Hz in E.
           destruct seen as [|y seen]; [discriminate|]. simpl in Hhead, E.
           injection Hhead as ->.
           destruct (nat_of_ascii ch0 =? nat_of_ascii ch)%nat eqn:Q.
           ++ apply Nat.eqb_eq, nat_of_ascii_inj in Q. congruence.
           ++ apply first_position_Some in E as (k & x & Ek & _). lia.
        -- assert (first_position (fun x => (nat_of_ascii x =? nat_of_ascii ch)%nat) seen 0
                   = None) as ->.
           { apply first_position_None. intros x Hx. apply Nat.eqb_neq. intros E.
             destruct (Inv _ Hch) as [Fi _]. rewrite (proj2 Fi) in F; [discriminate|].
             exists x. auto. }
           rewrite Nat.eqb_refl. f_equal.
      * rewrite list_lookup_total_insert_ne by exact Hne. intros F.
        rewrite (First c Hc F). reflexivity.
    + intros F. rewrite (First c Hc F). reflexivity.
Qed.

Lemma build_table_first_init (ch0 : ascii) (rest : list ascii) c :
  ~ In ch0 rest ->
  (c < 256)%nat ->
  found (build_table (ch0 :: rest) 0 ascii_init !!! c) = true ->
  first_position (fun x => (nat_of_ascii x =? c)%nat) (ch0 :: rest) 0
  = Some (firstPos (build_table (ch0 :: rest) 0 ascii_init !!! c)).
Proof.
  intros Hnot Hc. simpl build_table.
  assert (length ascii_init = kAsciiTableSize) as L0 by apply length_replicate.
  assert (forall c, (c < 256)%nat ->
     (found (ascii_init !!! c) = true <-> exists x, In x [] /\ nat_of_ascii x = c)
     /\ (found (ascii_init !!! c) = false -> firstPos (ascii_init !!! c) = 0)
     /\ 0 <= firstPos (ascii_init !!! c) < Z.max 1 0) as Inv0.
  { intros c' Hc'. unfold ascii_init. rewrite lookup_total_replicate_2 by exact Hc'.
    simpl. split; [|split; [reflexivity|lia]].
    split; [discriminate|]. intros [x [[] _]]. }
  destruct (record_char_spec ascii_init 0 ch0 [] L0 ltac:(lia) Inv0) as [L1 Inv1].
  change (ch0 :: rest) with ([ch0] ++ rest).
  apply (build_table_first ch0 rest (record_char ascii_init 0 ch0) [ch0]);
    [exact Hnot|reflexivity|exact L1|exact Inv1| |exact Hc].
  clear c Hc. intros c Hc. unfold record_char.
  pose proof (nat_of_ascii_lt ch0) as Hch.
  assert (firstPos (ascii_init !!! nat_of_ascii ch0) = 0) as ->.
  { unfold ascii_init. rewrite lookup_total_replicate_2 by exact Hch. reflexivity. }
  simpl (0 =? 0).
  destruct (Nat.eq_dec (nat_of_ascii ch0) c) as [<-|Hne].
  - rewrite list_lookup_total_insert_eq by (rewrite L0; exact Hch). simpl.
    rewrite Nat.eqb_refl. reflexivity.
  - rewrite list_lookup_total_insert_ne by exact Hne.
    unfold ascii_init. rewrite lookup_total_replicate_2 by exact Hc. discriminate.
Qed.

(** The lowest position after the second loop is below every position of a
    special byte that was found, and is one of these (or the start value). *)
Lemma fold_min (tbl : list Letter) (cs : list nat) :
  forall acc,
  (forall c, In c cs -> found (tbl !!! c) = true -> is_special c = true ->
     lowestPosition (fold_left (scan_letter tbl) cs acc) <= firstPos (tbl !!! c))
  /\ lowestPosition (fold_left (scan_letter tbl) cs acc) <= lowestPosition acc
  /\ (lowestPosition (fold_left (scan_letter tbl) cs acc) = lowestPosition acc
      \/ exists c, In c cs /\ found (tbl !!! c) = true /\ is_special c = true
                   /\ lowestPosition (fold_left (scan_letter tbl) cs acc)
                      = firstPos (tbl !!! c)).
Proof.
  induction cs as [|c cs IH]; intros acc; simpl.
  - split; [intros c []|]. split; [lia|left; reflexivity].
  - destruct (IH (scan_letter tbl acc c)) as (I1 & I2 & I3).
    destruct (scan_letter_spec tbl acc c) as (E & _ & _).
    assert (lowestPosition (scan_letter tbl acc c) <= lowestPosition acc
            /\ (found (tbl !!! c) = true -> is_special c = true ->
                lowestPosition (scan_letter tbl acc c) <= firstPos (tbl !!! c))
            /\ (lowestPosition (scan_letter tbl acc c) = lowestPosition acc
                \/ (found (tbl !!! c) = true /\ is_special c = true
                    /\ lowestPosition (scan_letter tbl acc c) = firstPos (tbl !!! c))))
      as (S1 & S2 & S3).
    { rewrite E. destruct (found (tbl !!! c)), (is_special c); simpl;
        try (split; [lia|split; [discriminate|left; reflexivity]]).
      destruct (_ <? _) eqn:Hlt; [apply Z.ltb_lt in Hlt|apply Z.ltb_ge in Hlt].
      - split; [lia|]. split; [lia|right; auto].
      - split; [lia|]. split; [lia|left; reflexivity]. }
    split; [|split].
    + intros c' [<-|Hin] F Sp; [specialize (S2 F Sp); lia|apply I1; assumption].
    + lia.
    + destruct I3 as [I3|(c' & Hin & F & Sp & I3)].
      * destruct S3 as [S3|(F & Sp & S3)]; [left; lia|].
        right. exists c. repeat split; auto. lia.
      * right. exists c'. repeat split; auto.
Qed.

(** The two quote positions after the second loop. *)
Lemma fold_quote_values (tbl : list Letter) (cs : list nat) :
  forall acc,
  lowSingleQuote (fold_left (scan_letter tbl) cs acc)
  = (if existsb (Nat.eqb (nat_of_ascii SQUOTE)) cs && found (tbl !!! nat_of_ascii SQUOTE)
     then firstPos (tbl !!! nat_of_ascii SQUOTE) else lowSingleQuote acc)
  /\ lowDoubleQuote (fold_left (scan_letter tbl) cs acc)
     = (if existsb (Nat.eqb (nat_of_ascii DQUOTE)) cs && found (tbl !!! nat_of_ascii DQUOTE)
        then firstPos (tbl !!! nat_of_ascii DQUOTE) else lowDoubleQuote acc).
Proof.
  induction cs as [|c cs IH]; intros acc; [split; reflexivity|].
  cbn [fold_left existsb].
  destruct (IH (scan_letter tbl acc c)) as [I1 I2]. rewrite I1, I2. clear I1 I2 IH.
  destruct (scan_letter_spec tbl acc c) as (_ & E1 & E2). rewrite E1, E2. clear E1 E2.
  split.
  - rewrite (Nat.eqb_sym (nat_of_ascii SQUOTE) c).
    destruct (c =? nat_of_ascii SQUOTE)%nat eqn:Q.
    + apply Nat.eqb_eq in Q. subst c. cbn [orb].
      destruct (found (tbl !!! nat_of_ascii SQUOTE)); simpl.
      * destruct (existsb _ cs); reflexivity.
      * rewrite andb_false_r. reflexivity.
    + rewrite andb_false_r. reflexivity.
  - rewrite (Nat.eqb_sym (nat_of_ascii DQUOTE) c).
    destruct (c =? nat_of_ascii DQUOTE)%nat eqn:Q.
    + apply Nat.eqb_eq in Q. subst c. cbn [orb].
      destruct (found (tbl !!! nat_of_ascii DQUOTE)); simpl.
      * destruct (existsb _ cs); reflexivity.
      * rewrite andb_false_r. reflexivity.
    + rewrite andb_false_r. reflexivity.
Qed.

End EncoderPositions.

(** * The model on some texts *)

Section Examples.

Example GetSpecialChars_empty :
  Yaml.GetSpecialChars "" = Yaml.Special_of false.
Proof. reflexivity. Qed.

Example GetSpecialChars_quoted :
  Yaml.GetSpecialChars "'abc'" = Yaml.Special_of false.
Proof. vm_compute. reflexivity. Qed.

Example CreateSafeScalar_plain :
  Yaml.CreateSafeScalar "Hello world" = Some "Hello world"%string.
Proof. vm_compute. reflexivity. Qed.

Example CreateSafeScalar_colon :
  Yaml.CreateSafeScalar "12:30" = Some "'12:30'"%string.
Proof. vm_compute. reflexivity. Qed.

Example CreateKeyValue_line :
  Yaml.CreateKeyValue "time" "12:30" = Some ("time: '12:30'" ++ nl)%string.
Proof. vm_compute. reflexivity. Qed.

(** A flow sequence with a plain, a plain and a quoted scalar. *)
Example flow_sequence_events (past : ascii) :
  trace (run "[ 1, two, 'three' ]" past tt)
  = [StartDocument; StartSequence; Scalar "1"; Scalar "two"; Scalar "three";
     EndSequence; EndDocument].
Proof. vm_compute. reflexivity. Qed.

(** The message of the unterminated quote shows the start of the scalar. *)
Example unterminated_quote_events (past : ascii) :
  trace (run "key: 'abc" past tt)
  = [StartDocument; Key "key"; ErrorAt "Unterminated quoted scalar <'abc...>" 1 5]
  /\ returned (run "key: 'abc" past tt) = Some false.
Proof. split; vm_compute; reflexivity. Qed.

(** A key without a value in a nested mapping gets its [null] from [Pop]. *)
Example nested_key_only_events (past : ascii) :
  trace (run ("a:" ++ nl ++ "  b:" ++ nl) past tt)
  = [StartDocument; Key "a"; StartMapping; Key "b"; Scalar "null"; EndMapping;
     EndDocument].
Proof. vm_compute. reflexivity. Qed.

(** So does a key that is followed by another key. *)
Example two_keys_events (past : ascii) :
  trace (run ("a:" ++ nl ++ "b: 1" ++ nl) past tt)
  = [StartDocument; Key "a"; Scalar "null"; Key "b"; Scalar "1"; EndDocument].
Proof. vm_compute. reflexivity. Qed.

(** The marker of the start of a document is skipped. *)
Example three_dashes_events (past : ascii) :
  trace (run ("---" ++ nl ++ "a: 1" ++ nl) past tt)
  = [StartDocument; Key "a"; Scalar "1"; EndDocument].
Proof. vm_compute. reflexivity. Qed.

(** A handler that stops at the first key: [Parse] returns [false] and
    calls neither the error callback nor [onEndDocument]. *)
Example stop_at_first_key (past : ascii) :
  trace (run text_nested past 1%nat) = [StartDocument; Key "a"]
  /\ returned (run text_nested past 1%nat) = Some false.
Proof. split; vm_compute; reflexivity. Qed.

(** Thirty-one nested levels are more than [YamlStack] holds. *)
Example too_deep (past : ascii) :
  returned (run (str (concat (map (fun n => repeat " "%char n ++ ["a"; ":"; LF]%char)
                                  (seq 0 32)))) past tt) = None.
Proof. vm_compute. reflexivity. Qed.

End Examples.

(** * Properties of the library *)

Section Properties.

#[local] Open Scope nat_scope.

(** C2: a scalar that is not wrapped in quotes and does not hold both
    kinds of quote is returned unchanged by [CreateSafeScalar] when it is
    empty or has no byte below 0x20, above 0x7A or in the special
    punctuation set; otherwise it is returned wrapped on both ends in one
    quote character and with nothing escaped, the double quote when the
    scalar holds a single quote and the single quote when it does not. *)
Theorem CreateSafeScalar_quotes (S : string) :
  (Z.of_nat (length (chars S)) < 2 ^ 64)%Z ->
  ~ wrapped_in_quotes (chars S) ->
  ~ (In SQUOTE (chars S) /\ In DQUOTE (chars S)) ->
  ((forall x, In x (chars S) -> special_byte x = false) ->
     Yaml.CreateSafeScalar S = Some S)
  /\ ((exists x, In x (chars S) /\ special_byte x = true) ->
      exists q, Yaml.CreateSafeScalar S = Some (wrap_in q S)
                /\ (q = SQUOTE \/ q = DQUOTE)
                /\ (q = DQUOTE <-> In SQUOTE (chars S))).
Proof.
  intros Hsize Hw Hboth.
  destruct (chars S) as [|ch0 rest] eqn:Hs.
  { destruct S; [|discriminate Hs]. split; [reflexivity|]. intros [x [[] _]]. }
  assert (Yaml.already_quoted (chars S) = false) as Hq.
  { destruct (Yaml.already_quoted (chars S)) eqn:E; [|reflexivity].
    exfalso. apply Hw. rewrite <- Hs. apply already_quoted_spec. exact E. }
  destruct (GetSpecialChars_spec S) as [Hhas Hquotes];
    [rewrite Hs; exact Hsize|rewrite Hs; discriminate|exact Hq|].
  rewrite Hs in Hhas, Hquotes. unfold Yaml.CreateSafeScalar.
  destruct (Yaml.hasSpecialChars (Yaml.GetSpecialChars S)) eqn:Has.
  - destruct (Hquotes eq_refl) as [Q1 Q2]. clear Hquotes. split.
    + intros Hnone. exfalso. destruct Hhas as [Hx _].
      destruct (Hx eq_refl) as [x [Hin Sp]]. rewrite (Hnone x Hin) in Sp. discriminate.
    + intros _.
      destruct (Yaml.firstSingleQuote (Yaml.GetSpecialChars S) <? kInvalidPos)%Z eqn:E1;
      destruct (Yaml.firstDoubleQuote (Yaml.GetSpecialChars S) <? kInvalidPos)%Z eqn:E2;
      simpl.
      * exfalso. apply Hboth. apply Z.ltb_lt in E1, E2. split; [apply Q1|apply Q2]; assumption.
      * exists DQUOTE. split; [reflexivity|]. split; [right; reflexivity|].
        apply Z.ltb_lt in E1. split; [intros _; apply Q1; exact E1|reflexivity].
      * exists SQUOTE. split; [reflexivity|]. split; [left; reflexivity|].
        apply Z.ltb_ge in E1. split; [discriminate|].
        intros Hin. apply Q1 in Hin. lia.
      * exists SQUOTE. split; [reflexivity|]. split; [left; reflexivity|].
        apply Z.ltb_ge in E1. split; [discriminate|].
        intros Hin. apply Q1 in Hin. lia.
  - split; [reflexivity|]. intros Hx. apply Hhas in Hx. discriminate.
Qed.

Lemma CreateSafeScalar_quotes_witness :
  (Z.of_nat (length (chars "it's")) < 2 ^ 64)%Z
  /\ ~ wrapped_in_quotes (chars "it's")
  /\ ~ (In SQUOTE (chars "it's") /\ In DQUOTE (chars "it's"))
  /\ exists q, Yaml.CreateSafeScalar "it's" = Some (wrap_in q "it's")
               /\ (q = SQUOTE \/ q = DQUOTE)
               /\ (q = DQUOTE <-> In SQUOTE (chars "it's")).
Proof.
  assert (Z.of_nat (length (chars "it's")) < 2 ^ 64)%Z as H1 by reflexivity.
  assert (~ wrapped_in_quotes (chars "it's")) as H2.
  { intros W. apply already_quoted_spec in W. discriminate W. }
  assert (~ (In SQUOTE (chars "it's") /\ In DQUOTE (chars "it's"))) as H3.
  { intros [_ D]. simpl in D. repeat (destruct D as [D|D]; [discriminate D|]). exact D. }
  split; [exact H1|]. split; [exact H2|]. split; [exact H3|].
  apply (proj2 (CreateSafeScalar_quotes "it's" H1 H2 H3)).
  exists SQUOTE. split; [simpl; auto|reflexivity].
Defined.

(** C4 (the code at the failing input): on the scalar [-a-] the table
    holds position 2 for the dash, whose first position is 0, and
    [firstSpecialPos] is 2 although the first special byte is at 0. *)
Theorem dash_position_overwritten :
  Yaml.firstPos (Yaml.build_table (chars "-a-") 0 Yaml.ascii_init !!! nat_of_ascii "-")
  = 2%Z
  /\ first_position (Ascii.eqb "-") (chars "-a-") 0 = Some 0%Z
  /\ Yaml.GetSpecialChars "-a-" = Yaml.mkSpecial 2 kInvalidPos kInvalidPos true "-"
  /\ first_position special_byte (chars "-a-") 0 = Some 0%Z.
Proof. repeat split; vm_compute; reflexivity. Qed.

(** C1 (as stated, refuted): on the text [a:\n  b: 1\n  c: 2\n] the log does
    not end with start-mapping, key a, start-mapping, key b, scalar 1,
    key c, scalar 2, end-mapping, end-mapping, end-document: it is shorter
    than that. *)
Lemma nested_not_two_mappings :
  ~ exists pre,
      trace (run text_nested NUL tt)
      = pre ++ [StartMapping; Key "a"; StartMapping; Key "b"; Scalar "1";
                Key "c"; Scalar "2"; EndMapping; EndMapping; EndDocument].
Proof.
  intros [pre E].
  assert (length (trace (run text_nested NUL tt)) = 9) as L by (vm_compute; reflexivity).
  rewrite E, length_app in L. simpl in L. lia.
Qed.

(** C1 (amended): on the text [a:\n  b: 1\n  c: 2\n], with a handler that
    never stops, [Parse] returns [true] after exactly these calls:
    start-document, key a, start-mapping, key b, scalar 1, key c, scalar 2,
    end-mapping, end-document.  The deeper indentation opens one mapping and
    the end of the text closes it; the mapping at the root has no events of
    its own. *)
Theorem nested_events (H : Type) (handler : YamlHandler H) (past : ascii) (h : H) :
  never_stops handler ->
  trace (run text_nested past h)
  = [StartDocument; Key "a"; StartMapping; Key "b"; Scalar "1";
     Key "c"; Scalar "2"; EndMapping; EndDocument]
  /\ returned (run text_nested past h) = Some true.
Proof.
  intros C. destruct (run_erase C text_nested past h) as [-> ->].
  split; vm_compute; reflexivity.
Qed.

Lemma nested_events_witness :
  never_stops DefaultHandler
  /\ trace (run text_nested NUL tt)
     = [StartDocument; Key "a"; StartMapping; Key "b"; Scalar "1";
        Key "c"; Scalar "2"; EndMapping; EndDocument]
  /\ returned (run text_nested NUL tt) = Some true.
Proof.
  assert (never_stops DefaultHandler) as C by (intros s h; split; reflexivity).
  split; [exact C|]. exact (nested_events unit DefaultHandler NUL tt C).
Defined.



(** C5 (the code at the failing input): on the text [key:\n] the log is
    start-document, key, end-document; no scalar [null] is delivered. *)
Theorem key_only_events (past : ascii) :
  trace (run text_key_only past tt) = [StartDocument; Key "key"; EndDocument]
  /\ returned (run text_key_only past tt) = Some true.
Proof. split; vm_compute; reflexivity. Qed.




(** C8 (the code at the failing input): on the text [--] the result of
    [SkipStartDocument] is [false], and [Parse] returns [true] without a
    call of the error callback. *)
Theorem two_dashes_events (past : ascii) :
  fst (SkipStartDocument "--" past (call StartDocument onStartDocument (YamlParser "--" tt)))
  = false
  /\ trace (run "--" past tt) = [StartDocument; EndDocument]
  /\ returned (run "--" past tt) = Some true.
Proof. repeat split; vm_compute; reflexivity. Qed.

(** C7 (as stated, refuted): at the start of the text [- a] the cursor is
    on a dash followed by a space, and the [switch] does not log a
    start-sequence event. *)
Lemma dash_space_not_StartSequence :
  ~ (deref "- a" NUL (curr_ (YamlParser "- a" tt)) = "-"%char ->
     PeekNext "- a" NUL (YamlParser "- a" tt) = " "%char ->
     exists st', dispatch "- a" NUL (YamlParser "- a" tt) = Ret true st'
                 /\ events st' = events (YamlParser "- a" tt) ++ [StartSequence]).
Proof.
  intros C. destruct (C eq_refl eq_refl) as [st' [D E]].
  vm_compute in D. injection D as <-. discriminate E.
Qed.

(** C7 (amended): when the [switch] is entered on a dash that is
    immediately followed by a space, it logs a start-mapping event and
    nothing else, then skips the spaces: the cursor is left on the last
    space of the run that follows the dash. *)
Theorem dash_space_StartMapping (H : Type) (handler : YamlHandler H)
    (yaml : string) (past : ascii) (st : State H) :
  deref yaml past (curr_ st) = "-"%char ->
  PeekNext yaml past st = " "%char ->
  exists st',
    dispatch yaml past st = Ret true st'
    /\ events st' = events st ++ [StartMapping]
    /\ curr_ st < curr_ st'
    /\ (forall k, curr_ st < k <= curr_ st' -> deref yaml past k = " "%char)
    /\ (S (curr_ st') < end_ st' -> deref yaml past (S (curr_ st')) <> " "%char).
Proof.
  intros Hd Hp. unfold dispatch. rewrite Hd, Hp. simpl.
  eexists. split; [reflexivity|].
  destruct (pos_SkipSpaces yaml past (call StartMapping onStartMapping st))
    as (Hc & He & Hs & Hn).
  destruct (quiet_SkipSpaces yaml past (call StartMapping onStartMapping st)) as [_ [evs [Ev _]]].
  assert (events (SkipSpaces yaml past (call StartMapping onStartMapping st))
          = events st ++ [StartMapping]) as Ev'.
  { unfold SkipSpaces. destruct (scan _ _ _ _ _). reflexivity. }
  cbn [curr_ end_ call] in Hc, He, Hs, Hn.
  split; [exact Ev'|]. rewrite He.
  assert (curr_ st < curr_ (SkipSpaces yaml past (call StartMapping onStartMapping st))) as Hlt.
  { destruct (Nat.eq_dec (curr_ (SkipSpaces yaml past (call StartMapping onStartMapping st)))
                         (curr_ st)) as [Heq|Hne]; [|lia].
    exfalso. rewrite Heq in Hn. unfold PeekNext, PeekNext_at in Hp.
    destruct (end_ st <=? curr_ st + 1) eqn:Hle; [discriminate Hp|].
    apply Nat.leb_gt in Hle. replace (curr_ st + 1) with (S (curr_ st)) in * by lia.
    apply Hn; [lia|exact Hp]. }
  split; [exact Hlt|]. split; [|exact Hn].
  intros k Hk. apply Hs. exact Hk.
Qed.

Lemma dash_space_StartMapping_witness :
  deref "- a" NUL (curr_ (YamlParser "- a" tt)) = "-"%char
  /\ PeekNext "- a" NUL (YamlParser "- a" tt) = " "%char
  /\ exists st',
       dispatch "- a" NUL (YamlParser "- a" tt) = Ret true st'
       /\ events st' = events (YamlParser "- a" tt) ++ [StartMapping]
       /\ curr_ (YamlParser "- a" tt) < curr_ st'
       /\ (forall k, curr_ (YamlParser "- a" tt) < k <= curr_ st' ->
             deref "- a" NUL k = " "%char)
       /\ (S (curr_ st') < end_ st' -> deref "- a" NUL (S (curr_ st')) <> " "%char).
Proof.
  split; [reflexivity|]. split; [reflexivity|].
  exact (dash_space_StartMapping unit DefaultHandler "- a" NUL (YamlParser "- a" tt)
           eq_refl eq_refl).
Defined.

(** C9: in every state a parse goes through, the sentinel frame of level 0
    is at the bottom of the indent stack and the levels grow strictly from
    the bottom to the top; the pushes and pops of [Parse] are among the
    steps, so each of them keeps this. *)
Theorem stack_invariant (H : Type) (handler : YamlHandler H)
    (yaml : string) (past : ascii) (h : H) (st : State H) :
  reachable yaml past h st -> stack_ok (yamlStack_ st).
Proof.
  unfold reachable. revert st.
  apply (rtc_ind_r (fun st => stack_ok (yamlStack_ st)) (YamlParser yaml h)).
  - split; simpl; auto.
  - intros st1 st2 _ S12 IH. eapply step_stack_ok; eassumption.
Qed.

Lemma stack_invariant_witness :
  reachable text_nested NUL tt
    (call StartMapping onStartMapping
       (set_stack [mkIndent 2 false; mkIndent 0 false]
          (set_complete true
             (call StartDocument onStartDocument (YamlParser text_nested tt)))))
  /\ stack_ok [mkIndent 2 false; mkIndent 0 false].
Proof.
  assert (reachable text_nested NUL tt
            (call StartMapping onStartMapping
               (set_stack [mkIndent 2 false; mkIndent 0 false]
                  (set_complete true
                     (call StartDocument onStartDocument (YamlParser text_nested tt))))))
    as R.
  { eapply rtc_l; [apply step_StartDocument|]. apply rtc_once.
    eapply step_Push with (indent := mkIndent 2 false) (t := mkIndent 0 false);
      [reflexivity|simpl; lia|reflexivity]. }
  split; [exact R|].
  exact (stack_invariant unit DefaultHandler text_nested NUL tt _ R).
Defined.

(** C10: for every text and every handler, [Parse] comes to an end; its
    first call is [onStartDocument] and it makes no other call of it; it
    calls [onEndDocument] once when it returns [true] and never when it
    returns [false] (or stops on an assertion). *)
Theorem document_events (H : Type) (handler : YamlHandler H)
    (yaml : string) (past : ascii) (h : H) :
  run yaml past h <> Fuel
  /\ (exists rest, trace (run yaml past h) = StartDocument :: rest
                   /\ count isStartDocument rest = 0)
  /\ count isEndDocument (trace (run yaml past h))
     = match returned (run yaml past h) with
       | Some true => 1
       | _ => 0
       end.
Proof.
  unfold run. destruct (Parse_log yaml past (YamlParser yaml h)) as [evs [F L]].
  pose proof (count_inner_start evs F) as CS.
  pose proof (count_inner_end evs F) as CE.
  destruct (Parse yaml past (YamlParser yaml h)) as [[|] st| st|];
    simpl in L; [| | |contradiction]; (split; [discriminate|]); simpl; rewrite L.
  - split.
    + eexists. split; [reflexivity|]. rewrite count_app, CS. reflexivity.
    + change (StartDocument :: evs ++ [EndDocument])
        with ([StartDocument] ++ evs ++ [EndDocument]).
      rewrite !count_app, CE. reflexivity.
  - split.
    + eexists. split; [reflexivity|exact CS].
    + change (StartDocument :: evs) with ([StartDocument] ++ evs).
      rewrite count_app, CE. reflexivity.
  - split.
    + eexists. split; [reflexivity|exact CS].
    + change (StartDocument :: evs) with ([StartDocument] ++ evs).
      rewrite count_app, CE. reflexivity.
Qed.

End Properties.

(** * Further properties of the encoder *)

Section EncoderProperties.

Import Yaml.

Lemma chars_append (a b : string) : chars (a ++ b) = chars a ++ chars b.
Proof. induction a as [|x a IH]; simpl; [reflexivity|]. f_equal. exact IH. Qed.

Lemma chars_wrap_in (q : ascii) (S : string) :
  chars (wrap_in q S) = q :: chars S ++ [q].
Proof. unfold wrap_in. simpl. rewrite chars_append. reflexivity. Qed.

Lemma GetSpecialChars_wrapped (S : string) :
  wrapped_in_quotes (chars S) -> GetSpecialChars S = Special_of false.
Proof.
  intros W. apply already_quoted_spec in W. unfold GetSpecialChars.
  destruct (chars S); [reflexivity|]. rewrite W. reflexivity.
Qed.

Lemma hasSpecialChars_not_wrapped (S : string) :
  hasSpecialChars (GetSpecialChars S) = true ->
  chars S <> [] /\ already_quoted (chars S) = false.
Proof.
  unfold GetSpecialChars. destruct (chars S) as [|ch0 rest]; [discriminate|].
  destruct (already_quoted (ch0 :: rest)); [discriminate|]. split; [discriminate|reflexivity].
Qed.

Lemma hasSpecialChars_spec (S : string) :
  Z.of_nat (length (chars S)) < 2 ^ 64 ->
  (hasSpecialChars (GetSpecialChars S) = true
   <-> ~ wrapped_in_quotes (chars S)
       /\ exists x, In x (chars S) /\ special_byte x = true).
Proof.
  intros Hsize. split.
  - intros Has. destruct (hasSpecialChars_not_wrapped S Has) as [Hne Hq].
    split.
    + intros W. apply already_quoted_spec in W. congruence.
    + apply (GetSpecialChars_spec S Hsize Hne Hq). exact Has.
  - intros [Hw [x [Hx Sp]]].
    assert (already_quoted (chars S) = false) as Hq.
    { destruct (already_quoted (chars S)) eqn:E; [|reflexivity].
      exfalso. apply Hw, already_quoted_spec. exact E. }
    assert (chars S <> []) as Hne by (intros E; rewrite E in Hx; exact Hx).
    apply (GetSpecialChars_spec S Hsize Hne Hq). exists x. auto.
Qed.

(** X1: [GetSpecialChars] reports special characters exactly for the
    scalars that are not wrapped in quotes and hold a byte below 0x20,
    above 0x7A or of the special punctuation. *)
Theorem hasSpecialChars_iff (S : string) :
  Z.of_nat (length (chars S)) < 2 ^ 64 ->
  (hasSpecialChars (GetSpecialChars S) = true
   <-> ~ wrapped_in_quotes (chars S)
       /\ exists x, In x (chars S) /\ special_byte x = true).
Proof. exact (hasSpecialChars_spec S). Qed.

Lemma hasSpecialChars_iff_witness :
  Z.of_nat (length (chars "a b:c")) < 2 ^ 64
  /\ (hasSpecialChars (GetSpecialChars "a b:c") = true
      <-> ~ wrapped_in_quotes (chars "a b:c")
          /\ exists x, In x (chars "a b:c") /\ special_byte x = true).
Proof.
  assert (Z.of_nat (length (chars "a b:c")) < 2 ^ 64) as H1 by reflexivity.
  split; [exact H1|exact (hasSpecialChars_iff "a b:c" H1)].
Defined.

(** X2: when [GetSpecialChars] reports special characters, [firstSpecialPos]
    is a position of the scalar, [specialChar] is the byte at that position
    and it is a special byte; a quote position that is not [kInvalidPos] is
    the position of a quote of that kind. *)
Theorem special_position_sound (S : string) :
  Z.of_nat (length (chars S)) < 2 ^ 64 ->
  hasSpecialChars (GetSpecialChars S) = true ->
  0 <= firstSpecialPos (GetSpecialChars S) < Z.of_nat (length (chars S))
  /\ chars S !! Z.to_nat (firstSpecialPos (GetSpecialChars S))
     = Some (specialChar (GetSpecialChars S))
  /\ special_byte (specialChar (GetSpecialChars S)) = true
  /\ (firstSingleQuote (GetSpecialChars S) <> kInvalidPos ->
      chars S !! Z.to_nat (firstSingleQuote (GetSpecialChars S)) = Some SQUOTE)
  /\ (firstDoubleQuote (GetSpecialChars S) <> kInvalidPos ->
      chars S !! Z.to_nat (firstDoubleQuote (GetSpecialChars S)) = Some DQUOTE).
Proof.
  intros Hsize Has. destruct (hasSpecialChars_not_wrapped S Has) as [Hne Hq].
  revert Has. unfold GetSpecialChars.
  destruct (chars S) as [|ch0 rest] eqn:Hs; [congruence|]. rewrite Hq.
  destruct (build_table_init (ch0 :: rest)) as [L Inv].
  pose proof (build_table_holds_init (ch0 :: rest)) as Holds.
  set (tbl := build_table (ch0 :: rest) 0 ascii_init) in *.
  unfold scan_table. rewrite L.
  destruct (fold_min tbl (seq 0 kAsciiTableSize)
              (mkLowest kInvalidPos kInvalidPos kInvalidPos)) as (_ & _ & M).
  destruct (fold_quote_values tbl (seq 0 kAsciiTableSize)
              (mkLowest kInvalidPos kInvalidPos kInvalidPos)) as [Q1 Q2].
  set (low := fold_left (scan_letter tbl) (seq 0 kAsciiTableSize)
                (mkLowest kInvalidPos kInvalidPos kInvalidPos)) in *.
  destruct (lowestPosition low =? kInvalidPos) eqn:Heq; [discriminate|]. intros _.
  apply Z.eqb_neq in Heq.
  cbn [firstSpecialPos firstSingleQuote firstDoubleQuote specialChar].
  destruct M as [M|(c & Hc & F & Sp & M)]; [simpl in M; congruence|].
  apply in_seq in Hc. assert (c < 256)%nat as Hc' by (unfold kAsciiTableSize in Hc; lia).
  destruct (Holds c Hc' F) as (x & Hx & Ex). destruct (Inv c Hc') as [_ B].
  rewrite M. pose proof (lookup_lt_Some _ _ _ Hx) as Hlt.
  split; [lia|]. rewrite nth_lookup, Hx. simpl. split; [reflexivity|].
  split; [rewrite <- is_special_special_byte, Ex; exact Sp|].
  rewrite Q1, Q2. simpl lowSingleQuote. simpl lowDoubleQuote. split.
  - destruct (existsb _ _ && found (tbl !!! nat_of_ascii SQUOTE)) eqn:E; [|congruence].
    intros _. apply andb_prop in E as [_ Fq].
    destruct (Holds _ (nat_of_ascii_lt SQUOTE) Fq) as (y & Hy & Ey).
    apply nat_of_ascii_inj in Ey. subst y. exact Hy.
  - destruct (existsb _ _ && found (tbl !!! nat_of_ascii DQUOTE)) eqn:E; [|congruence].
    intros _. apply andb_prop in E as [_ Fq].
    destruct (Holds _ (nat_of_ascii_lt DQUOTE) Fq) as (y & Hy & Ey).
    apply nat_of_ascii_inj in Ey. subst y. exact Hy.
Qed.

Lemma special_position_sound_witness :
  Z.of_nat (length (chars "-a-")) < 2 ^ 64
  /\ hasSpecialChars (GetSpecialChars "-a-") = true
  /\ 0 <= firstSpecialPos (GetSpecialChars "-a-") < Z.of_nat (length (chars "-a-"))
  /\ chars "-a-" !! Z.to_nat (firstSpecialPos (GetSpecialChars "-a-"))
     = Some (specialChar (GetSpecialChars "-a-"))
  /\ special_byte (specialChar (GetSpecialChars "-a-")) = true
  /\ (firstSingleQuote (GetSpecialChars "-a-") <> kInvalidPos ->
      chars "-a-" !! Z.to_nat (firstSingleQuote (GetSpecialChars "-a-")) = Some SQUOTE)
  /\ (firstDoubleQuote (GetSpecialChars "-a-") <> kInvalidPos ->
      chars "-a-" !! Z.to_nat (firstDoubleQuote (GetSpecialChars "-a-")) = Some DQUOTE).
Proof.
  assert (Z.of_nat (length (chars "-a-")) < 2 ^ 64) as H1 by reflexivity.
  assert (hasSpecialChars (GetSpecialChars "-a-") = true) as H2 by (vm_compute; reflexivity).
  split; [exact H1|]. split; [exact H2|]. exact (special_position_sound "-a-" H1 H2).
Defined.

Lemma first_position_ext (p p' : ascii -> bool) (l : list ascii) (i : Z) :
  (forall x, p x = p' x) -> first_position p l i = first_position p' l i.
Proof.
  intros E. revert i. induction l as [|x l IH]; intros i; simpl; [reflexivity|].
  rewrite E, IH. reflexivity.
Qed.

Lemma first_position_byte (q : ascii) (l : list ascii) :
  first_position (fun x => (nat_of_ascii x =? nat_of_ascii q)%nat) l 0
  = first_position (Ascii.eqb q) l 0.
Proof.
  apply first_position_ext. intros x.
  destruct (Ascii.eqb q x) eqn:E.
  - apply Ascii.eqb_eq in E. subst x. apply Nat.eqb_refl.
  - apply Nat.eqb_neq. intros N. apply nat_of_ascii_inj in N. subst x.
    rewrite Ascii.eqb_refl in E. discriminate.
Qed.

Lemma not_wrapped_when_first_unique (ch0 : ascii) (rest : list ascii) :
  ~ In ch0 rest -> already_quoted (ch0 :: rest) = false.
Proof.
  intros Hnot. destruct (already_quoted (ch0 :: rest)) eqn:E; [|reflexivity].
  exfalso. apply already_quoted_spec in E as (q & body & _ & _ & E).
  injection E as -> ->. apply Hnot. apply in_or_app. right. left. reflexivity.
Qed.

(** X3: when the first byte of the scalar occurs only once in it,
    [GetSpecialChars] reports no special character if the scalar has no
    special byte, and otherwise the position of the first special byte, the
    byte at that position, and the positions of the first single quote and
    of the first double quote, each [kInvalidPos] when there is none. *)
Theorem GetSpecialChars_first_positions (ch0 : ascii) (rest : string) :
  Z.of_nat (length (chars (String ch0 rest))) < 2 ^ 64 ->
  ~ In ch0 (chars rest) ->
  GetSpecialChars (String ch0 rest)
  = match first_position special_byte (chars (String ch0 rest)) 0 with
    | None => Special_of false
    | Some p =>
        mkSpecial p
          (position_or_invalid (Ascii.eqb SQUOTE) (chars (String ch0 rest)))
          (position_or_invalid (Ascii.eqb DQUOTE) (chars (String ch0 rest)))
          true
          (nth (Z.to_nat p) (chars (String ch0 rest)) NUL)
    end.
Proof.
  intros Hsize Hnot. unfold GetSpecialChars.
  change (chars (String ch0 rest)) with (ch0 :: chars rest) in *.
  rewrite (not_wrapped_when_first_unique ch0 (chars rest) Hnot).
  destruct (build_table_init (ch0 :: chars rest)) as [L Inv].
  pose proof (fun c => build_table_first_init ch0 (chars rest) c Hnot) as First.
  set (S := ch0 :: chars rest) in *.
  set (tbl := build_table S 0 ascii_init) in *.
  assert (forall x, In x S -> found (tbl !!! nat_of_ascii x) = true) as Hfound.
  { intros x Hx. apply (Inv _ (nat_of_ascii_lt x)). exists x. auto. }
  unfold scan_table. rewrite L.
  destruct (fold_min tbl (seq 0 kAsciiTableSize)
              (mkLowest kInvalidPos kInvalidPos kInvalidPos)) as (M1 & _ & M3).
  destruct (fold_quote_values tbl (seq 0 kAsciiTableSize)
              (mkLowest kInvalidPos kInvalidPos kInvalidPos)) as [Q1 Q2].
  set (low := fold_left (scan_letter tbl) (seq 0 kAsciiTableSize)
                (mkLowest kInvalidPos kInvalidPos kInvalidPos)) in *.
  simpl lowestPosition in M3. simpl lowSingleQuote in Q1. simpl lowDoubleQuote in Q2.
  assert (forall q, existsb (Nat.eqb (nat_of_ascii q)) (seq 0 kAsciiTableSize) = true) as Hseq.
  { intros q. apply existsb_exists. exists (nat_of_ascii q). split; [|apply Nat.eqb_refl].
    apply in_seq. pose proof (nat_of_ascii_lt q). unfold kAsciiTableSize. lia. }
  assert (forall q, (if found (tbl !!! nat_of_ascii q)
                     then firstPos (tbl !!! nat_of_ascii q) else kInvalidPos)
                    = position_or_invalid (Ascii.eqb q) S) as Hquote.
  { intros q. unfold position_or_invalid. rewrite <- first_position_byte.
    destruct (found (tbl !!! nat_of_ascii q)) eqn:F.
    - rewrite (First _ (nat_of_ascii_lt q) F). reflexivity.
    - assert (first_position (fun x => (nat_of_ascii x =? nat_of_ascii q)%nat) S 0 = None)
        as ->; [|reflexivity].
      apply first_position_None. intros x Hx. apply Nat.eqb_neq. intros E.
      apply nat_of_ascii_inj in E. subst x. rewrite (Hfound q Hx) in F. discriminate. }
  rewrite Q1, Q2, !Hseq. cbn [andb]. rewrite !Hquote.
  destruct (first_position special_byte S 0) as [p|] eqn:Fp.
  - apply first_position_Some in Fp as (k & x & -> & Hk & Sp & Hmin).
    simpl (0 + Z.of_nat k) in *.
    assert (In x S) as Hx by (apply list_elem_of_In; eapply list_elem_of_lookup_2; exact Hk).
    pose proof (Hfound x Hx) as F.
    assert (firstPos (tbl !!! nat_of_ascii x) = Z.of_nat k) as Ek.
    { pose proof (First _ (nat_of_ascii_lt x) F) as E.
      destruct (first_position_le (fun y => (nat_of_ascii y =? nat_of_ascii x)%nat) S 0 k x Hk
                  (Nat.eqb_refl _)) as (r & Er & Hr).
      rewrite E in Er. injection Er as <-.
      apply first_position_Some in E as (j & y & Ej & Hj & Py & _).
      apply Nat.eqb_eq, nat_of_ascii_inj in Py. subst y.
      destruct (le_lt_dec k j); [lia|].
      rewrite (Hmin j x) in Sp by assumption. discriminate. }
    assert (lowestPosition low <= Z.of_nat k) as Hle.
    { rewrite <- Ek. apply M1; [|exact F|rewrite is_special_special_byte; exact Sp].
      apply in_seq. pose proof (nat_of_ascii_lt x). unfold kAsciiTableSize. lia. }
    pose proof (lookup_lt_Some _ _ _ Hk) as Hlt.
    assert (lowestPosition low <> kInvalidPos) as Hne.
    { rewrite kInvalidPos_eq. unfold S in Hlt. simpl length in *. lia. }
    apply Z.eqb_neq in Hne. rewrite Hne. apply Z.eqb_neq in Hne.
    destruct M3 as [M3|(c & Hc & Fc & Spc & M3)]; [congruence|].
    apply in_seq in Hc. assert (c < 256)%nat as Hc' by (unfold kAsciiTableSize in Hc; lia).
    pose proof (First c Hc' Fc) as E.
    apply first_position_Some in E as (j & y & Ej & Hj & Py & _).
    apply Nat.eqb_eq in Py. subst c.
    assert (k <= j)%nat as Hkj.
    { destruct (le_lt_dec k j); [assumption|].
      rewrite is_special_special_byte in Spc. rewrite (Hmin j y) in Spc by assumption.
      discriminate. }
    assert (lowestPosition low = Z.of_nat k) as -> by lia.
    reflexivity.
  - assert (lowestPosition low = kInvalidPos) as ->; [|reflexivity].
    destruct M3 as [M3|(c & Hc & Fc & Spc & M3)]; [exact M3|]. exfalso.
    apply in_seq in Hc. assert (c < 256)%nat as Hc' by (unfold kAsciiTableSize in Hc; lia).
    destruct (Inv c Hc') as [Fi _]. apply Fi in Fc as (x & Hx & <-).
    rewrite is_special_special_byte in Spc.
    rewrite (proj1 (first_position_None special_byte S 0) Fp x Hx) in Spc. discriminate.
Qed.

Lemma GetSpecialChars_first_positions_witness :
  Z.of_nat (length (chars (String "i" "t's"))) < 2 ^ 64
  /\ ~ In "i"%char (chars "t's")
  /\ GetSpecialChars (String "i" "t's")
     = match first_position special_byte (chars (String "i" "t's")) 0 with
       | None => Special_of false
       | Some p =>
           mkSpecial p
             (position_or_invalid (Ascii.eqb SQUOTE) (chars (String "i" "t's")))
             (position_or_invalid (Ascii.eqb DQUOTE) (chars (String "i" "t's")))
             true
             (nth (Z.to_nat p) (chars (String "i" "t's")) NUL)
       end.
Proof.
  assert (Z.of_nat (length (chars (String "i" "t's"))) < 2 ^ 64) as H1 by reflexivity.
  assert (~ In "i"%char (chars "t's")) as H2.
  { simpl. intros D. repeat (destruct D as [D|D]; [discriminate D|]). exact D. }
  split; [exact H1|]. split; [exact H2|].
  exact (GetSpecialChars_first_positions "i" "t's" H1 H2).
Defined.

(** X4: [CreateSafeScalar] leaves its own result unchanged: what it returns
    is returned as it is when it is encoded again. *)
Theorem CreateSafeScalar_idempotent (S Y : string) :
  CreateSafeScalar S = Some Y -> CreateSafeScalar Y = Some Y.
Proof.
  unfold CreateSafeScalar at 1.
  destruct (hasSpecialChars (GetSpecialChars S)) eqn:Has.
  - destruct (hasSpecialChars_not_wrapped S Has) as [Hne _].
    destruct (_ && _); [discriminate|]. intros E. injection E as <-.
    set (q := if firstSingleQuote (GetSpecialChars S) <? kInvalidPos then DQUOTE else SQUOTE).
    assert (wrapped_in_quotes (chars (wrap_in q S))) as W.
    { exists q, (chars S). split; [|split; [exact Hne|apply chars_wrap_in]].
      unfold q. destruct (_ <? _); auto. }
    unfold CreateSafeScalar. fold (wrap_in q S).
    rewrite (GetSpecialChars_wrapped _ W). reflexivity.
  - intros E. injection E as <-. unfold CreateSafeScalar. rewrite Has. reflexivity.
Qed.

Lemma CreateSafeScalar_idempotent_witness :
  CreateSafeScalar "12:30" = Some "'12:30'"%string
  /\ CreateSafeScalar "'12:30'" = Some "'12:30'"%string.
Proof.
  assert (CreateSafeScalar "12:30" = Some "'12:30'"%string) as H1 by (vm_compute; reflexivity).
  split; [exact H1|exact (CreateSafeScalar_idempotent "12:30" "'12:30'" H1)].
Defined.

(** X5: the assertion of [CreateSafeScalar] fails exactly on the scalars
    that are not wrapped in quotes and hold both a single quote and a
    double quote; on every other scalar a text is returned. *)
Theorem CreateSafeScalar_None_iff (S : string) :
  Z.of_nat (length (chars S)) < 2 ^ 64 ->
  (CreateSafeScalar S = None
   <-> ~ wrapped_in_quotes (chars S)
       /\ In SQUOTE (chars S) /\ In DQUOTE (chars S)).
Proof.
  intros Hsize. unfold CreateSafeScalar.
  destruct (hasSpecialChars (GetSpecialChars S)) eqn:Has.
  - destruct (hasSpecialChars_not_wrapped S Has) as [Hne Hq].
    destruct (GetSpecialChars_spec S Hsize Hne Hq) as [_ Hquotes].
    destruct (Hquotes Has) as [Q1 Q2].
    assert (~ wrapped_in_quotes (chars S)) as Hw.
    { intros W. apply already_quoted_spec in W. congruence. }
    destruct (firstDoubleQuote (GetSpecialChars S) <? kInvalidPos) eqn:E2;
    destruct (firstSingleQuote (GetSpecialChars S) <? kInvalidPos) eqn:E1; cbn [andb].
    + apply Z.ltb_lt in E1, E2. split; [|reflexivity]. intros _.
      split; [exact Hw|]. split; [apply Q1|apply Q2]; assumption.
    + apply Z.ltb_ge in E1. split; [discriminate|]. intros (_ & I1 & _).
      apply Q1 in I1. lia.
    + apply Z.ltb_ge in E2. split; [discriminate|]. intros (_ & _ & I2).
      apply Q2 in I2. lia.
    + apply Z.ltb_ge in E2. split; [discriminate|]. intros (_ & _ & I2).
      apply Q2 in I2. lia.
  - split; [discriminate|]. intros (Hw & I1 & _). exfalso.
    assert (hasSpecialChars (GetSpecialChars S) = true); [|congruence].
    apply (hasSpecialChars_spec S Hsize). split; [exact Hw|].
    exists SQUOTE. split; [exact I1|reflexivity].
Qed.

Lemma CreateSafeScalar_None_iff_witness :
  Z.of_nat (length (chars (String SQUOTE (String DQUOTE "!")))) < 2 ^ 64
  /\ (CreateSafeScalar (String SQUOTE (String DQUOTE "!")) = None
      <-> ~ wrapped_in_quotes (chars (String SQUOTE (String DQUOTE "!")))
          /\ In SQUOTE (chars (String SQUOTE (String DQUOTE "!")))
          /\ In DQUOTE (chars (String SQUOTE (String DQUOTE "!")))).
Proof.
  assert (Z.of_nat (length (chars (String SQUOTE (String DQUOTE "!")))) < 2 ^ 64) as H1
    by (vm_compute; reflexivity).
  split; [exact H1|exact (CreateSafeScalar_None_iff (String SQUOTE (String DQUOTE "!")) H1)].
Defined.

Lemma string_app_assoc (a b c : string) : ((a ++ b) ++ c = a ++ (b ++ c))%string.
Proof. induction a as [|x a IH]; simpl; [reflexivity|]. f_equal. exact IH. Qed.

Lemma string_app_nil_r (a : string) : (a ++ "" = a)%string.
Proof. induction a as [|x a IH]; simpl; [reflexivity|]. f_equal. exact IH. Qed.

(** The loop of [CreateSequence] once the first entry is written. *)
Lemma CreateSequence_loop_rest {A : Type} (item : A -> option string) (c : list A) :
  forall (t yaml : string),
  CreateSequence_loop item c false (yaml ++ t)
  = match render_all item c with
    | Some ts => Some (yaml ++ join ", " (t :: ts))%string
    | None => None
    end.
Proof.
  induction c as [|s rest IH]; intros t yaml; simpl.
  - reflexivity.
  - destruct (item s) as [u|]; [|reflexivity].
    replace (((yaml ++ t) ++ ", ") ++ u)%string with ((yaml ++ t ++ ", ") ++ u)%string
      by (rewrite !string_app_assoc; reflexivity).
    rewrite IH. destruct (render_all item rest) as [ts|]; [|reflexivity].
    f_equal. rewrite !string_app_assoc. reflexivity.
Qed.

Lemma CreateSequence_formula {A : Type} (item : A -> option string) (c : list A) :
  CreateSequence item c
  = match render_all item c with
    | Some ts => Some ("[" ++ join ", " ts ++ "]")%string
    | None => None
    end.
Proof.
  destruct c as [|s [|s' rest]].
  - reflexivity.
  - simpl. destruct (item s); reflexivity.
  - unfold CreateSequence. cbn [CreateSequence_loop].
    cbn [render_all]. destruct (item s) as [t|]; [|reflexivity].
    destruct (item s') as [t'|]; [|reflexivity].
    rewrite (CreateSequence_loop_rest item rest t' (("[" ++ t) ++ ", ")).
    destruct (render_all item rest) as [ts|]; [|reflexivity].
    f_equal. cbn [join]. rewrite !string_app_assoc. reflexivity.
Qed.

(** X6: [CreateSequence] returns the texts of the elements between
    brackets, with a comma and a space between two of them and nothing
    before the first or after the last; the container with one element and
    the longer ones are written the same way, the empty one is [[]], and no
    text is returned exactly when an element has none. *)
Theorem CreateSequence_joined {A : Type} (item : A -> option string) (c : list A) :
  CreateSequence item c
  = match render_all item c with
    | Some ts => Some ("[" ++ join ", " ts ++ "]")%string
    | None => None
    end.
Proof. exact (CreateSequence_formula item c). Qed.

End EncoderProperties.

(** * Further properties of the scanner *)

(** ** Trailing blanks *)

Section Trimming.

#[local] Open Scope nat_scope.

Lemma find_last_not_of_space_le (l : list ascii) :
  find_last_not_of_space l <= length l.
Proof.
  induction l as [|c l IH]; simpl; [lia|].
  destruct (find_last_not_of_space l); [destruct (Ascii.eqb c SPACE); lia|lia].
Qed.

Lemma find_last_not_of_space_drop (l : list ascii) :
  drop (find_last_not_of_space l) l = repeat SPACE (length l - find_last_not_of_space l).
Proof.
  induction l as [|c l IH]; [reflexivity|]. simpl find_last_not_of_space.
  pose proof (find_last_not_of_space_le l) as Hle.
  destruct (find_last_not_of_space l) as [|n] eqn:E.
  - rewrite drop_0, Nat.sub_0_r in IH.
    destruct (Ascii.eqb c SPACE) eqn:Hc.
    + apply Ascii.eqb_eq in Hc. subst c. rewrite drop_0.
      simpl. f_equal. exact IH.
    + simpl. rewrite drop_0, Nat.sub_0_r. exact IH.
  - simpl drop. rewrite IH. simpl length. reflexivity.
Qed.

Lemma find_last_not_of_space_last (l : list ascii) :
  last (take (find_last_not_of_space l) l) <> Some SPACE.
Proof.
  induction l as [|c l IH]; simpl; [discriminate|].
  destruct (find_last_not_of_space l) as [|n] eqn:E.
  - destruct (Ascii.eqb c SPACE) eqn:Hc; simpl; [discriminate|].
    intros Q. injection Q as ->. discriminate Hc.
  - simpl take. destruct l as [|c' l]; [discriminate E|].
    simpl take in *. exact IH.
Qed.

(** X7: the text [ExtractStr] returns when it trims is the untrimmed text
    without the spaces at its end: the untrimmed one is the trimmed one
    followed by spaces only, and the trimmed one does not end with a
    space. *)
Theorem ExtractStr_trims (yaml : string) (past : ascii) (start stop : nat) :
  (exists n, chars (ExtractStr yaml past start stop No)
             = chars (ExtractStr yaml past start stop Yes) ++ repeat SPACE n)
  /\ last (chars (ExtractStr yaml past start stop Yes)) <> Some SPACE.
Proof.
  unfold ExtractStr, chars, str. rewrite !list_ascii_of_string_of_list_ascii.
  set (l := map (deref yaml past) (seq start (stop - start))). split.
  - exists (length l - find_last_not_of_space l).
    rewrite <- find_last_not_of_space_drop. symmetry. apply take_drop.
  - apply find_last_not_of_space_last.
Qed.

End Trimming.

(** ** Keys, values and errors in the log *)

Section Actions.

#[local] Open Scope nat_scope.

Context {H : Type} {handler : YamlHandler H}.
Variable yaml : string.
Variable past : ascii.

Implicit Types st : State H.

Lemma acts_of_Ret (b : bool) st st' :
  rtc act (view st) (view st') -> acts_of st (Ret b st').
Proof. destruct b; simpl; auto. Qed.

Lemma acts_of_trans st1 st2 (r : Result H) :
  rtc act (view st1) (view st2) -> acts_of st2 r -> acts_of st1 r.
Proof.
  intros R. destruct r as [[|] st'| st'|]; simpl; [| | |auto].
  - apply rtc_trans. exact R.
  - intros [A|(l & msg & line & col & A & E)].
    + left. eapply rtc_trans; eassumption.
    + right. exists l, msg, line, col. split; [eapply rtc_trans; eassumption|exact E].
  - intros [c A]. exists c. eapply rtc_trans; eassumption.
Qed.

Lemma acts_Error msg st : acts_of st (Error msg st).
Proof.
  unfold Error. simpl. right. exists (events st), msg, (line_ st), (col_ st).
  split; [apply rtc_refl|reflexivity].
Qed.

Lemma acts_HandleMissingNull st :
  rtc act (view st) (view (HandleMissingNull st))
  /\ completeKeyValuePair_ (HandleMissingNull st) = true.
Proof.
  unfold HandleMissingNull, ask, view.
  destruct (completeKeyValuePair_ st) eqn:C.
  - rewrite C. split; [apply rtc_refl|reflexivity].
  - destruct (onScalar _ _) as [b h]. simpl. split; [|reflexivity].
    apply rtc_once. apply act_null.
Qed.

Lemma view_GetIndent st : view (fst (GetIndent yaml past st)) = view st.
Proof. unfold GetIndent. destruct (scan _ _ _ _ _). reflexivity. Qed.

Lemma view_SkipStartDocument st : view (snd (SkipStartDocument yaml past st)) = view st.
Proof. unfold SkipStartDocument. destruct (scan _ _ _ _ _). reflexivity. Qed.

Lemma view_SkipSpaces st : view (SkipSpaces yaml past st) = view st.
Proof. unfold SkipSpaces. destruct (scan _ _ _ _ _). reflexivity. Qed.

Lemma view_SkipLine st : view (SkipLine yaml past st) = view st.
Proof.
  unfold SkipLine. destruct (scan _ _ _ _ _). destruct (_ <? _); reflexivity.
Qed.

Lemma acts_OutputScalar s st : acts_of st (OutputScalar yaml past s st).
Proof.
  unfold OutputScalar, call_onKey, call_onScalar, ask.
  destruct (Ascii.eqb _ _).
  - destruct (acts_HandleMissingNull (set_curr (pred (curr_ st)) st)) as [A C].
    simpl yamlHandler_.
    destruct (onKey s _) as [b h]. apply acts_of_Ret.
    eapply rtc_r; [exact A|]. unfold view at 1 2. simpl. rewrite C.
    apply act_key.
  - simpl yamlHandler_. destruct (onScalar s _) as [b h]. apply acts_of_Ret.
    apply rtc_once. apply act_scalar.
Qed.

Lemma acts_ParsePlain st : acts_of st (ParsePlain yaml past st).
Proof.
  unfold ParsePlain. destruct (scan _ _ _ _ _) as [p u]. destruct (_ <? _).
  - eapply acts_of_trans; [|apply acts_OutputScalar]. apply rtc_refl.
  - unfold call_onScalar, ask. simpl yamlHandler_.
    destruct (onScalar _ _) as [b h]. apply acts_of_Ret.
    apply rtc_once. apply act_scalar.
Qed.

Lemma acts_ParseQuoted quote st : acts_of st (ParseQuoted yaml past quote st).
Proof.
  unfold ParseQuoted. destruct (scan _ _ _ _ _) as [p u]. destruct (_ <? _).
  - destruct (scan _ _ _ _ _) as [q u'].
    eapply acts_of_trans; [|apply acts_OutputScalar]. apply rtc_refl.
  - eapply acts_of_trans; [|apply acts_Error]. apply rtc_refl.
Qed.

Lemma acts_ParseNode st : acts_of st (ParseNode yaml past st).
Proof.
  unfold ParseNode.
  destruct (Ascii.eqb _ _); [apply acts_ParseQuoted|].
  destruct (Ascii.eqb _ _); [apply acts_ParseQuoted|apply acts_ParsePlain].
Qed.

Lemma acts_dispatch st : acts_of st (dispatch yaml past st).
Proof.
  unfold dispatch.
  destruct (acts_HandleMissingNull st) as [A C].
  repeat match goal with
  | |- context [if ?b then _ else _] => destruct b
  end;
  try apply acts_ParseNode; try apply acts_Error;
  cbn [acts_of];
  rewrite ?view_SkipSpaces, ?view_SkipStartDocument, ?view_SkipLine;
  try apply rtc_refl.
  - apply rtc_once. apply act_entry.
  - apply rtc_once. apply act_open. left. reflexivity.
  - eapply rtc_r; [exact A|]. unfold view at 1 2. simpl. rewrite C.
    apply act_close. left. reflexivity.
  - apply rtc_once. apply act_open. right. reflexivity.
  - eapply rtc_r; [exact A|]. unfold view at 1 2. simpl. rewrite C.
    apply act_close. right. reflexivity.
Qed.

Lemma acts_Push indent st : acts_of st (Push indent st).
Proof.
  unfold Push. destruct (push _ _) as [s|]; simpl.
  - apply rtc_once. destruct (isSequence indent); apply act_open; auto.
  - exists (completeKeyValuePair_ st). apply rtc_refl.
Qed.

Lemma acts_Pop st : acts_of st (Pop st).
Proof.
  unfold Pop. destruct (_ =? _); [apply acts_Error|].
  destruct (acts_HandleMissingNull st) as [A C].
  destruct (yamlStack_ (HandleMissingNull st)) as [|t s]; simpl.
  - exists (completeKeyValuePair_ (HandleMissingNull st)). exact A.
  - eapply rtc_r; [exact A|]. unfold view at 1 2.
    destruct (isSequence t); simpl; rewrite C; apply act_close; auto.
Qed.

Lemma acts_Pop_while fuel indent st : acts_of st (Pop_while fuel indent st).
Proof.
  revert st. induction fuel as [|fuel IH]; intros st; simpl; [exact I|].
  destruct (top _); [|exists (completeKeyValuePair_ st); apply rtc_refl].
  destruct (_ <? _)%Z; [|apply rtc_refl].
  pose proof (acts_Pop st) as P.
  destruct (Pop st) as [[|] st'| |]; try exact P.
  eapply acts_of_trans; [exact P|apply IH].
Qed.

Lemma acts_indentation st : acts_of st (indentation yaml past st).
Proof.
  unfold indentation. destruct (col_ st =? 1)%Z; [|apply rtc_refl].
  pose proof (view_GetIndent st) as V.
  destruct (GetIndent yaml past st) as [st1 indent]. cbn [fst] in V.
  destruct (_ =? _)%Z; [simpl; rewrite V; apply rtc_refl|].
  destruct (top _).
  - destruct (_ <? _)%Z.
    + eapply acts_of_trans; [|apply acts_Push]. rewrite V. apply rtc_refl.
    + eapply acts_of_trans; [|apply acts_Pop_while]. rewrite V. apply rtc_refl.
  - exists (completeKeyValuePair_ st1). fold (view st1). rewrite V. apply rtc_refl.
Qed.

Lemma acts_body st : acts_of st (body yaml past st).
Proof.
  unfold body. pose proof (acts_indentation st) as P.
  destruct (indentation yaml past st) as [[|] st'| |]; try exact P.
  eapply acts_of_trans; [exact P|apply acts_dispatch].
Qed.

Lemma acts_Parse_loop fuel st : acts_of st (Parse_loop yaml past fuel st).
Proof.
  revert st. induction fuel as [|fuel IH]; intros st; simpl; [exact I|].
  destruct (curr_ st <? end_ st); [|apply rtc_refl].
  pose proof (acts_body st) as P.
  destruct (body yaml past st) as [[|] st'| |]; try exact P.
  eapply acts_of_trans; [exact P|].
  eapply acts_of_trans; [|apply IH]. apply rtc_refl.
Qed.

Lemma acts_unwind fuel st : acts_of st (unwind fuel st).
Proof.
  revert st. induction fuel as [|fuel IH]; intros st; simpl; [exact I|].
  destruct (1 <? length (yamlStack_ st)) eqn:L; [|apply rtc_refl].
  apply Nat.ltb_lt in L.
  pose proof (acts_Pop st) as P. pose proof (Pop_true st) as T.
  destruct (Pop st) as [b st'| |]; try exact P.
  rewrite (T b st' L eq_refl) in P.
  eapply acts_of_trans; [exact P|apply IH].
Qed.

Lemma unwind_returns_true fuel st b st' : unwind fuel st = Ret b st' -> b = true.
Proof.
  revert st. induction fuel as [|fuel IH]; intros st; simpl; [discriminate|].
  destruct (1 <? length (yamlStack_ st)).
  - destruct (Pop st) as [b0 st0| |]; [apply IH|discriminate|discriminate].
  - intros E. injection E as <- _. reflexivity.
Qed.

(** The log of [Parse] in these terms. *)
Lemma acts_run (h : H) :
  exists c l,
    rtc act (true, [StartDocument]) (c, l)
    /\ match run yaml past h with
       | Ret true st => events st = l ++ [EndDocument]
       | Ret false st =>
           events st = l \/ exists msg line col, events st = l ++ [ErrorAt msg line col]
       | Abort st => events st = l
       | Fuel => False
       end.
Proof.
  pose proof (no_Fuel_Parse yaml past (YamlParser yaml h)) as NF. revert NF.
  unfold run, Parse.
  pose proof (acts_Parse_loop
     (S (end_ (call StartDocument onStartDocument (YamlParser yaml h))
         - curr_ (call StartDocument onStartDocument (YamlParser yaml h))))
     (call StartDocument onStartDocument (YamlParser yaml h))) as L.
  change (view (call StartDocument onStartDocument (YamlParser yaml h)))
    with (true, [StartDocument]) in L.
  destruct (Parse_loop _ _ _ _) as [[|] st1| st1|]; cbn [acts_of] in L.
  - pose proof (acts_unwind (S (length (yamlStack_ st1))) st1) as U.
    pose proof (unwind_returns_true (S (length (yamlStack_ st1))) st1) as T.
    destruct (unwind _ _) as [b st2| st2|]; intros NF.
    + exists (completeKeyValuePair_ st2), (events st2). split; [|reflexivity].
      eapply rtc_trans; [exact L|].
      rewrite (T b st2 eq_refl) in U. exact U.
    + destruct U as [c U]. exists c, (events st2). split; [|reflexivity].
      eapply rtc_trans; eassumption.
    + congruence.
  - intros _. destruct L as [L|(l & msg & line & col & L & E)].
    + exists (completeKeyValuePair_ st1), (events st1). split; [exact L|left; reflexivity].
    + exists (completeKeyValuePair_ st1), l. split; [exact L|right; eauto].
  - intros _. destruct L as [c L]. exists c, (events st1). split; [exact L|reflexivity].
  - congruence.
Qed.

End Actions.

Section LogShape.

#[local] Open Scope nat_scope.

Lemma keys_answered_snoc (l : list Event) (e : Event) :
  keys_answered (l ++ [e])
  = keys_answered l
    && negb (match last l with
             | Some k => isKey k && leaves_key_open e
             | None => false
             end).
Proof.
  induction l as [|x l IH]; [reflexivity|].
  destruct l as [|y l].
  - simpl. rewrite !andb_true_r. reflexivity.
  - change (keys_answered ((x :: y :: l) ++ [e]))
      with (negb (isKey x && leaves_key_open y) && keys_answered ((y :: l) ++ [e])).
    rewrite IH. change (last (x :: y :: l)) with (last (y :: l)).
    change (keys_answered (x :: y :: l))
      with (negb (isKey x && leaves_key_open y) && keys_answered (y :: l)).
    rewrite andb_assoc. reflexivity.
Qed.

Lemma count_snoc (p : Event -> bool) (l : list Event) (e : Event) :
  count p (l ++ [e]) = count p l + (if p e then 1 else 0).
Proof. rewrite count_app. unfold count. simpl. destruct (p e); reflexivity. Qed.

(** What the actions keep: the keys are answered, a key is the last event
    only while the flag is down, and the error callback was not called. *)
Lemma act_keeps (v v' : bool * list Event) :
  act v v' ->
  keys_answered (snd v) = true
  /\ (fst v = true -> forall k, last (snd v) = Some k -> isKey k = false)
  /\ count isErrorAt (snd v) = 0 ->
  keys_answered (snd v') = true
  /\ (fst v' = true -> forall k, last (snd v') = Some k -> isKey k = false)
  /\ count isErrorAt (snd v') = 0.
Proof.
  intros A (K & L & E).
  destruct A as [l|l s|c l s|c l e He|c l|l e He]; simpl in *;
    rewrite keys_answered_snoc, K, count_snoc, E, last_snoc; simpl.
  - repeat split. + destruct (last l) as [k|]; [destruct (isKey k)|]; reflexivity.
    + intros _ k Q. injection Q as <-. reflexivity.
  - repeat split.
    + destruct (last l) as [k|] eqn:Q; [|reflexivity].
      rewrite (L eq_refl k eq_refl). reflexivity.
    + discriminate.
  - repeat split. + destruct (last l) as [k|]; [destruct (isKey k)|]; reflexivity.
    + intros _ k Q. injection Q as <-. reflexivity.
  - repeat split.
    + destruct He as [-> | ->]; destruct (last l) as [k|]; try destruct (isKey k); reflexivity.
    + intros _ k Q. injection Q as <-. destruct He as [-> | ->]; reflexivity.
    + destruct He as [-> | ->]; reflexivity.
  - repeat split. + destruct (last l) as [k|]; [destruct (isKey k)|]; reflexivity.
    + intros _ k Q. injection Q as <-. reflexivity.
  - repeat split.
    + destruct (last l) as [k|] eqn:Q.
      * rewrite (L eq_refl k eq_refl). reflexivity.
      * reflexivity.
    + intros _ k Q. injection Q as <-. destruct He as [-> | ->]; reflexivity.
    + destruct He as [-> | ->]; reflexivity.
Qed.

Lemma acts_keep (c : bool) (l : list Event) :
  rtc act (true, [StartDocument]) (c, l) ->
  keys_answered l = true
  /\ (c = true -> forall k, last l = Some k -> isKey k = false)
  /\ count isErrorAt l = 0.
Proof.
  intros R.
  change (keys_answered (snd (c, l)) = true
          /\ (fst (c, l) = true -> forall k, last (snd (c, l)) = Some k -> isKey k = false)
          /\ count isErrorAt (snd (c, l)) = 0).
  revert R. generalize (c, l). clear c l.
  apply (rtc_ind_r
           (fun v => keys_answered (snd v) = true
                     /\ (fst v = true -> forall k, last (snd v) = Some k -> isKey k = false)
                     /\ count isErrorAt (snd v) = 0)
           (true, [StartDocument])).
  - simpl. repeat split. intros _ k Q. injection Q as <-. reflexivity.
  - intros v1 v2 _ A IH. eapply act_keeps; eassumption.
Qed.

End LogShape.

Section LogProperties.

#[local] Open Scope nat_scope.

Context {H : Type} {handler : YamlHandler H}.
Variable yaml : string.
Variable past : ascii.


(** X9: [Parse] calls the error callback at most once; when it does, this
    is the last call it makes and it returns [false]. *)
Theorem error_is_last (h : H) :
  count isErrorAt (trace (run yaml past h)) = 0
  \/ (returned (run yaml past h) = Some false
      /\ exists l msg line col,
           trace (run yaml past h) = l ++ [ErrorAt msg line col]
           /\ count isErrorAt l = 0).
Proof.
  destruct (acts_run yaml past h) as (c & l & R & E).
  destruct (acts_keep c l R) as (_ & _ & N).
  destruct (run yaml past h) as [[|] st| st|]; simpl; [| | |contradiction].
  - left. rewrite E, count_snoc, N. reflexivity.
  - destruct E as [->|(msg & line & col & ->)]; [left; exact N|].
    right. split; [reflexivity|]. exists l, msg, line, col. auto.
  - left. rewrite E. exact N.
Qed.

End LogProperties.

(** ** Why a parse fails *)

Section Failures.

#[local] Open Scope nat_scope.

Variable yaml : string.
Variable past : ascii.

Implicit Types st : State unit.

(** With the base class for a handler, a member function returns [false]
    only after the error callback. *)
Lemma false_ParsePlain st st' : ParsePlain yaml past st <> Ret false st'.
Proof.
  unfold ParsePlain. destruct (scan _ _ _ _ _) as [p u]. destruct (_ <? _).
  - destruct (OutputScalar_continues yaml past (ExtractStr yaml past (curr_ st) p Yes)
                (set_col (wrap (col_ (set_curr p st) + Z.of_nat (p - curr_ st)))
                         (set_curr p st))) as [st1 E].
    rewrite E. discriminate.
  - discriminate.
Qed.

Lemma false_ParseQuoted quote st st' :
  ParseQuoted yaml past quote st = Ret false st' -> errored (events st').
Proof.
  unfold ParseQuoted. destruct (scan _ _ _ _ _) as [p u]. destruct (_ <? _).
  - destruct (scan _ _ _ _ _) as [q u'].
    match goal with
    | |- OutputScalar yaml past ?s ?x = _ -> _ =>
        destruct (OutputScalar_continues yaml past s x) as [st1 E]
    end.
    rewrite E. discriminate.
  - unfold Error. intros E. injection E as <-. eexists _, _, _, _. reflexivity.
Qed.

Lemma false_ParseNode st st' :
  ParseNode yaml past st = Ret false st' -> errored (events st').
Proof.
  unfold ParseNode.
  destruct (Ascii.eqb _ _); [apply false_ParseQuoted|].
  destruct (Ascii.eqb _ _); [apply false_ParseQuoted|].
  intros E. exfalso. exact (false_ParsePlain _ _ E).
Qed.

Lemma false_dispatch st st' :
  dispatch yaml past st = Ret false st' -> errored (events st').
Proof.
  unfold dispatch.
  repeat match goal with
  | |- context [if ?b then _ else _] => destruct b
  end; try apply false_ParseNode; try discriminate;
  unfold Error; intros E; injection E as <-; eexists _, _, _, _; reflexivity.
Qed.

Lemma false_indentation st st' :
  indentation yaml past st = Ret false st' -> errored (events st').
Proof.
  unfold indentation. destruct (col_ st =? 1)%Z; [|discriminate].
  destruct (GetIndent yaml past st) as [st1 indent].
  destruct (_ =? _)%Z; [discriminate|].
  destruct (top _); [|discriminate].
  destruct (_ <? _)%Z; intros E.
  - exfalso. exact (tab_Push _ _ _ E).
  - eapply tab_Pop_while. exact E.
Qed.

Lemma false_body st st' :
  body yaml past st = Ret false st' -> errored (events st').
Proof.
  unfold body. destruct (indentation yaml past st) as [[|] st1| st1|] eqn:I;
    try discriminate.
  - apply false_dispatch.
  - intros E. injection E as <-. eapply false_indentation. exact I.
Qed.

Lemma false_Parse_loop fuel st st' :
  Parse_loop yaml past fuel st = Ret false st' -> errored (events st').
Proof.
  revert st. induction fuel as [|fuel IH]; intros st; simpl; [discriminate|].
  destruct (_ <? _); [|discriminate].
  destruct (body yaml past st) as [[|] st1| st1|] eqn:B; try discriminate.
  - apply IH.
  - intros E. injection E as <-. eapply false_body. exact B.
Qed.

Lemma false_run :
  returned (run yaml past tt) = Some false -> errored (trace (run yaml past tt)).
Proof.
  unfold run, Parse.
  destruct (Parse_loop _ _ _ _) as [[|] st1| st1|] eqn:L.
  - destruct (unwind _ _) as [b st2| st2|]; discriminate.
  - intros _. simpl. eapply false_Parse_loop. exact L.
  - discriminate.
  - discriminate.
Qed.

End Failures.

Section HandlerProperties.

(** X10: a handler that never stops changes nothing to the scan: the calls
    made to it and the value [Parse] returns are those of a parse of the same
    text with the base class, whatever the handler does with the calls. *)
Theorem handler_cannot_steer (H : Type) (handler : YamlHandler H)
    (yaml : string) (past : ascii) (h : H) :
  never_stops handler ->
  trace (run yaml past h) = trace (run yaml past tt)
  /\ returned (run yaml past h) = returned (run yaml past tt).
Proof. intros C. exact (run_erase C yaml past h). Qed.

Lemma handler_cannot_steer_witness :
  never_stops Collect
  /\ trace (run text_nested NUL ([] : list string)) = trace (run text_nested NUL tt)
  /\ returned (run text_nested NUL ([] : list string)) = returned (run text_nested NUL tt).
Proof.
  assert (never_stops Collect) as C by (intros s h; split; reflexivity).
  split; [exact C|].
  exact (handler_cannot_steer (list string) Collect text_nested NUL [] C).
Defined.

(** X11: with a handler that never stops, [Parse] returns [false] only
    after it has called the error callback, as its last call. *)
Theorem failure_comes_with_error (H : Type) (handler : YamlHandler H)
    (yaml : string) (past : ascii) (h : H) :
  never_stops handler ->
  returned (run yaml past h) = Some false ->
  errored (trace (run yaml past h)).
Proof.
  intros C. destruct (run_erase C yaml past h) as [-> ->]. apply false_run.
Qed.

Lemma failure_comes_with_error_witness :
  never_stops Collect
  /\ returned (run "a: |" NUL ([] : list string)) = Some false
  /\ errored (trace (run "a: |" NUL ([] : list string))).
Proof.
  assert (never_stops Collect) as C by (intros s h; split; reflexivity).
  assert (returned (run "a: |" NUL ([] : list string)) = Some false) as R
    by (vm_compute; reflexivity).
  split; [exact C|]. split; [exact R|].
  exact (failure_comes_with_error (list string) Collect "a: |" NUL [] C R).
Defined.

End HandlerProperties.

(** ** Running the scanner on a text that is known *)

Section Execution.

#[local] Open Scope nat_scope.

Context {H : Type} {handler : YamlHandler H}.
Variable yaml : string.
Variable past : ascii.

Implicit Types st : State H.

#[local] Abbreviation at_ := (deref yaml past).

(** The relation describes the loop of the model, with any fuel that is
    enough. *)
Lemma loops_Parse_loop st (r : Result H) :
  loops yaml past st r ->
  forall fuel, end_ st - curr_ st < fuel -> Parse_loop yaml past fuel st = r.
Proof.
  induction 1 as [st Hge|st st' r Hlt B _ IH|st r Hlt B N]; intros fuel Hf;
    (destruct fuel as [|fuel]; [lia|]); simpl.
  - apply Nat.ltb_ge in Hge. rewrite Hge. reflexivity.
  - pose proof (body_progress yaml past st st' Hlt B) as P.
    apply Nat.ltb_lt in Hlt. rewrite Hlt, B. apply IH. simpl. lia.
  - apply Nat.ltb_lt in Hlt. rewrite Hlt, B.
    destruct r as [[|] st'| st'|]; try reflexivity. exfalso. exact (N st' eq_refl).
Qed.

Lemma scan_exact {A : Type} (e : nat) (c : nat -> bool) (next : nat -> A -> A)
    (p p' : nat) (a : A) :
  p <= p' -> p' <= e ->
  (forall k, p <= k < p' -> c k = true) ->
  (p' < e -> c p' = false) ->
  fst (scan e (fun q _ => c q) next p a) = p'.
Proof.
  intros Hp He Hall Hstop.
  pose proof (scan_ge e c next p a) as G.
  pose proof (scan_le e c next p a ltac:(lia)) as L.
  pose proof (scan_stops e c next p a) as St.
  pose proof (scan_passed e c next p a) as Pa.
  destruct (lt_eq_lt_dec (fst (scan e (fun q _ => c q) next p a)) p') as [[Hlt|Heq]|Hgt].
  - rewrite Hall in St by lia. specialize (St ltac:(lia)). discriminate.
  - exact Heq.
  - destruct (Pa p' ltac:(lia)) as [Ht _]. rewrite Hstop in Ht by lia. discriminate.
Qed.

Lemma scan_stay {A : Type} (e : nat) (c : nat -> bool) (next : nat -> A -> A)
    (p : nat) (a : A) :
  c p = false -> scan e (fun q _ => c q) next p a = (p, a).
Proof.
  intros Hc. unfold scan. destruct (e - p); simpl; [reflexivity|].
  rewrite Hc, andb_false_r. reflexivity.
Qed.

Lemma scan_at_end {A : Type} (e : nat) (c : nat -> A -> bool) (next : nat -> A -> A)
    (p : nat) (a : A) :
  e <= p -> scan e c next p a = (p, a).
Proof. intros He. unfold scan. replace (e - p) with 0 by lia. reflexivity. Qed.

Lemma at_lookup k x : chars yaml !! k = Some x -> at_ k = x.
Proof. intros E. unfold deref, buf. apply nth_lookup_Some with (d := past) in E. exact E. Qed.

Lemma at_past : at_ (length (chars yaml)) = past.
Proof. unfold deref, buf. apply nth_overflow. lia. Qed.

(** On a line that starts with no space and no dash, and with no frame above
    the sentinel, the indentation check changes nothing. *)
Lemma indentation_noop st :
  CharIsIn (at_ (curr_ st)) kIndentChars = false ->
  yamlStack_ st = [mkIndent 0 false] ->
  indentation yaml past st = Ret true st.
Proof.
  intros Hc Hs. unfold indentation. destruct (col_ st =? 1)%Z; [|reflexivity].
  unfold GetIndent. rewrite scan_stay by exact Hc.
  destruct st as [c e l co h stk cp evs]. cbn [curr_ yamlStack_] in *. subst stk.
  destruct (CharIsIn (at_ c) kIgnoreIndent); reflexivity.
Qed.

Lemma ParseQuoted_exact (quote : ascii) st (p q : nat) :
  S (curr_ st) <= p -> p < end_ st ->
  (forall k, S (curr_ st) <= k < p -> Ascii.eqb (at_ k) quote = false) ->
  Ascii.eqb (at_ p) quote = true ->
  S p <= q -> q <= end_ st ->
  (forall k, S p <= k < q -> CharIsIn (at_ k) kImportantChar = false) ->
  (q < end_ st -> CharIsIn (at_ q) kImportantChar = true) ->
  ParseQuoted yaml past quote st
  = OutputScalar yaml past (ExtractStr yaml past (S (curr_ st)) p No)
      (set_col (wrap (col_ st + Z.of_nat (q - S (curr_ st)) + kQuoteChars))
               (set_curr q st)).
Proof.
  intros H1 H2 H3 H4 H5 H6 H7 H8. unfold ParseQuoted.
  pose proof (scan_exact (end_ st) (fun k => negb (Ascii.eqb (at_ k) quote))
                (fun _ (u : unit) => u) (S (curr_ st)) p tt H1 ltac:(lia)) as E1.
  destruct (scan _ _ _ _ _) as [p0 u]. cbn [fst] in E1.
  rewrite E1; [| intros k Hk; rewrite H3 by exact Hk; reflexivity
               | intros _; rewrite H4; reflexivity].
  apply Nat.ltb_lt in H2. rewrite H2.
  pose proof (scan_exact (end_ st) (fun k => negb (CharIsIn (at_ k) kImportantChar))
                (fun _ (u : unit) => u) (S p) q tt H5 H6) as E2.
  destruct (scan _ _ _ _ _) as [q0 u']. cbn [fst] in E2.
  rewrite E2; [reflexivity
              | intros k Hk; rewrite H7 by exact Hk; reflexivity
              | intros Hq; rewrite H8 by exact Hq; reflexivity].
Qed.

(** A plain scalar that runs up to an end of scalar at [p]. *)
Lemma ParsePlain_exact st (p : nat) :
  curr_ st <= p -> p < end_ st ->
  (forall k, curr_ st <= k < p -> CharIsIn (at_ k) kEndScalar = false) ->
  CharIsIn (at_ p) kEndScalar = true ->
  IsNormalChar_at yaml past (end_ st) p = false ->
  ParsePlain yaml past st
  = OutputScalar yaml past (ExtractStr yaml past (curr_ st) p Yes)
      (set_col (wrap (col_ st + Z.of_nat (p - curr_ st))) (set_curr p st)).
Proof.
  intros H1 H2 H3 H4 H5. unfold ParsePlain.
  pose proof (scan_exact (end_ st)
                (fun k => negb (CharIsIn (at_ k) kEndScalar)
                          || IsNormalChar_at yaml past (end_ st) k)
                (fun _ (u : unit) => u) (curr_ st) p tt H1 ltac:(lia)) as E1.
  destruct (scan _ _ _ _ _) as [p0 u]. cbn [fst] in E1.
  rewrite E1; [| intros k Hk; rewrite H3 by exact Hk; reflexivity
               | intros _; rewrite H4, H5; reflexivity].
  apply Nat.ltb_lt in H2. rewrite H2. reflexivity.
Qed.

(** A plain scalar that runs up to the end of the text. *)
Lemma ParsePlain_exact_end st :
  curr_ st <= end_ st ->
  (forall k, curr_ st <= k < end_ st -> CharIsIn (at_ k) kEndScalar = false) ->
  ParsePlain yaml past st
  = call_onScalar (ExtractStr yaml past (curr_ st) (end_ st) Yes)
      (set_complete true (set_curr (end_ st) st)).
Proof.
  intros H1 H3. unfold ParsePlain.
  pose proof (scan_exact (end_ st)
                (fun k => negb (CharIsIn (at_ k) kEndScalar)
                          || IsNormalChar_at yaml past (end_ st) k)
                (fun _ (u : unit) => u) (curr_ st) (end_ st) tt H1 ltac:(lia)) as E1.
  destruct (scan _ _ _ _ _) as [p0 u]. cbn [fst] in E1.
  rewrite E1; [| intros k Hk; rewrite H3 by exact Hk; reflexivity | lia].
  rewrite Nat.ltb_irrefl. reflexivity.
Qed.

(** Where [SkipSpaces] stops when the run of spaces is known. *)
Lemma SkipSpaces_exact st (p : nat) :
  S (curr_ st) <= p -> p <= end_ st ->
  (forall k, S (curr_ st) <= k < p -> at_ k = SPACE) ->
  (p < end_ st -> at_ p <> SPACE) ->
  curr_ (SkipSpaces yaml past st) = pred p.
Proof.
  intros H1 H2 H3 H4.
  destruct (pos_SkipSpaces yaml past st) as (Hc & _ & Hs & Hn).
  set (c' := curr_ (SkipSpaces yaml past st)) in *.
  destruct (lt_eq_lt_dec (S c') p) as [[Hlt|Heq]|Hgt].
  - exfalso. apply Hn; [lia|]. apply H3. lia.
  - lia.
  - exfalso. destruct (Hs p ltac:(lia)) as [Hsp Hlt]. exact (H4 Hlt Hsp).
Qed.

End Execution.

Section Steps.

#[local] Open Scope nat_scope.

Variable yaml : string.
Variable past : ascii.

Implicit Types st : State unit.

#[local] Abbreviation at_ := (deref yaml past).

Lemma reads_at k l j x : reads yaml k l -> l !! j = Some x -> at_ (k + j) = x.
Proof. intros R E. apply at_lookup. apply R. exact E. Qed.

Lemma reads_lt k l j : reads yaml k l -> j < length l -> k + j < length (chars yaml).
Proof.
  intros R Hj. destruct (lookup_lt_is_Some_2 l j Hj) as [x E].
  apply R in E. eapply lookup_lt_Some. exact E.
Qed.

Lemma reads_app k a b :
  reads yaml k (a ++ b) -> reads yaml k a /\ reads yaml (k + length a) b.
Proof.
  intros R. split.
  - intros j x E. apply R. apply lookup_app_l_Some. exact E.
  - intros j x E. rewrite <- Nat.add_assoc. apply R.
    rewrite lookup_app_r by lia. replace (length a + j - length a) with j by lia. exact E.
Qed.

Lemma reads_cons k x l :
  reads yaml k (x :: l) -> at_ k = x /\ reads yaml (S k) l.
Proof.
  intros R. split.
  - rewrite <- (Nat.add_0_r k). eapply reads_at; [exact R|reflexivity].
  - intros j y E. replace (S k + j) with (k + S j) by lia. apply R. exact E.
Qed.

Lemma reads_whole : reads yaml 0 (chars yaml).
Proof. intros j x E. exact E. Qed.

Lemma reads_map k l : reads yaml k l -> map at_ (seq k (length l)) = l.
Proof.
  revert k. induction l as [|x l IH]; intros k R; [reflexivity|].
  apply reads_cons in R as [E R]. simpl. rewrite E, (IH _ R). reflexivity.
Qed.

Lemma reads_In k l j : reads yaml k l -> j < length l -> In (at_ (k + j)) l.
Proof.
  intros R Hj. destruct (lookup_lt_is_Some_2 l j Hj) as [x E].
  rewrite (reads_at k l j x R E). apply list_elem_of_In. eapply list_elem_of_lookup_2. exact E.
Qed.

Lemma find_last_not_of_space_full (l : list ascii) :
  last l <> Some SPACE -> find_last_not_of_space l = length l.
Proof.
  induction l as [|c l IH]; [reflexivity|]. intros L. simpl.
  destruct l as [|c' l].
  - simpl in *. destruct (Ascii.eqb c SPACE) eqn:E; [|reflexivity].
    apply Ascii.eqb_eq in E. congruence.
  - rewrite IH by exact L. reflexivity.
Qed.

Lemma str_chars (S : string) : str (chars S) = S.
Proof. apply string_of_list_ascii_of_string. Qed.

(** The bytes of a scalar without special bytes end no plain scalar, and
    those that are no space go to [ParsePlain]. *)
Lemma plain_not_EndScalar (c : ascii) :
  special_byte c = false -> CharIsIn c kEndScalar = false.
Proof.
  destruct c as [[] [] [] [] [] [] [] []]; intros E; try discriminate E; reflexivity.
Qed.

Lemma plain_not_indent (c : ascii) :
  special_byte c = false -> c <> SPACE -> CharIsIn c kIndentChars = false.
Proof.
  destruct c as [[] [] [] [] [] [] [] []]; intros E N; try discriminate E;
    try reflexivity. exfalso. apply N. reflexivity.
Qed.

Lemma dispatch_plain st :
  special_byte (at_ (curr_ st)) = false -> at_ (curr_ st) <> SPACE ->
  dispatch yaml past st = ParsePlain yaml past st.
Proof.
  unfold dispatch, ParseNode. generalize (at_ (curr_ st)).
  intros c. destruct c as [[] [] [] [] [] [] [] []]; intros E N; try discriminate E;
    try reflexivity. exfalso. apply N. reflexivity.
Qed.

Lemma dispatch_quote (q : ascii) st :
  q = SQUOTE \/ q = DQUOTE -> at_ (curr_ st) = q ->
  dispatch yaml past st = ParseQuoted yaml past q st.
Proof.
  intros Hq E. unfold dispatch, ParseNode. rewrite E.
  destruct Hq as [-> | ->]; reflexivity.
Qed.

(** With the base class for a handler, what [OutputScalar] does. *)
Lemma OutputScalar_value (s : string) st :
  Ascii.eqb (at_ (curr_ st)) ":" = false ->
  exists st',
    OutputScalar yaml past s st = Ret true st'
    /\ curr_ st' = pred (curr_ st) /\ end_ st' = end_ st
    /\ yamlStack_ st' = yamlStack_ st
    /\ completeKeyValuePair_ st' = true
    /\ events st' = events st ++ [Scalar s].
Proof.
  intros E. unfold OutputScalar. rewrite E. eexists. split; [reflexivity|].
  repeat split.
Qed.

Lemma OutputScalar_key (s : string) st :
  at_ (curr_ st) = ":"%char ->
  completeKeyValuePair_ st = true ->
  exists st',
    OutputScalar yaml past s st = Ret true st'
    /\ curr_ st' = pred (curr_ st) /\ end_ st' = end_ st
    /\ yamlStack_ st' = yamlStack_ st
    /\ completeKeyValuePair_ st' = false
    /\ events st' = events st ++ [Key s].
Proof.
  intros E C. unfold OutputScalar. rewrite E. simpl Ascii.eqb. cbv iota.
  unfold HandleMissingNull. simpl completeKeyValuePair_. rewrite C.
  eexists. split; [reflexivity|]. repeat split.
Qed.

Lemma is_at_advance st p e c evs :
  is_at st p e c evs -> is_at (advance st) (S p) e c evs.
Proof. intros (<- & <- & S & C & E). repeat split; assumption. Qed.

Lemma is_at_fields st p e c evs :
  is_at st p e c evs ->
  st = mkState p e (line_ st) (col_ st) tt [mkIndent 0 false] c evs.
Proof.
  intros (<- & <- & S & <- & <-). destruct st as [cu en li co [] stk cp ev].
  simpl in *. subst stk. reflexivity.
Qed.

(** A quoted scalar, followed by the end of the text or by a byte that
    [ParseQuoted] stops on, and by no colon. *)
Lemma step_quoted st k c evs (q : ascii) (sc : list ascii) :
  is_at st k (length (chars yaml)) c evs ->
  q = SQUOTE \/ q = DQUOTE ->
  ~ In q sc ->
  reads yaml k (q :: sc ++ [q]) ->
  (k + length sc + 2 < length (chars yaml) ->
   CharIsIn (at_ (k + length sc + 2)) kImportantChar = true) ->
  Ascii.eqb (at_ (k + length sc + 2)) ":" = false ->
  exists st',
    body yaml past st = Ret true st'
    /\ is_at st' (k + length sc + 1) (length (chars yaml)) true (evs ++ [Scalar (str sc)]).
Proof.
  intros At Hq Hnot R Himp Hcolon.
  pose proof (reads_lt k (q :: sc ++ [q]) (S (length sc)) R
                ltac:(simpl; rewrite length_app; simpl; lia)) as Hlt.
  destruct (reads_cons _ _ _ R) as [E0 R1].
  destruct (reads_app _ _ _ R1) as [RS Rq].
  destruct (reads_cons _ _ _ Rq) as [Eq _].
  rewrite (is_at_fields _ _ _ _ _ At). generalize (line_ st) (col_ st). clear st At.
  intros li co. set (st := mkState k (length (chars yaml)) li co tt [mkIndent 0 false] c evs).
  unfold body. rewrite indentation_noop;
    [|simpl curr_; rewrite E0; destruct Hq as [-> | ->]; reflexivity|reflexivity].
  rewrite (dispatch_quote q st Hq) by exact E0.
  rewrite (ParseQuoted_exact yaml past q st (k + length sc + 1) (k + length sc + 2));
    cbn [curr_ end_ st].
  - replace (ExtractStr yaml past (S k) (k + length sc + 1) No) with (str sc).
    2:{ unfold ExtractStr. replace (k + length sc + 1 - S k) with (length sc) by lia.
        rewrite (reads_map _ _ RS). reflexivity. }
    match goal with
    | |- exists st', OutputScalar yaml past ?s ?x = _ /\ _ =>
        destruct (OutputScalar_value s x) as (st' & EO & C1 & C2 & C3 & C4 & C5)
    end.
    { exact Hcolon. }
    exists st'. split; [exact EO|]. cbn [curr_ end_ yamlStack_ events set_col set_curr st] in *.
    repeat split; [lia|congruence|congruence|exact C4|congruence].
  - lia.
  - lia.
  - intros j Hj.
    replace j with (S k + (j - S k)) by lia.
    destruct (Ascii.eqb _ q) eqn:E; [|reflexivity]. exfalso. apply Ascii.eqb_eq in E.
    apply Hnot. rewrite <- E. apply (reads_In _ _ _ RS). lia.
  - replace (k + length sc + 1) with (S k + length sc) by lia.
    rewrite Eq. apply Ascii.eqb_refl.
  - lia.
  - lia.
  - intros j Hj. lia.
  - replace (S (k + length sc + 1)) with (k + length sc + 2) by lia.
    exact Himp.
Qed.

Lemma plain_scalar_first (sc : list ascii) k :
  plain_scalar sc -> reads yaml k sc ->
  special_byte (at_ k) = false /\ at_ k <> SPACE.
Proof.
  intros (Hne & Hall & Hhead & _) R. destruct sc as [|x sc]; [congruence|].
  destruct (reads_cons _ _ _ R) as [-> _]. split; [apply Hall; left; reflexivity|].
  intros ->. apply Hhead. reflexivity.
Qed.

Lemma plain_scalar_inside (sc : list ascii) k j :
  plain_scalar sc -> reads yaml k sc -> k <= j < k + length sc ->
  CharIsIn (at_ j) kEndScalar = false.
Proof.
  intros (_ & Hall & _) R Hj. apply plain_not_EndScalar. apply Hall.
  replace j with (k + (j - k)) by lia. apply (reads_In _ _ _ R). lia.
Qed.

Lemma plain_scalar_trim (sc : list ascii) k :
  plain_scalar sc -> reads yaml k sc ->
  ExtractStr yaml past k (k + length sc) Yes = str sc.
Proof.
  intros (_ & _ & _ & Hlast) R. unfold ExtractStr.
  replace (k + length sc - k) with (length sc) by lia.
  rewrite (reads_map _ _ R), (find_last_not_of_space_full _ Hlast), firstn_all.
  reflexivity.
Qed.

(** A plain scalar that is a value: it ends on an end of scalar that is no
    colon. *)
Lemma step_plain st k c evs (sc : list ascii) :
  is_at st k (length (chars yaml)) c evs ->
  plain_scalar sc ->
  reads yaml k sc ->
  k + length sc < length (chars yaml) ->
  CharIsIn (at_ (k + length sc)) kEndScalar = true ->
  IsNormalChar_at yaml past (length (chars yaml)) (k + length sc) = false ->
  Ascii.eqb (at_ (k + length sc)) ":" = false ->
  exists st',
    body yaml past st = Ret true st'
    /\ is_at st' (pred (k + length sc)) (length (chars yaml)) true
             (evs ++ [Scalar (str sc)]).
Proof.
  intros At P R Hlt Hend Hnorm Hcolon.
  destruct (plain_scalar_first sc k P R) as [Sp Nsp].
  rewrite (is_at_fields _ _ _ _ _ At). generalize (line_ st) (col_ st). clear st At.
  intros li co. set (st := mkState k (length (chars yaml)) li co tt [mkIndent 0 false] c evs).
  unfold body. rewrite indentation_noop;
    [|apply plain_not_indent; assumption|reflexivity].
  rewrite (dispatch_plain st Sp Nsp).
  rewrite (ParsePlain_exact yaml past st (k + length sc)); cbn [curr_ end_ st].
  - rewrite (plain_scalar_trim sc k P R).
    match goal with
    | |- exists st', OutputScalar yaml past ?s ?x = _ /\ _ =>
        destruct (OutputScalar_value s x) as (st' & EO & C1 & C2 & C3 & C4 & C5)
    end.
    { exact Hcolon. }
    exists st'. split; [exact EO|]. cbn [curr_ end_ yamlStack_ events set_col set_curr st] in *.
    repeat split; [lia|congruence|congruence|exact C4|congruence].
  - lia.
  - exact Hlt.
  - intros j Hj. apply (plain_scalar_inside sc k j P R). lia.
  - exact Hend.
  - exact Hnorm.
Qed.

(** A plain scalar that is a key, with no key waiting for its value. *)
Lemma step_key st k evs (sc : list ascii) :
  is_at st k (length (chars yaml)) true evs ->
  plain_scalar sc ->
  reads yaml k sc ->
  k + length sc < length (chars yaml) ->
  at_ (k + length sc) = ":"%char ->
  IsNormalChar_at yaml past (length (chars yaml)) (k + length sc) = false ->
  exists st',
    body yaml past st = Ret true st'
    /\ is_at st' (pred (k + length sc)) (length (chars yaml)) false
             (evs ++ [Key (str sc)]).
Proof.
  intros At P R Hlt Hcolon Hnorm.
  destruct (plain_scalar_first sc k P R) as [Sp Nsp].
  rewrite (is_at_fields _ _ _ _ _ At). generalize (line_ st) (col_ st). clear st At.
  intros li co.
  set (st := mkState k (length (chars yaml)) li co tt [mkIndent 0 false] true evs).
  unfold body. rewrite indentation_noop;
    [|apply plain_not_indent; assumption|reflexivity].
  rewrite (dispatch_plain st Sp Nsp).
  rewrite (ParsePlain_exact yaml past st (k + length sc)); cbn [curr_ end_ st].
  - rewrite (plain_scalar_trim sc k P R).
    match goal with
    | |- exists st', OutputScalar yaml past ?s ?x = _ /\ _ =>
        destruct (OutputScalar_key s x) as (st' & EO & C1 & C2 & C3 & C4 & C5)
    end.
    { exact Hcolon. }
    { reflexivity. }
    exists st'. split; [exact EO|]. cbn [curr_ end_ yamlStack_ events set_col set_curr st] in *.
    repeat split; [lia|congruence|congruence|exact C4|congruence].
  - lia.
  - exact Hlt.
  - intros j Hj. apply (plain_scalar_inside sc k j P R). lia.
  - rewrite Hcolon. reflexivity.
  - exact Hnorm.
Qed.

(** A plain scalar that runs up to the end of the text. *)
Lemma step_plain_end st k c evs (sc : list ascii) :
  is_at st k (length (chars yaml)) c evs ->
  plain_scalar sc ->
  reads yaml k sc ->
  k + length sc = length (chars yaml) ->
  exists st',
    body yaml past st = Ret true st'
    /\ is_at st' (length (chars yaml)) (length (chars yaml)) true
             (evs ++ [Scalar (str sc)]).
Proof.
  intros At P R Hlen.
  destruct (plain_scalar_first sc k P R) as [Sp Nsp].
  rewrite (is_at_fields _ _ _ _ _ At). generalize (line_ st) (col_ st). clear st At.
  intros li co. set (st := mkState k (length (chars yaml)) li co tt [mkIndent 0 false] c evs).
  unfold body. rewrite indentation_noop;
    [|apply plain_not_indent; assumption|reflexivity].
  rewrite (dispatch_plain st Sp Nsp).
  rewrite (ParsePlain_exact_end yaml past st); cbn [curr_ end_ st].
  - replace (ExtractStr yaml past k (length (chars yaml)) Yes) with (str sc)
      by (rewrite <- Hlen; symmetry; apply plain_scalar_trim; assumption).
    eexists. split; [reflexivity|]. repeat split.
  - lia.
  - intros j Hj. apply (plain_scalar_inside sc k j P R). lia.
Qed.

(** [SkipSpaces] over a run of spaces that is known. *)
Lemma is_at_SkipSpaces st k c evs (p : nat) :
  is_at st k (length (chars yaml)) c evs ->
  S k <= p -> p <= length (chars yaml) ->
  (forall j, S k <= j < p -> at_ j = SPACE) ->
  (p < length (chars yaml) -> at_ p <> SPACE) ->
  is_at (SkipSpaces yaml past st) (pred p) (length (chars yaml)) c evs.
Proof.
  intros (Hc & He & Hs & Hcp & Hev) H1 H2 H3 H4.
  pose proof (SkipSpaces_exact yaml past st p) as E.
  rewrite Hc, He in E. specialize (E H1 H2 H3 H4).
  destruct (pos_SkipSpaces yaml past st) as (_ & E2 & _).
  destruct (quiet_SkipSpaces yaml past st) as [E3 _].
  pose proof (view_SkipSpaces yaml past st) as V. unfold view in V.
  injection V as V1 V2.
  repeat split; congruence.
Qed.

(** A colon or a comma, and the spaces after it. *)
Lemma step_separator st k c evs (p : nat) :
  is_at st k (length (chars yaml)) c evs ->
  at_ k = ":"%char \/ at_ k = ","%char ->
  S k <= p -> p <= length (chars yaml) ->
  (forall j, S k <= j < p -> at_ j = SPACE) ->
  (p < length (chars yaml) -> at_ p <> SPACE) ->
  exists st',
    body yaml past st = Ret true st'
    /\ is_at st' (pred p) (length (chars yaml)) c evs.
Proof.
  intros At Hk H1 H2 H3 H4.
  pose proof (is_at_SkipSpaces st k c evs p At H1 H2 H3 H4) as A'.
  destruct At as (Hc & He & Hs & Hcp & Hev).
  unfold body. rewrite indentation_noop;
    [|rewrite Hc; destruct Hk as [-> | ->]; reflexivity|exact Hs].
  unfold dispatch. rewrite Hc.
  destruct Hk as [-> | ->]; (eexists; split; [reflexivity|exact A']).
Qed.

(** The bracket that opens a flow sequence. *)
Lemma step_open st k c evs (p : nat) :
  is_at st k (length (chars yaml)) c evs ->
  at_ k = "["%char ->
  S k <= p -> p <= length (chars yaml) ->
  (forall j, S k <= j < p -> at_ j = SPACE) ->
  (p < length (chars yaml) -> at_ p <> SPACE) ->
  exists st',
    body yaml past st = Ret true st'
    /\ is_at st' (pred p) (length (chars yaml)) true (evs ++ [StartSequence]).
Proof.
  intros At Hk H1 H2 H3 H4.
  assert (is_at (call StartSequence onStartSequence (set_complete true st)) k
            (length (chars yaml)) true (evs ++ [StartSequence])) as A1.
  { destruct At as (Hc & He & Hs & Hcp & Hev). repeat split; simpl; congruence. }
  pose proof (is_at_SkipSpaces _ k true _ p A1 H1 H2 H3 H4) as A'.
  destruct At as (Hc & He & Hs & Hcp & Hev).
  unfold body. rewrite indentation_noop; [|rewrite Hc, Hk; reflexivity|exact Hs].
  unfold dispatch. rewrite Hc, Hk.
  eexists; split; [reflexivity|exact A'].
Qed.

(** The bracket that closes a flow sequence, with no key waiting. *)
Lemma step_close st k evs (p : nat) :
  is_at st k (length (chars yaml)) true evs ->
  at_ k = "]"%char ->
  S k <= p -> p <= length (chars yaml) ->
  (forall j, S k <= j < p -> at_ j = SPACE) ->
  (p < length (chars yaml) -> at_ p <> SPACE) ->
  exists st',
    body yaml past st = Ret true st'
    /\ is_at st' (pred p) (length (chars yaml)) true (evs ++ [EndSequence]).
Proof.
  intros At Hk H1 H2 H3 H4.
  assert (is_at (call EndSequence onEndSequence (HandleMissingNull st)) k
            (length (chars yaml)) true (evs ++ [EndSequence])) as A1.
  { destruct At as (Hc & He & Hs & Hcp & Hev). unfold HandleMissingNull. rewrite Hcp.
    repeat split; simpl; congruence. }
  pose proof (is_at_SkipSpaces _ k true _ p A1 H1 H2 H3 H4) as A'.
  destruct At as (Hc & He & Hs & Hcp & Hev).
  unfold body. rewrite indentation_noop; [|rewrite Hc, Hk; reflexivity|exact Hs].
  unfold dispatch. rewrite Hc, Hk.
  eexists; split; [reflexivity|exact A'].
Qed.

(** A line feed. *)
Lemma step_newline st k c evs :
  is_at st k (length (chars yaml)) c evs ->
  at_ k = LF ->
  exists st',
    body yaml past st = Ret true st'
    /\ is_at st' k (length (chars yaml)) c evs.
Proof.
  intros At Hk. destruct At as (Hc & He & Hs & Hcp & Hev).
  unfold body. rewrite indentation_noop; [|rewrite Hc, Hk; reflexivity|exact Hs].
  unfold dispatch. rewrite Hc, Hk.
  eexists; split; [reflexivity|]. repeat split; assumption.
Qed.

(** From the loop to [Parse]: when the loop ends with no frame above the
    sentinel, [Parse] adds the end of the document. *)
Lemma run_of_loops st evs c p :
  loops yaml past (call StartDocument onStartDocument (YamlParser yaml tt)) (Ret true st) ->
  is_at st p (length (chars yaml)) c evs ->
  trace (run yaml past tt) = evs ++ [EndDocument]
  /\ returned (run yaml past tt) = Some true.
Proof.
  intros L (_ & _ & Hs & _ & Hev). unfold run, Parse.
  rewrite (loops_Parse_loop yaml past _ _ L) by lia.
  simpl unwind. rewrite Hs. simpl. rewrite Hev. split; reflexivity.
Qed.

Lemma is_at_start :
  is_at (call StartDocument onStartDocument (YamlParser yaml tt)) 0
        (length (chars yaml)) true [StartDocument].
Proof. repeat split. Qed.

End Steps.

(** ** What is written is read back *)

Section RoundTrips.

#[local] Open Scope nat_scope.

Import Yaml.

(** The scalars that can be encoded are encoded. *)
Lemma CreateSafeScalar_encodes (S : string) :
  encodable S -> exists Y, CreateSafeScalar S = Some Y /\ encodes S Y.
Proof.
  intros (Hsize & Hne & Hw & Hboth & Hplain).
  assert (already_quoted (chars S) = false) as Hq.
  { destruct (already_quoted (chars S)) eqn:E; [|reflexivity].
    exfalso. apply Hw. apply already_quoted_spec. exact E. }
  destruct (GetSpecialChars_spec S Hsize Hne Hq) as [Hhas Hquotes].
  unfold CreateSafeScalar.
  destruct (hasSpecialChars (GetSpecialChars S)) eqn:Has.
  - destruct (Hquotes eq_refl) as [Q1 Q2].
    destruct (firstSingleQuote (GetSpecialChars S) <? kInvalidPos)%Z eqn:E1;
    destruct (firstDoubleQuote (GetSpecialChars S) <? kInvalidPos)%Z eqn:E2;
    cbn [andb].
    + exfalso. apply Hboth. apply Z.ltb_lt in E1, E2. split; [apply Q1|apply Q2]; assumption.
    + eexists. split; [reflexivity|]. right. exists DQUOTE.
      split; [auto|]. split; [|reflexivity].
      intros I. apply Q2 in I. apply Z.ltb_ge in E2. lia.
    + eexists. split; [reflexivity|]. right. exists SQUOTE.
      split; [auto|]. split; [|reflexivity].
      intros I. apply Q1 in I. apply Z.ltb_ge in E1. lia.
    + eexists. split; [reflexivity|]. right. exists SQUOTE.
      split; [auto|]. split; [|reflexivity].
      intros I. apply Q1 in I. apply Z.ltb_ge in E1. lia.
  - exists S. split; [reflexivity|]. left. split; [|reflexivity].
    assert (forall x, In x (chars S) -> special_byte x = false) as Hall.
    { intros x Hx. destruct (special_byte x) eqn:Sp; [|reflexivity].
      assert (false = true) as F by (apply Hhas; exists x; auto). discriminate F. }
    destruct (Hplain Hall) as [Hh Hl]. repeat split; assumption.
Qed.

Lemma loops_iterations (yaml : string) (past : ascii) (st st' : State unit) r :
  rtc (iteration yaml past) st st' -> loops yaml past st' r -> loops yaml past st r.
Proof.
  intros R L. induction R as [st|st st1 st2 (Hlt & st0 & B & ->) _ IH].
  - exact L.
  - eapply loops_next; [exact Hlt|exact B|]. apply IH. exact L.
Qed.

(** One iteration, from what a step lemma gives. *)
Lemma iteration_of_step (yaml : string) (past : ascii) (st : State unit) k c evs k' c' evs' :
  is_at st k (length (chars yaml)) c evs ->
  k < length (chars yaml) ->
  (exists st', body yaml past st = Ret true st'
               /\ is_at st' k' (length (chars yaml)) c' evs') ->
  exists st'', iteration yaml past st st''
               /\ is_at st'' (S k') (length (chars yaml)) c' evs'.
Proof.
  intros (Hc & He & _) Hlt (st' & B & A). exists (advance st'). split.
  - split; [lia|]. exists st'. auto.
  - apply is_at_advance. exact A.
Qed.

(** A text of a scalar, followed by a byte that ends it and is no colon. *)
Lemma step_encoded (yaml : string) (past : ascii) (st : State unit) k c evs
    (S Y : string) (t : ascii) :
  is_at st k (length (chars yaml)) c evs ->
  encodes S Y ->
  reads yaml k (chars Y ++ [t]) ->
  CharIsIn t kEndScalar = true ->
  CharIsIn t kImportantChar = true ->
  Ascii.eqb t ":" = false ->
  IsNormalChar_at yaml past (length (chars yaml)) (k + length (chars Y)) = false ->
  exists st'',
    iteration yaml past st st''
    /\ is_at st'' (k + length (chars Y)) (length (chars yaml)) true (evs ++ [Scalar S]).
Proof.
  intros At Enc R T1 T2 T3 T4.
  destruct (reads_app yaml _ _ _ R) as [RY Rt].
  destruct (reads_cons yaml past _ _ _ Rt) as [Et _].
  pose proof (reads_lt yaml k (chars Y ++ [t]) (length (chars Y)) R
                ltac:(rewrite length_app; simpl; lia)) as Hlt.
  destruct Enc as [[P ->]|(q & Hq & Hnot & ->)].
  - destruct P as (Hne & P').
    assert (0 < length (chars S)) by (destruct (chars S); [congruence|simpl; lia]).
    replace (k + length (chars S)) with (Datatypes.S (pred (k + length (chars S)))) by lia.
    replace (Scalar S) with (Scalar (str (chars S))) by (rewrite str_chars; reflexivity).
    apply (iteration_of_step yaml past st k c evs); [exact At|lia|].
    apply (step_plain yaml past st k c evs (chars S)); try assumption;
      try (split; assumption); rewrite ?Et; assumption.
  - rewrite chars_wrap_in in *. simpl length in *. rewrite length_app in *. simpl length in *.
    replace (k + Datatypes.S (length (chars S) + 1))
      with (Datatypes.S (k + length (chars S) + 1)) in * by lia.
    replace (Scalar S) with (Scalar (str (chars S))) by (rewrite str_chars; reflexivity).
    apply (iteration_of_step yaml past st k c evs); [exact At|lia|].
    replace (Datatypes.S (k + length (chars S) + 1)) with (k + length (chars S) + 2)
      in Et by lia.
    apply (step_quoted yaml past st k c evs q (chars S)); try assumption.
    + rewrite Et. intros _. exact T2.
    + rewrite Et. exact T3.
Qed.

Lemma never_stops_DefaultHandler : never_stops DefaultHandler.
Proof. intros s h. split; reflexivity. Qed.

Lemma never_stops_Collect : never_stops Collect.
Proof. intros s h. split; reflexivity. Qed.

Lemma not_colon (c : ascii) : c <> ":"%char -> Ascii.eqb c ":" = false.
Proof. intros N. apply Ascii.eqb_neq. exact N. Qed.

(** A text of a scalar starts with a byte that is no space. *)
Lemma encodes_first (S Y : string) :
  encodes S Y -> exists y rest, chars Y = y :: rest /\ y <> SPACE.
Proof.
  intros [[(Hne & _ & Hh & _) ->]|(q & Hq & _ & ->)].
  - destruct (chars S) as [|y rest]; [congruence|]. exists y, rest.
    split; [reflexivity|]. intros ->. apply Hh. reflexivity.
  - rewrite chars_wrap_in. exists q, (chars S ++ [q]). split; [reflexivity|].
    destruct Hq as [-> | ->]; discriminate.
Qed.

(** A quoted scalar alone in a text. *)
Lemma quoted_run (q : ascii) (body : string) (past : ascii) :
  q = SQUOTE \/ q = DQUOTE -> ~ In q (chars body) -> past <> ":"%char ->
  trace (run (wrap_in q body) past tt) = [StartDocument; Scalar body; EndDocument]
  /\ returned (run (wrap_in q body) past tt) = Some true.
Proof.
  intros Hq Hnot Hpast. set (yaml := wrap_in q body).
  assert (length (chars yaml) = length (chars body) + 2) as Hlen.
  { unfold yaml. rewrite chars_wrap_in. simpl. rewrite length_app. simpl. lia. }
  destruct (step_quoted yaml past _ 0 true [StartDocument] q (chars body)
              (is_at_start yaml) Hq Hnot) as (st1 & B & A).
  - unfold yaml. rewrite <- chars_wrap_in. apply reads_whole.
  - lia.
  - replace (0 + length (chars body) + 2) with (length (chars yaml)) by lia.
    rewrite at_past. apply not_colon. exact Hpast.
  - rewrite str_chars in A.
    destruct (run_of_loops yaml past (advance st1) ([StartDocument] ++ [Scalar body]) true
                (S (0 + length (chars body) + 1))) as [T R].
    + eapply loops_next; [simpl; unfold buf; lia|exact B|].
      apply loops_done. destruct A as (C1 & C2 & _). simpl. lia.
    + apply is_at_advance. exact A.
    + rewrite T, R. split; reflexivity.
Qed.

(** A text of a scalar alone in a text. *)
Lemma encoded_run (S Y : string) (past : ascii) :
  encodes S Y -> past <> ":"%char ->
  trace (run Y past tt) = [StartDocument; Scalar S; EndDocument]
  /\ returned (run Y past tt) = Some true.
Proof.
  intros [[P ->]|(q & Hq & Hnot & ->)] Hpast; [|apply quoted_run; assumption].
  assert (0 < length (chars S)) as Hpos.
  { destruct P as (Hne & _). destruct (chars S); [congruence|simpl; lia]. }
  destruct (step_plain_end S past _ 0 true [StartDocument] (chars S)
              (is_at_start S) P (reads_whole S) eq_refl) as (st1 & B & A).
  rewrite str_chars in A.
  destruct (run_of_loops S past (advance st1) ([StartDocument] ++ [Scalar S]) true
              (Datatypes.S (length (chars S)))) as [T R].
  - eapply loops_next; [simpl; unfold buf; lia|exact B|].
    apply loops_done. destruct A as (C1 & C2 & _). simpl. lia.
  - apply is_at_advance. exact A.
  - rewrite T, R. split; reflexivity.
Qed.

(** X12: a text that is a scalar between two single or two double quotes,
    the scalar holding no quote of that kind, is scanned as this one scalar,
    byte for byte (nothing is trimmed or unescaped), when the handler never
    stops and the byte after the text is no colon. *)
Theorem quoted_scalar_verbatim (H : Type) (handler : YamlHandler H)
    (q : ascii) (body : string) (past : ascii) (h : H) :
  never_stops handler ->
  q = SQUOTE \/ q = DQUOTE ->
  ~ In q (chars body) ->
  past <> ":"%char ->
  trace (run (wrap_in q body) past h) = [StartDocument; Scalar body; EndDocument]
  /\ returned (run (wrap_in q body) past h) = Some true.
Proof.
  intros C Hq Hnot Hpast. destruct (run_erase C (wrap_in q body) past h) as [-> ->].
  apply quoted_run; assumption.
Qed.

Lemma quoted_scalar_verbatim_witness :
  never_stops Collect
  /\ (DQUOTE = SQUOTE \/ DQUOTE = DQUOTE)
  /\ ~ In DQUOTE (chars " it's: #1 ")
  /\ NUL <> ":"%char
  /\ trace (run (wrap_in DQUOTE " it's: #1 ") NUL ([] : list string))
     = [StartDocument; Scalar " it's: #1 "; EndDocument]
  /\ returned (run (wrap_in DQUOTE " it's: #1 ") NUL ([] : list string)) = Some true.
Proof.
  assert (DQUOTE = SQUOTE \/ DQUOTE = DQUOTE) as H1 by (right; reflexivity).
  assert (~ In DQUOTE (chars " it's: #1 ")) as H2.
  { simpl. intros D. repeat (destruct D as [D|D]; [discriminate D|]). exact D. }
  assert (NUL <> ":"%char) as H3 by discriminate.
  split; [exact never_stops_Collect|]. split; [exact H1|]. split; [exact H2|].
  split; [exact H3|].
  exact (quoted_scalar_verbatim (list string) Collect DQUOTE " it's: #1 " NUL []
           never_stops_Collect H1 H2 H3).
Defined.

(** X13: a scalar that can be encoded goes through [CreateSafeScalar] and a
    scan unchanged: the text [CreateSafeScalar] returns for it is scanned as
    this one scalar, when the handler never stops and the byte after the
    text is no colon. *)
Theorem scalar_round_trip (H : Type) (handler : YamlHandler H)
    (S : string) (past : ascii) (h : H) :
  never_stops handler ->
  encodable S ->
  past <> ":"%char ->
  exists Y,
    CreateSafeScalar S = Some Y
    /\ trace (run Y past h) = [StartDocument; Scalar S; EndDocument]
    /\ returned (run Y past h) = Some true.
Proof.
  intros C E Hpast. destruct (CreateSafeScalar_encodes S E) as (Y & EY & Enc).
  exists Y. split; [exact EY|]. destruct (run_erase C Y past h) as [-> ->].
  apply (encoded_run S Y past Enc Hpast).
Qed.

Lemma scalar_round_trip_witness :
  never_stops Collect
  /\ encodable "it's 5"
  /\ NUL <> ":"%char
  /\ exists Y,
       CreateSafeScalar "it's 5" = Some Y
       /\ trace (run Y NUL ([] : list string)) = [StartDocument; Scalar "it's 5"; EndDocument]
       /\ returned (run Y NUL ([] : list string)) = Some true.
Proof.
  assert (encodable "it's 5") as H1.
  { split; [vm_compute; reflexivity|]. split; [discriminate|].
    split; [intros W; apply already_quoted_spec in W; discriminate W|].
    split.
    - intros [_ D]. simpl in D. repeat (destruct D as [D|D]; [discriminate D|]). exact D.
    - intros A. specialize (A SQUOTE ltac:(simpl; tauto)). discriminate A. }
  assert (NUL <> ":"%char) as H2 by discriminate.
  split; [exact never_stops_Collect|]. split; [exact H1|]. split; [exact H2|].
  exact (scalar_round_trip (list string) Collect "it's 5" NUL [] never_stops_Collect H1 H2).
Defined.

Lemma is_at_eq (st : State unit) p e c evs p' evs' :
  is_at st p e c evs -> p = p' -> evs = evs' -> is_at st p' e c evs'.
Proof. intros A <- <-. exact A. Qed.

Lemma reads_eq (yaml : string) k l k' l' :
  reads yaml k l -> k = k' -> l = l' -> reads yaml k' l'.
Proof. intros R <- <-. exact R. Qed.

Lemma reads_seg (yaml : string) (a b c : list ascii) :
  chars yaml = a ++ b ++ c -> reads yaml (length a) b.
Proof.
  intros E j x L. rewrite E, lookup_app_r by lia.
  replace (length a + j - length a) with j by lia. apply lookup_app_l_Some. exact L.
Qed.

Lemma plain_scalar_length (l : list ascii) : plain_scalar l -> 0 < length l.
Proof. intros (Hne & _). destruct l; [congruence|simpl; lia]. Qed.

(** A key, a colon and a space, then whatever [rest] holds: the scanner
    reports the key and stands on the first byte of [rest]. *)
Lemma key_prefix_run (yaml : string) (past : ascii) (tag : string) (rest : list ascii)
    (y : ascii) (rest' : list ascii) :
  plain_scalar (chars tag) ->
  chars yaml = chars tag ++ ":"%char :: SPACE :: rest ->
  rest = y :: rest' -> y <> SPACE ->
  exists st,
    rtc (iteration yaml past) (call StartDocument onStartDocument (YamlParser yaml tt)) st
    /\ is_at st (length (chars tag) + 2) (length (chars yaml)) false
             [StartDocument; Key tag].
Proof.
  intros P E -> Hy. pose proof (plain_scalar_length _ P) as Hn.
  set (n := length (chars tag)) in *.
  assert (length (chars yaml) = n + 3 + length rest') as Hlen.
  { rewrite E, length_app. simpl. fold n. lia. }
  assert (reads yaml n [":"%char; SPACE; y]) as Rn.
  { apply (reads_seg yaml (chars tag) [":"%char; SPACE; y] rest'). rewrite E. reflexivity. }
  assert (deref yaml past n = ":"%char) as E0.
  { rewrite <- (Nat.add_0_r n). apply (reads_at yaml past n _ 0 _ Rn). reflexivity. }
  assert (deref yaml past (n + 1) = SPACE) as E1.
  { apply (reads_at yaml past n _ 1 _ Rn). reflexivity. }
  assert (deref yaml past (n + 2) = y) as E2.
  { apply (reads_at yaml past n _ 2 _ Rn). reflexivity. }
  destruct (iteration_of_step yaml past _ 0 true [StartDocument]
              (pred (0 + n)) false ([StartDocument] ++ [Key (str (chars tag))])
              (is_at_start yaml) ltac:(lia)) as (st1 & I1 & A1).
  { apply (step_key yaml past _ 0 [StartDocument] (chars tag) (is_at_start yaml) P).
    - apply (reads_seg yaml [] (chars tag) (":"%char :: SPACE :: y :: rest')). exact E.
    - fold n. lia.
    - exact E0.
    - unfold IsNormalChar_at, PeekNext_at. fold n. simpl "+". rewrite E0. cbn [Ascii.eqb orb].
      replace (length (chars yaml) <=? n + 1) with false by (symmetry; apply Nat.leb_gt; lia).
      rewrite E1. reflexivity. }
  rewrite str_chars in A1.
  destruct (iteration_of_step yaml past st1 n false [StartDocument; Key tag]
              (pred (n + 2)) false [StartDocument; Key tag]) as (st2 & I2 & A2).
  { apply (is_at_eq _ _ _ _ _ _ _ A1); [simpl; lia|reflexivity]. }
  { lia. }
  { apply (step_separator yaml past st1 n false [StartDocument; Key tag] (n + 2)).
    - apply (is_at_eq _ _ _ _ _ _ _ A1); [simpl; lia|reflexivity].
    - left. exact E0.
    - lia.
    - lia.
    - intros j Hj. replace j with (n + 1) by lia. exact E1.
    - intros _. rewrite E2. exact Hy. }
  exists st2. split.
  - eapply rtc_l; [exact I1|]. apply rtc_once. exact I2.
  - apply (is_at_eq _ _ _ _ _ _ _ A2); [lia|reflexivity].
Qed.

(** The line [CreateKeyValue] writes for a key and the text of a scalar. *)
Lemma key_value_run (tag S Y : string) (past : ascii) :
  plain_scalar (chars tag) -> encodes S Y ->
  trace (run (tag ++ ": " ++ Y ++ String LF EmptyString) past tt)
  = [StartDocument; Key tag; Scalar S; EndDocument]
  /\ returned (run (tag ++ ": " ++ Y ++ String LF EmptyString) past tt) = Some true.
Proof.
  intros P Enc. set (yaml := (tag ++ ": " ++ Y ++ String LF EmptyString)%string).
  destruct (encodes_first S Y Enc) as (y & rest' & EY & Hy).
  assert (chars yaml = chars tag ++ ":"%char :: SPACE :: (chars Y ++ [LF])) as E.
  { unfold yaml. rewrite chars_append. simpl. rewrite chars_append. reflexivity. }
  set (n := length (chars tag)). set (m := length (chars Y)).
  assert (length (chars yaml) = n + 2 + m + 1) as Hlen.
  { rewrite E, length_app. simpl. rewrite length_app. simpl. fold n m. lia. }
  destruct (key_prefix_run yaml past tag (chars Y ++ [LF]) y (rest' ++ [LF]) P E
              ltac:(rewrite EY; reflexivity) Hy) as (st2 & I2 & A2).
  fold n in A2.
  assert (reads yaml (n + 2) (chars Y ++ [LF])) as RY.
  { apply (reads_eq yaml (length (chars tag ++ [":"%char; SPACE])) (chars Y ++ [LF])).
    - apply (reads_seg yaml _ _ []). rewrite E, app_nil_r, <- app_assoc. reflexivity.
    - rewrite length_app. reflexivity.
    - reflexivity. }
  assert (deref yaml past (n + 2 + m) = LF) as EL.
  { apply (reads_at yaml past (n + 2) _ m _ RY). unfold m.
    rewrite lookup_app_r by lia. rewrite Nat.sub_diag. reflexivity. }
  destruct (step_encoded yaml past st2 (n + 2) false [StartDocument; Key tag] S Y LF
              A2 Enc RY eq_refl eq_refl eq_refl) as (st3 & I3 & A3).
  { unfold IsNormalChar_at. fold m. rewrite EL. reflexivity. }
  fold m in A3.
  destruct (iteration_of_step yaml past st3 (n + 2 + m) true
              ([StartDocument; Key tag] ++ [Scalar S]) (n + 2 + m) true
              ([StartDocument; Key tag] ++ [Scalar S]) A3 ltac:(lia)) as (st4 & I4 & A4).
  { apply (step_newline yaml past st3 _ _ _ A3 EL). }
  destruct (run_of_loops yaml past st4 ([StartDocument; Key tag] ++ [Scalar S]) true
              (Datatypes.S (n + 2 + m))) as [T R].
  - apply (loops_iterations yaml past _ st4).
    + eapply rtc_trans; [exact I2|]. eapply rtc_l; [exact I3|]. apply rtc_once. exact I4.
    + apply loops_done. destruct A4 as (C1 & C2 & _). lia.
  - exact A4.
  - rewrite T, R. split; reflexivity.
Qed.

(** X14: a key and a scalar written by [CreateKeyValue] are read back: for a
    key that is a plain scalar and a scalar that can be encoded, the line
    [CreateKeyValue] returns is scanned as this key followed by this scalar,
    when the handler never stops. *)
Theorem key_value_round_trip (H : Type) (handler : YamlHandler H)
    (tag S : string) (past : ascii) (h : H) :
  never_stops handler ->
  plain_scalar (chars tag) ->
  encodable S ->
  exists Y,
    CreateKeyValue tag S = Some Y
    /\ trace (run Y past h) = [StartDocument; Key tag; Scalar S; EndDocument]
    /\ returned (run Y past h) = Some true.
Proof.
  intros C P E. destruct (CreateSafeScalar_encodes S E) as (Y & EY & Enc).
  exists (tag ++ ": " ++ Y ++ String LF EmptyString)%string.
  split; [unfold CreateKeyValue; rewrite EY; reflexivity|].
  destruct (run_erase C (tag ++ ": " ++ Y ++ String LF EmptyString) past h) as [-> ->].
  apply (key_value_run tag S Y past P Enc).
Qed.

Lemma key_value_round_trip_witness :
  never_stops Collect
  /\ plain_scalar (chars "start time")
  /\ encodable "12:30"
  /\ exists Y,
       CreateKeyValue "start time" "12:30" = Some Y
       /\ trace (run Y NUL ([] : list string))
          = [StartDocument; Key "start time"; Scalar "12:30"; EndDocument]
       /\ returned (run Y NUL ([] : list string)) = Some true.
Proof.
  assert (plain_scalar (chars "start time")) as H1.
  { split; [discriminate|]. split.
    - intros x D. simpl in D.
      repeat (destruct D as [D|D]; [subst x; reflexivity|]). destruct D.
    - split; discriminate. }
  assert (encodable "12:30") as H2.
  { split; [vm_compute; reflexivity|]. split; [discriminate|].
    split; [intros W; apply already_quoted_spec in W; discriminate W|].
    split.
    - intros [D _]. simpl in D. repeat (destruct D as [D|D]; [discriminate D|]). exact D.
    - intros A. specialize (A ":"%char ltac:(simpl; tauto)). discriminate A. }
  split; [exact never_stops_Collect|]. split; [exact H1|]. split; [exact H2|].
  exact (key_value_round_trip (list string) Collect "start time" "12:30" NUL []
           never_stops_Collect H1 H2).
Defined.

Lemma join_first (sep t : string) (ts : list string) :
  exists r, chars (join sep (t :: ts)) = chars t ++ r.
Proof.
  destruct ts as [|t' ts].
  - exists []. simpl. rewrite app_nil_r. reflexivity.
  - exists (chars (sep ++ join sep (t' :: ts))).
    change (join sep (t :: t' :: ts)) with (t ++ sep ++ join sep (t' :: ts))%string.
    apply chars_append.
Qed.

Lemma join_two (t t' : string) (ts : list string) :
  chars (join ", " (t :: t' :: ts))
  = chars t ++ ","%char :: SPACE :: chars (join ", " (t' :: ts)).
Proof.
  change (join ", " (t :: t' :: ts)) with (t ++ ", " ++ join ", " (t' :: ts))%string.
  rewrite chars_append. reflexivity.
Qed.

(** The items of a sequence one after another, then the closing bracket. *)
Lemma items_run (yaml : string) (past : ascii) (items : list string) :
  forall (ts : list string) (st : State unit) k evs,
  items <> [] ->
  Forall2 encodes items ts ->
  is_at st k (length (chars yaml)) true evs ->
  reads yaml k (chars (join ", " ts) ++ ["]"%char]) ->
  (k + length (chars (join ", " ts)) + 1 < length (chars yaml) ->
   deref yaml past (k + length (chars (join ", " ts)) + 1) <> SPACE) ->
  exists st',
    rtc (iteration yaml past) st st'
    /\ is_at st' (k + length (chars (join ", " ts)) + 1) (length (chars yaml)) true
             (evs ++ map Scalar items ++ [EndSequence]).
Proof.
  induction items as [|s items IH]; intros ts st k evs Hne F At R Hafter; [congruence|].
  inversion F as [|s' t items' ts' Es F' E1 E2]. subst s' items' ts. clear Hne.
  destruct items as [|s2 items].
  - inversion F'. subst ts'. clear F F'. cbn [join] in *.
    set (m := length (chars t)) in *.
    assert (deref yaml past (k + m) = "]"%char) as EB.
    { apply (reads_at yaml past k _ m _ R). unfold m.
      rewrite lookup_app_r by lia. rewrite Nat.sub_diag. reflexivity. }
    pose proof (reads_lt yaml k _ m R ltac:(rewrite length_app; simpl; fold m; lia)) as Hlt.
    destruct (step_encoded yaml past st k true evs s t "]"%char
                At Es R eq_refl eq_refl eq_refl) as (st1 & I1 & A1).
    { unfold IsNormalChar_at. fold m. rewrite EB. reflexivity. }
    fold m in A1.
    destruct (iteration_of_step yaml past st1 (k + m) true (evs ++ [Scalar s])
                (pred (k + m + 1)) true ((evs ++ [Scalar s]) ++ [EndSequence])
                A1 Hlt) as (st2 & I2 & A2).
    { apply (step_close yaml past st1 (k + m) _ (k + m + 1) A1 EB); try lia.
      exact Hafter. }
    exists st2. split.
    + eapply rtc_l; [exact I1|]. apply rtc_once. exact I2.
    + apply (is_at_eq _ _ _ _ _ _ _ A2); [lia|].
      rewrite <- app_assoc. reflexivity.
  - inversion F' as [|s2' t2 items' ts2 Es2 F2 E1 E2]. subst s2' items' ts'.
    assert (items_ne : s2 :: items <> []) by discriminate.
    specialize (IH (t2 :: ts2)).
    rewrite join_two in *. set (J := chars (join ", " (t2 :: ts2))) in *.
    set (m := length (chars t)) in *.
    assert (length (chars t ++ ","%char :: SPACE :: J) = m + 2 + length J) as Hlen.
    { rewrite length_app. simpl. fold m. lia. }
    rewrite Hlen in *.
    assert (reads yaml k ((chars t ++ [","%char]) ++ SPACE :: (J ++ ["]"%char]))) as R'.
    { apply (reads_eq yaml _ _ _ _ R eq_refl). rewrite <- !app_assoc. reflexivity. }
    destruct (reads_app yaml _ _ _ R') as [Ra Rb].
    rewrite length_app in Rb. simpl length in Rb. fold m in Rb.
    assert (deref yaml past (k + m) = ","%char) as EC.
    { apply (reads_at yaml past k _ m _ Ra). unfold m.
      rewrite lookup_app_r by lia. rewrite Nat.sub_diag. reflexivity. }
    assert (deref yaml past (k + m + 1) = SPACE) as ES.
    { replace (k + m + 1) with (k + (m + 1) + 0) by lia.
      apply (reads_at yaml past _ _ 0 _ Rb). reflexivity. }
    destruct (encodes_first s2 t2 Es2) as (y & rest2 & Et2 & Hy).
    destruct (join_first ", " t2 ts2) as (r & EJ). fold J in EJ. rewrite Et2 in EJ.
    assert (deref yaml past (k + m + 2) = y) as EY.
    { replace (k + m + 2) with (k + (m + 1) + 1) by lia.
      apply (reads_at yaml past _ _ 1 _ Rb). rewrite EJ. reflexivity. }
    pose proof (reads_lt yaml _ _ 1 Rb ltac:(rewrite EJ; simpl; lia)) as Hlt.
    destruct (step_encoded yaml past st k true evs s t ","%char
                At Es Ra eq_refl eq_refl eq_refl) as (st1 & I1 & A1).
    { unfold IsNormalChar_at, PeekNext_at. fold m. rewrite EC. cbn [Ascii.eqb orb].
      replace (length (chars yaml) <=? k + m + 1) with false
        by (symmetry; apply Nat.leb_gt; lia).
      rewrite ES. reflexivity. }
    fold m in A1.
    destruct (iteration_of_step yaml past st1 (k + m) true (evs ++ [Scalar s])
                (pred (k + m + 2)) true (evs ++ [Scalar s])
                A1 ltac:(lia)) as (st2 & I2 & A2).
    { apply (step_separator yaml past st1 (k + m) _ _ (k + m + 2) A1); try lia.
      - right. exact EC.
      - intros j Hj. replace j with (k + m + 1) by lia. exact ES.
      - intros _. rewrite EY. exact Hy. }
    destruct (IH st2 (k + m + 2) (evs ++ [Scalar s]) items_ne F') as (st3 & I3 & A3).
    + apply (is_at_eq _ _ _ _ _ _ _ A2); [lia|reflexivity].
    + fold J. apply (reads_eq yaml (Datatypes.S (k + (m + 1))) (J ++ ["]"%char]));
        [|lia|reflexivity].
      apply (reads_cons yaml past _ _ _ Rb).
    + fold J. replace (k + m + 2 + length J + 1) with (k + (m + 2 + length J) + 1) by lia.
      exact Hafter.
    + fold J in A3. exists st3. split.
      * eapply rtc_l; [exact I1|]. eapply rtc_l; [exact I2|]. exact I3.
      * apply (is_at_eq _ _ _ _ _ _ _ A3); [lia|].
        rewrite <- app_assoc. reflexivity.
Qed.

(** A flow sequence from its opening bracket to its closing one. *)
Lemma sequence_run (yaml : string) (past : ascii) (items ts : list string)
    (st : State unit) k c evs :
  Forall2 encodes items ts ->
  is_at st k (length (chars yaml)) c evs ->
  reads yaml k ("["%char :: chars (join ", " ts) ++ ["]"%char]) ->
  (k + length (chars (join ", " ts)) + 2 < length (chars yaml) ->
   deref yaml past (k + length (chars (join ", " ts)) + 2) <> SPACE) ->
  exists st',
    rtc (iteration yaml past) st st'
    /\ is_at st' (k + length (chars (join ", " ts)) + 2) (length (chars yaml)) true
             (evs ++ StartSequence :: map Scalar items ++ [EndSequence]).
Proof.
  intros F At R Hafter. destruct (reads_cons yaml past _ _ _ R) as [EO R1].
  set (J := chars (join ", " ts)) in *.
  pose proof (reads_lt yaml k _ 0 R ltac:(simpl; lia)) as Hlt0.
  pose proof (reads_lt yaml _ _ (length J) R1 ltac:(rewrite length_app; simpl; lia)) as Hlt1.
  assert (deref yaml past (Datatypes.S k) <> SPACE) as Hfirst.
  { destruct F as [|s t items ts Es F].
    - rewrite <- (Nat.add_0_r (Datatypes.S k)).
      rewrite (reads_at yaml past _ _ 0 "]"%char R1 eq_refl). discriminate.
    - destruct (encodes_first s t Es) as (y & rest & Et & Hy).
      destruct (join_first ", " t ts) as (r & EJ). fold J in EJ. rewrite Et in EJ.
      rewrite <- (Nat.add_0_r (Datatypes.S k)).
      rewrite (reads_at yaml past _ _ 0 y R1 ltac:(rewrite EJ; reflexivity)). exact Hy. }
  destruct (iteration_of_step yaml past st k c evs (pred (k + 1)) true
              (evs ++ [StartSequence]) At ltac:(lia)) as (st1 & I1 & A1).
  { apply (step_open yaml past st k c evs (k + 1) At EO); try lia.
    intros _. replace (k + 1) with (Datatypes.S k) by lia. exact Hfirst. }
  destruct F as [|s t items ts Es F].
  - cbn [join chars list_ascii_of_string length] in *. unfold J in *.
    cbn [join chars list_ascii_of_string length app] in *.
    assert (deref yaml past (k + 1) = "]"%char) as EB.
    { replace (k + 1) with (Datatypes.S k + 0) by lia.
      apply (reads_at yaml past _ _ 0 _ R1). reflexivity. }
    destruct (iteration_of_step yaml past st1 (k + 1) true (evs ++ [StartSequence])
                (pred (k + 2)) true ((evs ++ [StartSequence]) ++ [EndSequence]))
      as (st2 & I2 & A2).
    { apply (is_at_eq _ _ _ _ _ _ _ A1); [lia|reflexivity]. }
    { lia. }
    { apply (step_close yaml past st1 (k + 1) _ (k + 2)); try lia.
      - apply (is_at_eq _ _ _ _ _ _ _ A1); [lia|reflexivity].
      - exact EB.
      - intros L. replace (k + 2) with (k + 0 + 2) by lia. apply Hafter. lia. }
    exists st2. split.
    + eapply rtc_l; [exact I1|]. apply rtc_once. exact I2.
    + apply (is_at_eq _ _ _ _ _ _ _ A2); [lia|].
      rewrite <- app_assoc. reflexivity.
  - destruct (items_run yaml past (s :: items) (t :: ts) st1 (k + 1)
                (evs ++ [StartSequence])) as (st2 & I2 & A2).
    + discriminate.
    + constructor; assumption.
    + apply (is_at_eq _ _ _ _ _ _ _ A1); [lia|reflexivity].
    + apply (reads_eq yaml _ _ _ _ R1); [lia|reflexivity].
    + fold J. replace (k + 1 + length J + 1) with (k + length J + 2) by lia. exact Hafter.
    + fold J in A2. exists st2. split.
      * eapply rtc_l; [exact I1|]. exact I2.
      * apply (is_at_eq _ _ _ _ _ _ _ A2); [lia|].
        rewrite <- app_assoc. reflexivity.
Qed.

Lemma render_all_encodes (items : list string) :
  Forall encodable items ->
  exists ts, render_all CreateSafeScalar items = Some ts /\ Forall2 encodes items ts.
Proof.
  induction 1 as [|s items E _ (ts & R & F)].
  - exists []. split; [reflexivity|constructor].
  - destruct (CreateSafeScalar_encodes s E) as (t & Et & Enc).
    exists (t :: ts). split; [cbn [render_all]; rewrite Et, R; reflexivity|].
    constructor; assumption.
Qed.

Lemma chars_sequence (J : string) :
  chars ("[" ++ J ++ "]") = "["%char :: chars J ++ ["]"%char].
Proof. simpl. rewrite chars_append. reflexivity. Qed.

(** The text [CreateSequence] writes for the texts [ts] of some scalars. *)
Lemma sequence_text_run (items ts : list string) (past : ascii) :
  Forall2 encodes items ts ->
  trace (run ("[" ++ join ", " ts ++ "]") past tt)
  = StartDocument :: StartSequence :: map Scalar items ++ [EndSequence; EndDocument]
  /\ returned (run ("[" ++ join ", " ts ++ "]") past tt) = Some true.
Proof.
  intros F. set (yaml := ("[" ++ join ", " ts ++ "]")%string).
  pose proof (chars_sequence (join ", " ts)) as E. fold yaml in E.
  assert (length (chars yaml) = length (chars (join ", " ts)) + 2) as Hlen.
  { rewrite E. simpl. rewrite length_app. simpl. lia. }
  destruct (sequence_run yaml past items ts _ 0 true [StartDocument] F (is_at_start yaml))
    as (st' & I & A).
  - rewrite <- E. apply reads_whole.
  - lia.
  - destruct (run_of_loops yaml past st'
                ([StartDocument] ++ StartSequence :: map Scalar items ++ [EndSequence]) true
                (0 + length (chars (join ", " ts)) + 2)) as [T R].
    + apply (loops_iterations yaml past _ st' _ I). apply loops_done.
      destruct A as (C1 & C2 & _). lia.
    + exact A.
    + rewrite T, R. split; [|reflexivity]. simpl. rewrite <- app_assoc. reflexivity.
Qed.

(** X15: a sequence written by [CreateSequence] is read back: for scalars
    that can be encoded, and also for no scalar at all, the text
    [CreateSequence] returns is scanned as the start of a sequence, these
    scalars in their order and the end of the sequence, when the handler
    never stops. *)
Theorem sequence_round_trip (H : Type) (handler : YamlHandler H)
    (items : list string) (past : ascii) (h : H) :
  never_stops handler ->
  Forall encodable items ->
  exists Y,
    CreateSequence_text items = Some Y
    /\ trace (run Y past h)
       = StartDocument :: StartSequence :: map Scalar items ++ [EndSequence; EndDocument]
    /\ returned (run Y past h) = Some true.
Proof.
  intros C E. destruct (render_all_encodes items E) as (ts & R & F).
  exists ("[" ++ join ", " ts ++ "]")%string. split.
  - unfold CreateSequence_text. rewrite CreateSequence_formula, R. reflexivity.
  - destruct (run_erase C ("[" ++ join ", " ts ++ "]") past h) as [-> ->].
    apply (sequence_text_run items ts past F).
Qed.

Lemma encodable_plain : encodable "plain".
Proof.
  split; [vm_compute; reflexivity|]. split; [discriminate|].
  split; [intros W; apply already_quoted_spec in W; discriminate W|].
  split.
  - intros [D _]. simpl in D. repeat (destruct D as [D|D]; [discriminate D|]). exact D.
  - intros _. split; discriminate.
Qed.

Lemma encodable_special : encodable "a, b".
Proof.
  split; [vm_compute; reflexivity|]. split; [discriminate|].
  split; [intros W; apply already_quoted_spec in W; discriminate W|].
  split.
  - intros [D _]. simpl in D. repeat (destruct D as [D|D]; [discriminate D|]). exact D.
  - intros A. specialize (A ","%char ltac:(simpl; tauto)). discriminate A.
Qed.

Lemma sequence_round_trip_witness :
  never_stops Collect
  /\ Forall encodable ["plain"; "a, b"]%string
  /\ exists Y,
       CreateSequence_text ["plain"; "a, b"]%string = Some Y
       /\ trace (run Y NUL ([] : list string))
          = StartDocument :: StartSequence :: map Scalar ["plain"; "a, b"]%string
              ++ [EndSequence; EndDocument]
       /\ returned (run Y NUL ([] : list string)) = Some true.
Proof.
  assert (Forall encodable ["plain"; "a, b"]%string) as H1.
  { constructor; [exact encodable_plain|]. constructor; [exact encodable_special|].
    constructor. }
  split; [exact never_stops_Collect|]. split; [exact H1|].
  exact (sequence_round_trip (list string) Collect ["plain"; "a, b"]%string NUL []
           never_stops_Collect H1).
Defined.

(** The line [CreateKeyValueSeq] writes for a key and the texts [ts]. *)
Lemma key_value_seq_run (tag : string) (items ts : list string) (past : ascii) :
  plain_scalar (chars tag) -> Forall2 encodes items ts ->
  trace (run (tag ++ ": " ++ ("[" ++ join ", " ts ++ "]") ++ String LF EmptyString) past tt)
  = StartDocument :: Key tag :: StartSequence :: map Scalar items
      ++ [EndSequence; EndDocument]
  /\ returned (run (tag ++ ": " ++ ("[" ++ join ", " ts ++ "]") ++ String LF EmptyString)
                   past tt) = Some true.
Proof.
  intros P F.
  set (yaml := (tag ++ ": " ++ ("[" ++ join ", " ts ++ "]") ++ String LF EmptyString)%string).
  set (J := chars (join ", " ts)).
  assert (chars yaml = chars tag ++ ":"%char :: SPACE :: ("["%char :: J ++ ["]"%char; LF]))
    as E.
  { unfold yaml. rewrite chars_append. simpl. rewrite chars_append. simpl.
    rewrite chars_append. fold J. rewrite <- app_assoc. reflexivity. }
  set (n := length (chars tag)).
  assert (length (chars yaml) = n + 2 + (length J + 3)) as Hlen.
  { rewrite E, length_app. simpl. rewrite length_app. simpl. fold n. lia. }
  destruct (key_prefix_run yaml past tag _ "["%char (J ++ ["]"%char; LF]) P E eq_refl
              ltac:(discriminate)) as (st2 & I2 & A2).
  fold n in A2.
  assert (reads yaml (n + 2) (("["%char :: J ++ ["]"%char]) ++ [LF])) as R.
  { apply (reads_eq yaml (length (chars tag ++ [":"%char; SPACE]))
             (("["%char :: J ++ ["]"%char]) ++ [LF])).
    - apply (reads_seg yaml _ _ []). rewrite E, app_nil_r, <- !app_assoc. simpl.
      rewrite <- app_assoc. reflexivity.
    - rewrite length_app. reflexivity.
    - reflexivity. }
  destruct (reads_app yaml _ _ _ R) as [R1 R2].
  assert (deref yaml past (n + 2 + length J + 2) = LF) as EL.
  { replace (n + 2 + length J + 2)
      with (n + 2 + length ("["%char :: J ++ ["]"%char]) + 0)
      by (simpl; rewrite length_app; simpl; lia).
    apply (reads_at yaml past _ _ 0 _ R2). reflexivity. }
  destruct (sequence_run yaml past items ts st2 (n + 2) false [StartDocument; Key tag]
              F A2 R1) as (st3 & I3 & A3).
  { fold J. intros _. rewrite EL. discriminate. }
  fold J in A3.
  destruct (iteration_of_step yaml past st3 _ _ _ (n + 2 + length J + 2) true
              ([StartDocument; Key tag] ++ StartSequence :: map Scalar items ++ [EndSequence])
              A3 ltac:(lia)) as (st4 & I4 & A4).
  { apply (step_newline yaml past st3 _ _ _ A3 EL). }
  destruct (run_of_loops yaml past st4
              ([StartDocument; Key tag] ++ StartSequence :: map Scalar items ++ [EndSequence])
              true (Datatypes.S (n + 2 + length J + 2))) as [T Rt].
  - apply (loops_iterations yaml past _ st4).
    + eapply rtc_trans; [exact I2|]. eapply rtc_trans; [exact I3|]. apply rtc_once. exact I4.
    + apply loops_done. destruct A4 as (C1 & C2 & _). lia.
  - exact A4.
  - rewrite T, Rt. split; [|reflexivity]. simpl. rewrite <- app_assoc. reflexivity.
Qed.

(** X16: a key and a sequence written by [CreateKeyValueSeq] are read back:
    for a key that is a plain scalar and scalars that can be encoded, the
    line [CreateKeyValueSeq] returns is scanned as this key, the start of a
    sequence, these scalars in their order and the end of the sequence, when
    the handler never stops. *)
Theorem key_value_seq_round_trip (H : Type) (handler : YamlHandler H)
    (tag : string) (items : list string) (past : ascii) (h : H) :
  never_stops handler ->
  plain_scalar (chars tag) ->
  Forall encodable items ->
  exists Y,
    CreateKeyValueSeq CreateSafeScalar tag items = Some Y
    /\ trace (run Y past h)
       = StartDocument :: Key tag :: StartSequence :: map Scalar items
           ++ [EndSequence; EndDocument]
    /\ returned (run Y past h) = Some true.
Proof.
  intros C P E. destruct (render_all_encodes items E) as (ts & R & F).
  exists (tag ++ ": " ++ ("[" ++ join ", " ts ++ "]") ++ String LF EmptyString)%string.
  split.
  - unfold CreateKeyValueSeq. rewrite CreateSequence_formula, R. reflexivity.
  - destruct (run_erase C
                (tag ++ ": " ++ ("[" ++ join ", " ts ++ "]") ++ String LF EmptyString)
                past h) as [-> ->].
    apply (key_value_seq_run tag items ts past P F).
Qed.

Lemma key_value_seq_round_trip_witness :
  never_stops Collect
  /\ plain_scalar (chars "tags")
  /\ Forall encodable ["a, b"; "plain"]%string
  /\ exists Y,
       CreateKeyValueSeq CreateSafeScalar "tags" ["a, b"; "plain"]%string = Some Y
       /\ trace (run Y NUL ([] : list string))
          = StartDocument :: Key "tags" :: StartSequence
              :: map Scalar ["a, b"; "plain"]%string ++ [EndSequence; EndDocument]
       /\ returned (run Y NUL ([] : list string)) = Some true.
Proof.
  assert (plain_scalar (chars "tags")) as H1.
  { split; [discriminate|]. split.
    - intros x D. simpl in D.
      repeat (destruct D as [D|D]; [subst x; reflexivity|]). destruct D.
    - split; discriminate. }
  assert (Forall encodable ["a, b"; "plain"]%string) as H2.
  { constructor; [exact encodable_special|]. constructor; [exact encodable_plain|].
    constructor. }
  split; [exact never_stops_Collect|]. split; [exact H1|]. split; [exact H2|].
  exact (key_value_seq_round_trip (list string) Collect "tags" ["a, b"; "plain"]%string
           NUL [] never_stops_Collect H1 H2).
Defined.

End RoundTrips.

(** ** The assertions of the stack *)

Section Assertions.

#[local] Open Scope nat_scope.

Context {H : Type} {handler : YamlHandler H}.
Variable yaml : string.
Variable past : ascii.

Implicit Types st : State H.

Lemma fits_cons s : fits s -> exists t s', s = t :: s'.
Proof. intros [[L _] _]. destruct s as [|t s']; [discriminate|]. exists t, s'. reflexivity. Qed.

Lemma no_Abort_OutputScalar s st st' : OutputScalar yaml past s st <> Abort st'.
Proof.
  unfold OutputScalar, call_onKey, call_onScalar, ask.
  destruct (Ascii.eqb _ _); [destruct (onKey _ _)|destruct (onScalar _ _)]; discriminate.
Qed.

Lemma no_Abort_ParseNode st st' : ParseNode yaml past st <> Abort st'.
Proof.
  unfold ParseNode, ParseQuoted, ParsePlain.
  repeat match goal with
  | |- context [let '(_, _) := ?x in _] => destruct x
  | |- context [if ?b then _ else _] => destruct b
  end; try apply no_Abort_OutputScalar; try discriminate;
  unfold call_onScalar, ask; destruct (onScalar _ _); discriminate.
Qed.

Lemma no_Abort_dispatch st st' : dispatch yaml past st <> Abort st'.
Proof.
  unfold dispatch.
  repeat match goal with
  | |- context [if ?b then _ else _] => destruct b
  end; try apply no_Abort_ParseNode; discriminate.
Qed.

Lemma guarded_dispatch st : fits (yamlStack_ st) -> guarded (dispatch yaml past st).
Proof.
  intros F. pose proof (quiet_dispatch yaml past st) as Q.
  pose proof (no_Abort_dispatch st) as NA.
  destruct (dispatch yaml past st) as [b st'|st'|]; simpl in *.
  - destruct Q as [-> _]. exact F.
  - exfalso. exact (NA st' eq_refl).
  - exact I.
Qed.

Lemma guarded_Push indent t st :
  fits (yamlStack_ st) -> top (yamlStack_ st) = Some t ->
  (level t < level indent)%Z ->
  guarded (Push indent st).
Proof.
  intros [Ok L] T Hlt. pose proof (stack_Push indent t st Ok T Hlt) as SP.
  unfold Push, push in *. cbn [yamlStack_ set_complete] in *.
  destruct (length (yamlStack_ st) <? kMaxStackSize - 1) eqn:E.
  - apply Nat.ltb_lt in E. split; [exact SP|].
    destruct (isSequence indent); cbn [yamlStack_ set_stack call length]; lia.
  - apply Nat.ltb_ge in E. cbn [guarded yamlStack_ set_complete]. lia.
Qed.

Lemma guarded_Pop st : fits (yamlStack_ st) -> guarded (Pop st).
Proof.
  intros F. pose proof (stack_Pop st (proj1 F)) as SP.
  destruct (fits_cons _ F) as (t & s' & Es). destruct F as [Ok L].
  unfold Pop in *. destruct (length (yamlStack_ st) =? 1).
  - split; [exact Ok|exact L].
  - destruct (quiet_HandleMissingNull st) as [S _]. rewrite S, Es in *.
    cbn [top pop] in *. split; [exact SP|].
    cbn [length] in L. destruct (isSequence t); cbn [yamlStack_ set_stack call]; lia.
Qed.

Lemma guarded_Pop_while fuel indent st :
  fits (yamlStack_ st) -> guarded (Pop_while fuel indent st).
Proof.
  revert st. induction fuel as [|fuel IH]; intros st F; simpl; [exact I|].
  destruct (fits_cons _ F) as (t & s' & Es). rewrite Es. cbn [top]. try rewrite <- Es.
  destruct (level indent <? level t)%Z; [|exact F].
  pose proof (guarded_Pop st F) as G.
  destruct (Pop st) as [[|] st'|st'|]; simpl in *; try exact G.
  apply IH. exact G.
Qed.

Lemma guarded_indentation st :
  fits (yamlStack_ st) -> guarded (indentation yaml past st).
Proof.
  intros F. unfold indentation. destruct (col_ st =? 1)%Z; [|exact F].
  destruct (quiet_GetIndent yaml past st) as [S _].
  destruct (GetIndent yaml past st) as [st1 indent]. simpl in S. rewrite <- S in F.
  destruct (level indent =? kNoLevel)%Z; [exact F|].
  destruct (fits_cons _ F) as (t & s' & Es). rewrite Es. cbn [top]. try rewrite <- Es.
  destruct (level t <? level indent)%Z eqn:E.
  - apply Z.ltb_lt in E. apply (guarded_Push indent t st1 F); [rewrite Es; reflexivity|exact E].
  - apply guarded_Pop_while. exact F.
Qed.

Lemma guarded_body st : fits (yamlStack_ st) -> guarded (body yaml past st).
Proof.
  intros F. unfold body. pose proof (guarded_indentation st F) as G.
  destruct (indentation yaml past st) as [[|] st'|st'|]; simpl in *; try exact G.
  apply guarded_dispatch. exact G.
Qed.

Lemma guarded_Parse_loop fuel st :
  fits (yamlStack_ st) -> guarded (Parse_loop yaml past fuel st).
Proof.
  revert st. induction fuel as [|fuel IH]; intros st F; simpl; [exact I|].
  destruct (curr_ st <? end_ st); [|exact F].
  pose proof (guarded_body st F) as G.
  destruct (body yaml past st) as [[|] st'|st'|]; simpl in *; try exact G.
  apply IH. exact G.
Qed.

(** [while( yamlStack_.size() > 1 ) Pop();] ends on the sentinel alone. *)
Lemma unwind_sentinel fuel st :
  fits (yamlStack_ st) ->
  match unwind fuel st with
  | Ret _ st' => yamlStack_ st' = [mkIndent 0 false]
  | Abort st' => length (yamlStack_ st') = kMaxStackSize - 1
  | Fuel => True
  end.
Proof.
  revert st. induction fuel as [|fuel IH]; intros st F; simpl; [exact I|].
  destruct (1 <? length (yamlStack_ st)) eqn:E.
  - pose proof (guarded_Pop st F) as G.
    destruct (Pop st) as [b st'|st'|]; simpl in *; [apply IH; exact G|exact G|exact I].
  - apply Nat.ltb_ge in E. destruct F as [[La _] _].
    destruct (yamlStack_ st) as [|t [|u s']]; simpl in *; [discriminate| |lia].
    injection La as ->. reflexivity.
Qed.

Lemma guarded_run (h : H) :
  match run yaml past h with
  | Ret true st => yamlStack_ st = [mkIndent 0 false]
  | Ret false st => fits (yamlStack_ st)
  | Abort st => length (yamlStack_ st) = kMaxStackSize - 1
  | Fuel => False
  end.
Proof.
  pose proof (no_Fuel_Parse yaml past (YamlParser yaml h)) as NF. revert NF.
  unfold run, Parse.
  assert (fits (yamlStack_ (call StartDocument onStartDocument (YamlParser yaml h)))) as F.
  { split; [split; simpl; auto|simpl; unfold kMaxStackSize; lia]. }
  pose proof (guarded_Parse_loop
     (S (end_ (call StartDocument onStartDocument (YamlParser yaml h))
         - curr_ (call StartDocument onStartDocument (YamlParser yaml h))))
     _ F) as G.
  destruct (Parse_loop _ _ _ _) as [[|] st1|st1|]; simpl in G.
  - pose proof (unwind_sentinel (S (length (yamlStack_ st1))) st1 G) as U.
    destruct (unwind _ _) as [b st2|st2|]; intros NF; [exact U|exact U|apply NF; reflexivity].
  - intros _. exact G.
  - intros _. exact G.
  - intros NF. apply NF. reflexivity.
Qed.

End Assertions.

Section StackProperties.

#[local] Open Scope nat_scope.

(** X17: every loop of the scanner ends. [Parse] returns, or stops on an
    assertion, on every text and with every handler: the fuel the model
    gives each loop, the bytes left for the loops over the text and the
    frames on the stack for the loops that pop, is never used up. *)
Theorem scan_terminates (H : Type) (handler : YamlHandler H)
    (yaml : string) (past : ascii) (h : H) :
  exists st, state_of (run yaml past h) = Some st.
Proof.
  pose proof (no_Fuel_Parse yaml past (YamlParser yaml h)) as NF. unfold run.
  destruct (Parse yaml past (YamlParser yaml h)) as [b st|st|].
  - exists st. reflexivity.
  - exists st. reflexivity.
  - exfalso. apply NF. reflexivity.
Qed.



(** X19: a scan that returns [true] has closed every block it opened by
    indentation: the stack is back to the sentinel frame alone. *)
Theorem success_leaves_sentinel (H : Type) (handler : YamlHandler H)
    (yaml : string) (past : ascii) (h : H) :
  returned (run yaml past h) = Some true ->
  exists st, run yaml past h = Ret true st /\ yamlStack_ st = [mkIndent 0 false].
Proof.
  intros R. pose proof (guarded_run yaml past h) as G.
  destruct (run yaml past h) as [[|] st|st|]; try discriminate R.
  exists st. split; [reflexivity|exact G].
Qed.

Lemma success_leaves_sentinel_witness :
  returned (run text_nested NUL tt) = Some true
  /\ exists st, run text_nested NUL tt = Ret true st /\ yamlStack_ st = [mkIndent 0 false].
Proof.
  assert (returned (run text_nested NUL tt) = Some true) as H1 by (vm_compute; reflexivity).
  split; [exact H1|].
  exact (success_leaves_sentinel unit DefaultHandler text_nested NUL tt H1).
Defined.

End StackProperties.
